(** * document-chatbot-ai: the local retrieval engine

    A shallow embedding of the retrieval core of the repository and the
    properties its specification states about it:

    - [src/utils/local-rag.ts]: the index data model, [dotProduct],
      [magnitude], [cosineSimilarity], [searchLocalIndex], [readLocalIndex]
      and [writeLocalIndex];
    - the ingestion script ([splitText], [vectorId], [embedText], [run]);
    - [src/pages/api/chat.ts]: [embedQuery] and its process-wide cache,
      [chatCompletion] and the request [handler].

    Conventions of the embedding.

    - A JavaScript [number] is an IEEE 754 binary64 value: Rocq's primitive
      [float], whose operations are specified by [FloatAxioms] against
      [SpecFloat].  Integer parameters that the code only uses as counts or
      positions ([chunkSize], [chunkOverlap], [topK], array indices) are [Z].
    - A JavaScript string is its sequence of UTF-16 code units, [list N].
    - A thrown exception is the [Err] case of [result]; module-level mutable
      state (the embedding cache, the file system) is passed explicitly.
    - What the network and the disk answer is an input of the function that
      asks.
    - A value that the code casts to a type without a check (the body of a
      response, the parsed artifact, the body of a request) is a value of
      JSON of any shape; what the engine does with it (a property read, an
      iteration, a conversion to a number or to a text) follows ECMAScript,
      and what ECMAScript leaves to the engine is an input, [engine].
      Where a definition takes a value of the type the code names
      instead, its comment says so. *)

From Stdlib Require Import ZArith List Lia Bool Floats Ascii String DecimalString.
From Stdlib Require Import DecimalZ.
From Stdlib Require Import Sorting.Sorted Sorting.Permutation.
From stdpp Require Import gmap list.
Import ListNotations.

Local Open Scope bool_scope.
Set Warnings "-register-all".

(* ===================================================================== *)
(** * Part I: the model *)
(* ===================================================================== *)

(** ** JavaScript strings *)

Definition jsstring : Type := list N.

(** An ASCII literal as a JavaScript string. *)
Definition lit (s : string) : jsstring :=
  List.map N_of_ascii (list_ascii_of_string s).

(** [String(n)] for an integer [n] (template literals, [`${chunkIndex}`]). *)
Definition decimal (z : Z) : jsstring :=
  lit (NilZero.string_of_int (Z.to_int z)).

(** The class [\s] of a regular expression, which is also what [trim]
    strips: ECMAScript's WhiteSpace and LineTerminator code points. *)
Definition is_whitespace (c : N) : bool :=
  ((9 <=? c) && (c <=? 13))%N
  || (c =? 32)%N || (c =? 160)%N || (c =? 5760)%N
  || ((8192 <=? c) && (c <=? 8202))%N
  || (c =? 8232)%N || (c =? 8233)%N || (c =? 8239)%N || (c =? 8287)%N
  || (c =? 12288)%N || (c =? 65279)%N.

(** [s.replace(/\s+/g, ' ')]: every maximal run of whitespace becomes one
    space.  [in_run] tells that the previous code unit was whitespace. *)
Fixpoint replace_whitespace_runs (in_run : bool) (s : jsstring) : jsstring :=
  match s with
  | [] => []
  | c :: r =>
      if is_whitespace c
      then if in_run then replace_whitespace_runs true r
           else 32%N :: replace_whitespace_runs true r
      else c :: replace_whitespace_runs false r
  end.

Fixpoint trimStart (s : jsstring) : jsstring :=
  match s with
  | [] => []
  | c :: r => if is_whitespace c then trimStart r else s
  end.

Definition trim (s : jsstring) : jsstring :=
  rev (trimStart (rev (trimStart s))).

(** [Array.prototype.slice] and [String.prototype.slice] on integer
    arguments: a negative position counts from the end, both positions are
    clamped to the length, and an empty range gives an empty result. *)
Definition js_slice {A : Type} (s : list A) (start end_ : Z) : list A :=
  let len := Z.of_nat (length s) in
  let from := if (start <? 0)%Z then Z.max (len + start) 0 else Z.min start len in
  let to := if (end_ <? 0)%Z then Z.max (len + end_) 0 else Z.min end_ len in
  firstn (Z.to_nat (to - from)) (skipn (Z.to_nat from) s).

(** ** The chunker: [splitText] (ingestion script, lines 12-32) *)

Definition normalize (text : jsstring) : jsstring :=
  trim (replace_whitespace_runs false text).

(** [Math.min(Math.max(chunkOverlap, 0), chunkSize - 1)] *)
Definition clamp_overlap (chunkOverlap chunkSize : Z) : Z :=
  Z.min (Z.max chunkOverlap 0) (chunkSize - 1).

(** One evaluation of the [while] loop, from its test: [inl chunks] when the
    loop is left (test false, or [break]), [inr (start', chunks')] when
    the body ran and the loop goes on. *)
Definition splitText_step (normalized : jsstring) (chunkSize overlap : Z)
    (start : Z) (chunks : list jsstring) : list jsstring + Z * list jsstring :=
  let len := Z.of_nat (length normalized) in
  if (start <? len)%Z then
    let end_ := Z.min (start + chunkSize) len in
    let chunks' := chunks ++ [js_slice normalized start end_] in
    if (end_ =? len)%Z then inl chunks'
    else inr ((end_ - overlap)%Z, chunks')
  else inl chunks.

(** The loop, with a bound on the number of evaluations of its test:
    [None] when the bound is reached before the loop is left. *)
Fixpoint splitText_loop (fuel : nat) (normalized : jsstring)
    (chunkSize overlap : Z) (start : Z) (chunks : list jsstring)
    : option (list jsstring) :=
  match fuel with
  | O => None
  | S fuel' =>
      match splitText_step normalized chunkSize overlap start chunks with
      | inl done => Some done
      | inr (start', chunks') =>
          splitText_loop fuel' normalized chunkSize overlap start' chunks'
      end
  end.

Definition splitText (text : jsstring) (chunkSize chunkOverlap : Z)
    : option (list jsstring) :=
  let normalized := normalize text in
  match normalized with
  | [] => Some []
  | _ :: _ =>
      let overlap := clamp_overlap chunkOverlap chunkSize in
      splitText_loop (S (length normalized)) normalized chunkSize overlap 0 []
  end.

(** What "concatenating the fragments with the overlapping prefixes
    removed" computes: the first fragment, then every later fragment without
    its first [overlap] code units. *)
Definition reassemble (overlap : Z) (chunks : list jsstring) : jsstring :=
  match chunks with
  | [] => []
  | c :: rest => c ++ concat (List.map (skipn (Z.to_nat overlap)) rest)
  end.

(** ** Vectors and similarity ([src/utils/local-rag.ts], lines 23-47) *)

Definition vector : Type := list float.

(** The [for] loop of [dotProduct]: [n] iterations are left, [i] is the
    loop variable.  Reading an array past its end gives [undefined], which
    arithmetic turns into [NaN]. *)
Fixpoint dotProduct_loop (n : nat) (i : nat) (a b : vector) (total : float)
    : float :=
  match n with
  | O => total
  | S n' =>
      dotProduct_loop n' (S i) a b (total + nth i a nan * nth i b nan)%float
  end.

Definition dotProduct (a b : vector) : float :=
  let size := Nat.min (length a) (length b) in
  dotProduct_loop size 0 a b 0%float.

Definition magnitude (values : vector) : float :=
  PrimFloat.sqrt
    (fold_left (fun total value => (total + value * value)%float) values 0%float).

(** [!x] for a number [x]: true for [+0], [-0] and [NaN]. *)
Definition falsy (x : float) : bool := (x =? 0)%float || is_nan x.

Definition cosineSimilarity (a b : vector) : float :=
  let magA := magnitude a in
  let magB := magnitude b in
  if falsy magA || falsy magB then 0%float
  else (dotProduct a b / (magA * magB))%float.

(** ** The index ([src/utils/local-rag.ts], lines 4-19) *)

Record item_metadata : Type := {
  text : jsstring;
  source : jsstring;
  chunk : float
}.

Record LocalIndexItem : Type := {
  id : jsstring;
  embedding : vector;
  metadata : item_metadata
}.

Record LocalIndex : Type := {
  embeddingModel : jsstring;
  dimension : float;
  createdAt : jsstring;
  items : list LocalIndexItem
}.

(** ** Ranking: [searchLocalIndex] ([src/utils/local-rag.ts], lines 49-61) *)

(** [Array.prototype.sort(cmp)].  ECMAScript requires the sort to be stable
    and fixes its result only for a consistent comparator; it is modelled by
    an insertion sort: an element moves behind exactly the elements that
    the comparator puts before it ([cmp x y > 0]; a [NaN] answer counts as
    [+0]).  When a comparison is [NaN] the comparator is not consistent
    and the order is the implementation's: the order of [js_sort] is then
    one order that ECMAScript allows, not the order of a given engine. *)
Fixpoint sort_insert {A : Type} (cmp : A -> A -> float) (x : A) (l : list A)
    : list A :=
  match l with
  | [] => [x]
  | y :: l' =>
      if (0 <? cmp x y)%float then y :: sort_insert cmp x l' else x :: l
  end.

Fixpoint js_sort {A : Type} (cmp : A -> A -> float) (l : list A) : list A :=
  match l with
  | [] => []
  | x :: l' => sort_insert cmp x (js_sort cmp l')
  end.

Definition score_of (queryEmbedding : vector) (item : LocalIndexItem) : float :=
  cosineSimilarity queryEmbedding (embedding item).

(** The comparator [(a, b) => b.score - a.score] on [{item, score}]. *)
Definition by_score_desc (a b : LocalIndexItem * float) : float :=
  (snd b - snd a)%float.

(** [topK] is [None] when the caller leaves the argument out. *)
Definition searchLocalIndex (index : LocalIndex) (queryEmbedding : vector)
    (topK : option Z) : list LocalIndexItem :=
  let topK := match topK with Some k => k | None => 4%Z end in
  let scored :=
    List.map (fun item => (item, score_of queryEmbedding item)) (items index) in
  let sorted := js_sort by_score_desc scored in
  List.map fst (js_slice sorted 0 topK).

(** ** Exceptions *)

Inductive error : Type :=
| SystemError (code : string)
    (** a Node.js system error, with its [code]: [fs.readFile] of a missing
        file throws the one with code [ENOENT] *)
| SyntaxError
    (** thrown by [JSON.parse] and [response.json()] *)
| Error_ (message : jsstring)
    (** [new Error(message)] *)
| ApiError (message : jsstring) (status : Z)
    (** [new ApiError(message, status)] of [chat.ts] *)
| TypeError
    (** thrown by the engine where a property of [null] or of [undefined]
        is read, where what is called is no function, where what is
        destructured cannot be iterated, or where an object has no
        primitive value *).

Inductive result (A : Type) : Type :=
| Ok (a : A)
| Err (e : error).

Arguments Ok {A} a.
Arguments Err {A} e.

(** ** JSON values and the index artifact *)

(** A JavaScript value of the JSON data model.  The text of a JSON document
    is represented by the value it denotes ([Rendered]); a text outside the
    JSON grammar is [Malformed].  What [JSON.stringify] loses is lost in
    [stringify_value]; the grammar itself loses nothing. *)
Inductive json : Type :=
| JNull
| JBool (b : bool)
| JNum (x : float)
| JStr (s : jsstring)
| JArr (elements : list json)
| JObj (members : list (jsstring * json)).

(** ECMAScript SerializeJSONProperty on a Number: a finite number is
    printed by [Number::toString], which prints [-0] as ["0"] and every
    other finite number by digits that read back as the same number; a
    number that is not finite is printed as [null]. *)
Definition stringify_number (x : float) : json :=
  match classify x with
  | NaN | PInf | NInf => JNull
  | NZero => JNum 0%float
  | _ => JNum x
  end.

Fixpoint stringify_value (v : json) : json :=
  match v with
  | JNum x => stringify_number x
  | JArr elements => JArr (List.map stringify_value elements)
  | JObj members =>
      JObj (List.map (fun m => (fst m, stringify_value (snd m))) members)
  | _ => v
  end.

Inductive file_text : Type :=
| Rendered (v : json)
| Malformed (t : jsstring).

Definition JSON_stringify (v : json) : file_text := Rendered (stringify_value v).

Definition JSON_parse (content : file_text) : result json :=
  match content with
  | Rendered v => Ok v
  | Malformed _ => Err SyntaxError
  end.

(** The object an index is at run time, properties in creation order. *)
Definition metadata_value (m : item_metadata) : json :=
  JObj [ (lit "text", JStr (text m));
         (lit "source", JStr (source m));
         (lit "chunk", JNum (chunk m)) ].

Definition item_value (item : LocalIndexItem) : json :=
  JObj [ (lit "id", JStr (id item));
         (lit "embedding", JArr (List.map JNum (embedding item)));
         (lit "metadata", metadata_value (metadata item)) ].

Definition index_value (index : LocalIndex) : json :=
  JObj [ (lit "embeddingModel", JStr (embeddingModel index));
         (lit "dimension", JNum (dimension index));
         (lit "createdAt", JStr (createdAt index));
         (lit "items", JArr (List.map item_value (items index))) ].

(** The shape the type [LocalIndex] describes, read off a value: the
    properties are looked up by name, others are ignored. *)
Fixpoint jsstring_eqb (a b : jsstring) : bool :=
  match a, b with
  | [], [] => true
  | x :: a', y :: b' => (x =? y)%N && jsstring_eqb a' b'
  | _, _ => false
  end.

Fixpoint assoc (k : jsstring) (members : list (jsstring * json)) : option json :=
  match members with
  | [] => None
  | (k', v) :: rest => if jsstring_eqb k k' then Some v else assoc k rest
  end.

Definition field (k : string) (v : json) : option json :=
  match v with JObj members => assoc (lit k) members | _ => None end.

Definition as_string (v : json) : option jsstring :=
  match v with JStr s => Some s | _ => None end.

Definition as_number (v : json) : option float :=
  match v with JNum x => Some x | _ => None end.

Definition as_array {A : Type} (f : json -> option A) (v : json)
    : option (list A) :=
  match v with JArr elements => mapM f elements | _ => None end.

Definition as_metadata (v : json) : option item_metadata :=
  t ← field "text" v ≫= as_string;
  s ← field "source" v ≫= as_string;
  c ← field "chunk" v ≫= as_number;
  Some {| text := t; source := s; chunk := c |}.

Definition as_item (v : json) : option LocalIndexItem :=
  i ← field "id" v ≫= as_string;
  e ← field "embedding" v ≫= as_array as_number;
  m ← field "metadata" v ≫= as_metadata;
  Some {| id := i; embedding := e; metadata := m |}.

Definition as_LocalIndex (v : json) : option LocalIndex :=
  model ← field "embeddingModel" v ≫= as_string;
  dim ← field "dimension" v ≫= as_number;
  created ← field "createdAt" v ≫= as_string;
  its ← field "items" v ≫= as_array as_item;
  Some {| embeddingModel := model; dimension := dim;
          createdAt := created; items := its |}.

(** A number that [JSON.stringify] writes and [JSON.parse] reads back
    unchanged: finite, and not the negative zero. *)
Definition json_safe (x : float) : bool :=
  match classify x with
  | NaN | PInf | NInf | NZero => false
  | _ => true
  end.

Definition item_json_safe (item : LocalIndexItem) : bool :=
  forallb json_safe (embedding item) && json_safe (chunk (metadata item)).

Definition index_json_safe (index : LocalIndex) : bool :=
  json_safe (dimension index) && forallb item_json_safe (items index).

(** ** The index store ([src/utils/local-rag.ts], lines 21 and 63-72) *)

(** Files by path (relative to [process.cwd()]) and the directories that
    exist.  Permission and device errors are left out.  A path that
    [directories] lists is a directory to go through; a path with a
    content in [files] is a regular file to read, and its directories need
    not be listed.  The steps of a write are those of a write that
    succeeds, see [can_save]. *)
Record filesystem : Type := {
  files : gmap jsstring file_text;
  directories : gset jsstring
}.

Definition LOCAL_INDEX_PATH : jsstring := lit "data/local-index.json".

(** [path.dirname(LOCAL_INDEX_PATH)] *)
Definition LOCAL_INDEX_FOLDER : jsstring := lit "data".

(** The steps, each atomic, that the calls of [node:fs/promises] take on the
    file system.  [fs.writeFile(path, data)] opens [path] with flag ['w']
    (the file is created or truncated) and then writes [data] to it, in one
    call of [write] or in several. *)
Inductive fs_step : Type :=
| Mkdir_recursive (dir : jsstring)
| Open_truncating (path : jsstring)
| Write_data (path : jsstring) (data : file_text).

Definition fs_exec (fs : filesystem) (op : fs_step) : filesystem :=
  match op with
  | Mkdir_recursive dir =>
      {| files := files fs; directories := {[dir]} ∪ directories fs |}
  | Open_truncating path =>
      {| files := <[path := Malformed []]> (files fs);
         directories := directories fs |}
  | Write_data path data =>
      {| files := <[path := data]> (files fs);
         directories := directories fs |}
  end.

Definition fs_run (steps : list fs_step) (fs : filesystem) : filesystem :=
  fold_left fs_exec steps fs.

(** Every state of the file system that another process can see while
    [steps] run: the one before, the one after each step. *)
Fixpoint fs_trace (steps : list fs_step) (fs : filesystem) : list filesystem :=
  fs :: match steps with
        | [] => []
        | op :: rest => fs_trace rest (fs_exec fs op)
        end.

(** [fs.writeFile(path, data)].  [parts] is what the file holds after each
    call of [write] but the last: how many calls there are and where they
    cut the text is the platform's choice.  Each part is a beginning of
    the text and not the whole of it; of the text of a JSON object no such
    part is a JSON text, so a part is [Malformed]. *)
Definition writeFile_steps (path : jsstring) (data : file_text)
    (parts : list jsstring) : list fs_step :=
  Open_truncating path
  :: List.map (fun part => Write_data path (Malformed part)) parts
  ++ [Write_data path data].

(** The directories a path goes through: what stands before each of its
    slashes. *)
Fixpoint parents_from (before rest : jsstring) : list jsstring :=
  match rest with
  | [] => []
  | c :: r =>
      (if (c =? 47)%N then [before] else []) ++ parents_from (before ++ [c]) r
  end.

Definition parents (path : jsstring) : list jsstring := parents_from [] path.

(** [dir] is a regular file, where a directory is needed. *)
Definition not_a_directory (fs : filesystem) (dir : jsstring) : bool :=
  negb (bool_decide (dir ∈ directories fs))
  && bool_decide (is_Some (files fs !! dir)).

(** [fs.readFile(path, 'utf8')]: [ENOTDIR] when the path goes through a
    regular file, [EISDIR] when it is a directory, [ENOENT] when nothing is
    there. *)
Definition readFile (fs : filesystem) (path : jsstring) : result file_text :=
  if existsb (not_a_directory fs) (parents path)
  then Err (SystemError "ENOTDIR")
  else
    match files fs !! path with
    | Some content => Ok content
    | None =>
        if bool_decide (path ∈ directories fs)
        then Err (SystemError "EISDIR")
        else Err (SystemError "ENOENT")
    end.

(** [JSON.parse(content) as LocalIndex]: the cast checks nothing, the
    result is whatever value the text denotes. *)
Definition readLocalIndex (fs : filesystem) : result json :=
  match readFile fs LOCAL_INDEX_PATH with
  | Ok content => JSON_parse content
  | Err e => Err e
  end.

Definition writeLocalIndex_steps (index : LocalIndex) (parts : list jsstring)
    : list fs_step :=
  Mkdir_recursive LOCAL_INDEX_FOLDER
  :: writeFile_steps LOCAL_INDEX_PATH (JSON_stringify (index_value index)) parts.

(** The file system when [writeLocalIndex] has returned.  It is the same
    whatever the parts of the write were ([writeLocalIndex_returns]). *)
Definition writeLocalIndex (index : LocalIndex) (fs : filesystem) : filesystem :=
  fs_run (writeLocalIndex_steps index []) fs.

(** Where a save succeeds: [fs.mkdir] fails when [data] is a regular file,
    and [fs.writeFile] when the path of the artifact is a directory. *)
Definition can_save (fs : filesystem) : Prop :=
  not_a_directory fs LOCAL_INDEX_FOLDER = false
  /\ (LOCAL_INDEX_PATH ∈ directories fs ->
      is_Some (files fs !! LOCAL_INDEX_PATH)).

(** ** The embedding service *)

(** [process.env] as both programs read it. *)
Record ollama_config : Type := {
  OLLAMA_BASE_URL : jsstring;
  OLLAMA_EMBED_MODEL : jsstring
}.

(** The body of a response of the type the code names,
    [{ embeddings?: number[][]; embedding?: number[] }].  The ingestion is
    modelled for a service whose answers have this type; what [embedText]
    does with an answer of any shape is [embedText_unchecked], below. *)
Record embed_data : Type := {
  data_embeddings : option (list vector);
  data_embedding : option vector
}.

(** What [fetch] gives: it throws ([message] is [error.message] when the
    error is an [Error]), or a response arrives, with [response.ok],
    [response.status], [response.text()] and [response.json()] ([None] when
    the body is not JSON and [json()] throws). *)
Inductive fetch_result : Type :=
| Rejected (message : option jsstring)
| Responded (ok : bool) (status : Z) (body : jsstring) (parsed : option embed_data).

Definition connection_message (cfg : ollama_config) (message : option jsstring)
    : jsstring :=
  lit "Could not connect to Ollama at " ++ OLLAMA_BASE_URL cfg
  ++ lit ". Start Ollama and ensure the URL is correct"
  ++ match message with Some m => lit ": " ++ m | None => [] end.

(** [if (Array.isArray(data.embeddings) && data.embeddings[0])
      return data.embeddings[0];
    if (Array.isArray(data.embedding)) return data.embedding;] of
    [embedText], on a body of the type: an array is truthy. *)
Definition extract_embedding (data : embed_data) : option vector :=
  match data_embeddings data with
  | Some (first :: _) => Some first
  | _ => data_embedding data
  end.

(** ** Ingestion (ingestion script, lines 6-10 and 34-158) *)

Definition DOCS_DIR : jsstring := lit "docs".
Definition CHUNK_SIZE : Z := 1000.
Definition CHUNK_OVERLAP : Z := 200.

(** [Number(n)] for a count or a position. *)
Definition number_of_nat (n : nat) : float :=
  SF2Prim (binary_normalize prec emax (Z.of_nat n) 0 false).

Definition embedText (cfg : ollama_config) (net : fetch_result) : result vector :=
  match net with
  | Rejected message => Err (Error_ (connection_message cfg message))
  | Responded false status details _ =>
      Err (Error_ (lit "Ollama embedding failed (" ++ decimal status
                   ++ lit "): " ++ js_slice details 0 300))
  | Responded true _ _ None => Err SyntaxError
  | Responded true _ _ (Some data) =>
      match extract_embedding data with
      | Some embedding => Ok embedding
      | None =>
          Err (Error_ (lit "Ollama embedding response did not include an embedding vector"))
      end
  end.

(** What reading and parsing one PDF file gives: [fs.readFile] throws, the
    parser throws, or the parser returns an object whose [text] may be
    missing. *)
Inductive document : Type :=
| Unreadable (e : error)
| Unparsable (e : error)
| Parsed (text : option jsstring).

(** The world an ingestion run meets. *)
Record ingest_env : Type := {
  config : ollama_config;
  pdfFiles : list (jsstring * document);
    (** [findPdfFiles(DOCS_DIR)]: the paths found, each with its file *)
  parser_fails : option (option jsstring);
    (** [None] when [pdf-parse] loads; otherwise the import threw, with
        [error.message] when the error is an [Error] *)
  embed_service : jsstring -> nat -> jsstring -> fetch_result;
    (** the answer to the request for chunk [chunkIndex] of [source] *)
  sha1_hex : jsstring -> jsstring;
    (** [createHash('sha1').update(s).digest('hex')] *)
  path_relative : jsstring -> jsstring;
    (** [path.relative(process.cwd(), file)] *)
  now : jsstring
    (** [new Date().toISOString()] *)
}.

Definition vectorId (env : ingest_env) (source : jsstring) (chunkIndex : nat)
    : jsstring :=
  sha1_hex env (source ++ lit ":" ++ decimal (Z.of_nat chunkIndex)).

(** The inner loop of [run]: one request per chunk, in order; the first
    failure ends the run. *)
Fixpoint embed_chunks (env : ingest_env) (source : jsstring) (chunkIndex : nat)
    (chunks : list jsstring) (items : list LocalIndexItem)
    : result (list LocalIndexItem) :=
  match chunks with
  | [] => Ok items
  | text :: rest =>
      match embedText (config env) (embed_service env source chunkIndex text) with
      | Err e => Err e
      | Ok embedding =>
          embed_chunks env source (S chunkIndex) rest
            (items ++ [ {| id := vectorId env source chunkIndex;
                           embedding := embedding;
                           metadata := {| text := text;
                                          source := source;
                                          chunk := number_of_nat chunkIndex |} |} ])
      end
  end.

(** The outer loop of [run].  [None]: the chunker did not come back. *)
Fixpoint ingest_files (env : ingest_env) (todo : list (jsstring * document))
    (items : list LocalIndexItem) : option (result (list LocalIndexItem)) :=
  match todo with
  | [] => Some (Ok items)
  | (file, doc) :: rest =>
      match doc with
      | Unreadable e => Some (Err e)
      | Unparsable e => Some (Err e)
      | Parsed parsed_text =>
          let source :=
            match path_relative env file with [] => file | rel => rel end in
          match splitText (default [] parsed_text) CHUNK_SIZE CHUNK_OVERLAP with
          | None => None
          | Some chunks =>
              match embed_chunks env source 0 chunks items with
              | Err e => Some (Err e)
              | Ok items' => ingest_files env rest items'
              end
          end
      end
  end.

Definition run (env : ingest_env) (fs : filesystem)
    : option (result unit * filesystem) :=
  let fs := fs_exec fs (Mkdir_recursive DOCS_DIR) in
  match pdfFiles env with
  | [] =>
      Some (Err (Error_ (lit "No PDF files found in " ++ [34%N] ++ DOCS_DIR
                         ++ [34%N]
                         ++ lit ". Add one or more PDF files and run "
                         ++ [34%N] ++ lit "npm run ingest" ++ [34%N]
                         ++ lit " again.")),
            fs)
  | _ :: _ =>
      match parser_fails env with
      | Some message =>
          Some (Err (Error_
                  (lit "Failed to load pdf-parse"
                   ++ match message with Some m => lit ": " ++ m | None => [] end)),
                fs)
      | None =>
          match ingest_files env (pdfFiles env) [] with
          | None => None
          | Some (Err e) => Some (Err e, fs)
          | Some (Ok []) =>
              Some (Err (Error_
                      (lit "No text chunks were extracted from the provided PDF files")),
                    fs)
          | Some (Ok (first :: others)) =>
              let items := first :: others in
              Some (Ok tt,
                    writeLocalIndex
                      {| embeddingModel := OLLAMA_EMBED_MODEL (config env);
                         dimension := number_of_nat (length (embedding first));
                         createdAt := now env;
                         items := items |} fs)
          end
      end
  end.

(** The failures of [run] that say the corpus is empty: no PDF file was
    found, or the files found gave no chunk. *)
Definition EmptyCorpus (e : error) : Prop :=
  e = Error_ (lit "No PDF files found in " ++ [34%N] ++ DOCS_DIR ++ [34%N]
              ++ lit ". Add one or more PDF files and run "
              ++ [34%N] ++ lit "npm run ingest" ++ [34%N] ++ lit " again.")
  \/ e = Error_ (lit "No text chunks were extracted from the provided PDF files").

(** ** The order of binary64 numbers *)

(** A number that is not [NaN], as an integer: its value in units of the
    smallest positive number, [2 ^ -1074]; the infinities lie just outside
    the finite range.  The order of floats is the order of these integers
    ([SFcompare_key] below). *)
Definition SFkey (x : spec_float) : Z :=
  match x with
  | S754_zero _ => 0
  | S754_nan => 0
  | S754_infinity s => cond_Zopp s (2 ^ 2098)
  | S754_finite s m e => cond_Zopp s (Zpos m * 2 ^ (e + 1074))
  end.

Definition float_key (x : float) : Z := SFkey (Prim2SF x).

(** The result of a rounding has the sign of what was rounded, and is not
    a zero. *)
Definition has_sign (s : bool) (x : spec_float) : Prop :=
  match x with
  | S754_finite s' _ _ | S754_infinity s' => s' = s
  | _ => False
  end.

(** ** Ranking, stated

    [order] ranks the records [its] for the query: every position of
    [order] is a position of [its], and of two positions of [order] the
    earlier one has the greater or equal score, and the smaller position
    when the scores are equal. *)
Definition ranks (queryEmbedding : vector) (its : list LocalIndexItem)
    (order : list nat) : Prop :=
  StronglySorted
    (fun i j =>
       exists a b, its !! i = Some a /\ its !! j = Some b
         /\ (score_of queryEmbedding b <=? score_of queryEmbedding a)%float = true
         /\ ((score_of queryEmbedding a =? score_of queryEmbedding b)%float = true
             -> (i < j)%nat))
    order.

(** The elements of a list, each with its position, from position [i]. *)
Fixpoint tag_from {A : Type} (i : nat) (l : list A) : list (nat * A) :=
  match l with
  | [] => []
  | x :: r => (i, x) :: tag_from (S i) r
  end.

(** ** Scenarios

    The index of the specification's ranking scenario (its third record
    scaled to whole numbers), and an index with a record whose squares
    overflow. *)
Definition sample_item (name : string) (v : vector) (n : nat) : LocalIndexItem :=
  {| id := lit name;
     embedding := v;
     metadata := {| text := lit name;
                    source := lit "docs/a.pdf";
                    chunk := number_of_nat n |} |}.

Definition scenario_index : LocalIndex :=
  {| embeddingModel := lit "nomic-embed-text";
     dimension := 2%float;
     createdAt := lit "2024-01-01T00:00:00.000Z";
     items := [ sample_item "first" [1; 0]%float 0;
                sample_item "second" [0; 1]%float 1;
                sample_item "third" [9; 1]%float 2 ] |}.

Definition overflow_index : LocalIndex :=
  {| embeddingModel := lit "nomic-embed-text";
     dimension := 2%float;
     createdAt := lit "2024-01-01T00:00:00.000Z";
     items := [ sample_item "low" [-1; 0]%float 0;
                sample_item "huge" [0x1p1023; 0x1p1023]%float 1;
                sample_item "high" [1; 1]%float 2 ] |}.

(** ** The chunker, stated

    The fragments are the windows of the text: fragment [i] is the slice
    of length [chunkSize] (less at the end of the text) that starts at
    [i * (chunkSize - overlap)]. *)
Definition windows (normalized : jsstring) (chunkSize overlap : Z)
    (chunks : list jsstring) : Prop :=
  forall (i : nat) (c : jsstring),
    chunks !! i = Some c ->
    c = js_slice normalized (Z.of_nat i * (chunkSize - overlap))
                 (Z.of_nat i * (chunkSize - overlap) + chunkSize).

(** What the specification asks of the fragments of a text: each has
    between one and [chunkSize] code units; each but the last has exactly
    [chunkSize]; put together again they are the text; they are its
    windows. *)
Definition covers (normalized : jsstring) (chunkSize overlap : Z)
    (chunks : list jsstring) : Prop :=
  Forall (fun c => (1 <= Z.of_nat (length c) <= chunkSize)%Z) chunks
  /\ (forall (i : nat) (c : jsstring),
        (S i < length chunks)%nat -> chunks !! i = Some c ->
        Z.of_nat (length c) = chunkSize)
  /\ reassemble overlap chunks = normalized
  /\ windows normalized chunkSize overlap chunks.

(** ** The whitespace-normalized text, stated

    What the specification calls the whitespace-normalized text, written
    without the operations of the code: the words of the text, one space
    between them. *)

(** The code units that are white space or line terminators of ECMAScript:
    TAB, LF, VT, FF, CR, the space, the no-break space, the other space
    separators of Unicode, the line and paragraph separators, and the byte
    order mark. *)
Definition whitespace_code_units : list N :=
  [9; 10; 11; 12; 13; 32; 160; 5760;
   8192; 8193; 8194; 8195; 8196; 8197; 8198; 8199; 8200; 8201; 8202;
   8232; 8233; 8239; 8287; 12288; 65279]%N.

Definition blank (c : N) : bool := existsb (N.eqb c) whitespace_code_units.

(** The words of [s]: its longest runs of code units that are not blank.
    [word] is the word that the code units before [s] have begun. *)
Fixpoint words_from (word s : jsstring) : list jsstring :=
  match s with
  | [] => match word with [] => [] | _ => [word] end
  | c :: r =>
      if blank c
      then match word with
           | [] => words_from [] r
           | _ => word :: words_from [] r
           end
      else words_from (word ++ [c]) r
  end.

Definition words (s : jsstring) : list jsstring := words_from [] s.

Fixpoint unwords (ws : list jsstring) : jsstring :=
  match ws with
  | [] => []
  | [w] => w
  | w :: rest => w ++ 32%N :: unwords rest
  end.

Definition whitespace_normalized (text : jsstring) : jsstring :=
  unwords (words text).

(** The overlap clamped to the range from 0 to [chunkSize - 1]: the number
    itself when it is in the range, or else the end of the range on its
    side. *)
Definition clamped (chunkOverlap chunkSize : Z) : Z :=
  if (chunkOverlap <? 0)%Z then 0%Z
  else if (chunkSize <=? chunkOverlap)%Z then (chunkSize - 1)%Z
  else chunkOverlap.

Definition empty_fs : filesystem := {| files := ∅; directories := ∅ |}.

(** An index with a negative zero in an embedding, as an embedding service
    may send it ([-0.0] is a number of JSON), and the same index with the
    positive zero. *)
Definition negative_zero_index : LocalIndex :=
  {| embeddingModel := lit "nomic-embed-text";
     dimension := 2%float;
     createdAt := lit "2024-01-01T00:00:00.000Z";
     items := [ sample_item "first" [(-0); 1]%float 0 ] |}.

Definition positive_zero_index : LocalIndex :=
  {| embeddingModel := lit "nomic-embed-text";
     dimension := 2%float;
     createdAt := lit "2024-01-01T00:00:00.000Z";
     items := [ sample_item "first" [0; 1]%float 0 ] |}.

(** A file system whose artifact is the JSON text [{}]. *)
Definition braces_fs : filesystem :=
  {| files := {[ LOCAL_INDEX_PATH := Rendered (JObj []) ]}; directories := ∅ |}.

(** A file system where [data] is a regular file. *)
Definition folder_is_file_fs : filesystem :=
  {| files := {[ LOCAL_INDEX_FOLDER := Malformed (lit "notes") ]};
     directories := ∅ |}.

(** Decide the comparisons of property names of a goal. *)
Ltac eval_keys :=
  repeat match goal with
         | |- context [jsstring_eqb (lit ?a) (lit ?b)] =>
             let r := eval vm_compute in (jsstring_eqb (lit a) (lit b)) in
             change (jsstring_eqb (lit a) (lit b)) with r
         end.

(** Two worlds for an ingestion run: a [docs] directory with no PDF file,
    and one whose only PDF file has blank text.  Neither run computes an id
    or sends a request; the hash and the service are placeholders. *)
Definition empty_docs_env : ingest_env :=
  {| config := {| OLLAMA_BASE_URL := lit "http://127.0.0.1:11434";
                  OLLAMA_EMBED_MODEL := lit "nomic-embed-text" |};
     pdfFiles := [];
     parser_fails := None;
     embed_service := fun _ _ _ => Rejected None;
     sha1_hex := fun s => s;
     path_relative := fun p => p;
     now := lit "2024-01-01T00:00:00.000Z" |}.



(** Name the powers of two of a goal, so that linear arithmetic sees them
    as unknowns. *)
Ltac gen_pow :=
  repeat match goal with
         | |- context [Z.pow 2 ?e] =>
             let p := fresh "p" in set (p := Z.pow 2 e) in *; clearbody p
         | H : context [Z.pow 2 ?e] |- _ =>
             let p := fresh "p" in set (p := Z.pow 2 e) in *; clearbody p
         end.

(** ** The chunker, the search and the store, stated further *)

(** The only whitespace of [s] is the space, and no space follows
    whitespace; [prev] tells that the code unit before [s] is whitespace. *)
Fixpoint single_spaced (prev : bool) (s : jsstring) : bool :=
  match s with
  | [] => true
  | c :: r =>
      if is_whitespace c
      then negb prev && (c =? 32)%N && single_spaced true r
      else single_spaced false r
  end.

(** How many elements [slice(0, k)] keeps of [n]. *)
Definition slice_count (n : nat) (k : Z) : nat :=
  Z.to_nat (if (k <? 0)%Z then Z.max (Z.of_nat n + k) 0 else Z.min k (Z.of_nat n)).

(** A number that is neither [NaN] nor an infinity. *)
Definition finite (x : float) : bool :=
  match classify x with
  | NaN | PInf | NInf => false
  | _ => true
  end.

Definition item_finite (item : LocalIndexItem) : bool :=
  forallb finite (embedding item) && finite (chunk (metadata item)).

Definition index_finite (index : LocalIndex) : bool :=
  finite (dimension index) && forallb item_finite (items index).

(** Two numbers that [===] does not tell apart and that are not [NaN]:
    the same number, or the two zeros. *)
Definition same_number (x y : float) : Prop := (x =? y)%float = true.

Definition same_item (a b : LocalIndexItem) : Prop :=
  id a = id b
  /\ text (metadata a) = text (metadata b)
  /\ source (metadata a) = source (metadata b)
  /\ same_number (chunk (metadata a)) (chunk (metadata b))
  /\ Forall2 same_number (embedding a) (embedding b).

(** ** Ingestion, stated *)

(** [path.relative(process.cwd(), file) || file] *)
Definition source_of (env : ingest_env) (file : jsstring) : jsstring :=
  match path_relative env file with [] => file | rel => rel end.

(** The record [run] builds for chunk [k] of a source. *)
Definition item_of (env : ingest_env) (src : jsstring) (k : nat)
    (chunk_text : jsstring) (e : vector) : LocalIndexItem :=
  {| id := vectorId env src k;
     embedding := e;
     metadata := {| text := chunk_text; source := src; chunk := number_of_nat k |} |}.

(** The fragments of a document, when it is read and parsed. *)
Definition fragments_of (doc : document) : list jsstring :=
  match doc with
  | Parsed t => default [] (splitText (default [] t) CHUNK_SIZE CHUNK_OVERLAP)
  | _ => []
  end.

(** [item] is the record of fragment [k] of one of the documents [docs],
    with the vector the service answered for it. *)
Definition ingested (env : ingest_env) (docs : list (jsstring * document))
    (item : LocalIndexItem) : Prop :=
  exists file doc k,
    In (file, doc) docs
    /\ fragments_of doc !! k = Some (text (metadata item))
    /\ item = item_of env (source_of env file) k (text (metadata item)) (embedding item)
    /\ embedText (config env)
         (embed_service env (source_of env file) k (text (metadata item)))
       = Ok (embedding item).

(** The source and the position of every fragment of the documents, in the
    order [run] meets them. *)
Definition fragment_keys (env : ingest_env) (docs : list (jsstring * document))
    : list (jsstring * nat) :=
  flat_map (fun fd => List.map (fun k => (source_of env (fst fd), k))
                        (seq 0 (length (fragments_of (snd fd)))))
           docs.

(** The text [vectorId] hashes for a fragment. *)
Definition id_text (key : jsstring * nat) : jsstring :=
  fst key ++ lit ":" ++ decimal (Z.of_nat (snd key)).

(** A run over one document of two words. *)
Definition one_doc_env : ingest_env :=
  {| config := config empty_docs_env;
     pdfFiles := [ (lit "docs/a.pdf", Parsed (Some (lit " hello  world "))) ];
     parser_fails := None;
     embed_service := fun _ _ _ =>
       Responded true 200 []
         (Some {| data_embeddings := Some [[1; 0]%float]; data_embedding := None |});
     sha1_hex := fun s => s;
     path_relative := fun p => p;
     now := lit "2024-01-01T00:00:00.000Z" |}.

Definition one_doc_index : LocalIndex :=
  {| embeddingModel := lit "nomic-embed-text";
     dimension := 2%float;
     createdAt := lit "2024-01-01T00:00:00.000Z";
     items := [ item_of one_doc_env (lit "docs/a.pdf") 0 (lit "hello world") [1; 0]%float ] |}.

(** A run over two documents: one of 1500 code units, which gives two
    fragments, and one of two words. *)
Definition two_docs_env : ingest_env :=
  {| config := config empty_docs_env;
     pdfFiles := [ (lit "docs/a.pdf", Parsed (Some (repeat 97%N 1500)));
                   (lit "docs/b.pdf", Parsed (Some (lit " hello  world "))) ];
     parser_fails := None;
     embed_service := fun _ _ _ =>
       Responded true 200 []
         (Some {| data_embeddings := Some [[1; 0]%float]; data_embedding := None |});
     sha1_hex := fun s => s;
     path_relative := fun p => p;
     now := lit "2024-01-01T00:00:00.000Z" |}.

Definition two_docs_index : LocalIndex :=
  {| embeddingModel := lit "nomic-embed-text";
     dimension := 2%float;
     createdAt := lit "2024-01-01T00:00:00.000Z";
     items :=
       [ item_of two_docs_env (lit "docs/a.pdf") 0 (repeat 97%N 1000) [1; 0]%float;
         item_of two_docs_env (lit "docs/a.pdf") 1 (repeat 97%N 700) [1; 0]%float;
         item_of two_docs_env (lit "docs/b.pdf") 0 (lit "hello world") [1; 0]%float ] |}.

(** ** Values that no type was checked against

    [response.json()], [JSON.parse(content)] and [req.body] give values
    that the code casts to a type without a check.  Such a value is a
    [json]; [undefined], which reading a property that is not there gives,
    is [None]. *)

(** [r] and then [k], unless [r] has thrown. *)
Definition and_then {A B : Type} (r : result A) (k : A -> result B) : result B :=
  match r with
  | Ok a => k a
  | Err e => Err e
  end.

Notation "'let*' x ':=' r 'in' k" := (and_then r (fun x => k))
  (at level 10, x name, r at level 100, k at level 200).

(** [!!v] *)
Definition truthy (v : json) : bool :=
  match v with
  | JNull => false
  | JBool b => b
  | JNum x => negb (falsy x)
  | JStr [] => false
  | JStr (_ :: _) => true
  | JArr _ | JObj _ => true
  end.

(** [v.name], for the names the code reads: [embeddings], [embedding],
    [items], [metadata], [text], [source], [chunk], [message], [content],
    [question], [history] and [length].  No prototype defines one of them,
    [length] of arrays and strings apart.  Reading a property of [null] or
    of [undefined] throws.  (An object has one member of a name.) *)
Definition read (name : string) (v : option json) : result (option json) :=
  match v with
  | None | Some JNull => Err TypeError
  | Some (JObj members) => Ok (assoc (lit name) members)
  | Some (JArr elements) =>
      Ok (if String.eqb name "length"
          then Some (JNum (number_of_nat (length elements))) else None)
  | Some (JStr s) =>
      Ok (if String.eqb name "length"
          then Some (JNum (number_of_nat (length s))) else None)
  | Some (JNum _) | Some (JBool _) => Ok None
  end.

(** What [fetch] gives: it throws, or a response arrives, with
    [response.ok], [response.status], [response.text()] and
    [response.json()], the value that the body denotes ([None] when the
    body is no JSON text and [json()] throws). *)
Inductive fetched : Type :=
| Refused (message : option jsstring)
| Answered (ok : bool) (status : Z) (body : jsstring) (parsed : option json).

(** ** [embedQuery] and its cache ([src/pages/api/chat.ts], lines 27-76) *)

(** [Array.isArray(data.embeddings) && data.embeddings[0]
      ? data.embeddings[0] : data.embedding] *)
Definition query_embedding (data : json) : result (option json) :=
  let* embeddings := read "embeddings" (Some data) in
  match embeddings with
  | Some (JArr (first :: _)) =>
      if truthy first then Ok (Some first) else read "embedding" (Some data)
  | _ => read "embedding" (Some data)
  end.

(** The request of [embedQuery], from [fetch] to the value found: nothing
    checks that this value is an array of numbers. *)
Definition request_embedding (cfg : ollama_config) (net : fetched) : result json :=
  match net with
  | Refused message => Err (ApiError (connection_message cfg message) 503)
  | Answered false status details _ =>
      Err (ApiError (lit "Failed to create embedding (" ++ decimal status
                     ++ lit "): " ++ js_slice details 0 300) status)
  | Answered true _ _ None => Err SyntaxError
  | Answered true _ _ (Some data) =>
      let* embedding := query_embedding data in
      match embedding with
      | Some found =>
          if truthy found then Ok found
          else Err (ApiError
                      (lit "Ollama embedding response did not include an embedding vector")
                      500)
      | None =>
          Err (ApiError
                 (lit "Ollama embedding response did not include an embedding vector")
                 500)
      end
  end.

(** The module-level [embeddingCache] is the state: [embedQuery] takes the
    cache it finds and returns the cache it leaves.  [net] is what [fetch]
    gives if it is called.  The cache is typed [Map<string, number[]>] and
    holds what was put into it. *)
Definition embedQuery (cfg : ollama_config) (input : jsstring)
    (net : fetched) (embeddingCache : gmap jsstring json)
    : result json * gmap jsstring json :=
  let requested :=
    match request_embedding cfg net with
    | Ok embedding => (Ok embedding, <[input := embedding]> embeddingCache)
    | Err e => (Err e, embeddingCache)
    end in
  match embeddingCache !! input with
  | Some cached => if truthy cached then (Ok cached, embeddingCache) else requested
  | None => requested
  end.

(** [embedText] of the ingestion script (lines 69-107) on an answer of any
    shape: the first of [embeddings] when it is truthy, or else [embedding]
    when it is an array. *)
Definition text_embedding (data : json) : result (option json) :=
  let* embeddings := read "embeddings" (Some data) in
  let second :=
    let* embedding := read "embedding" (Some data) in
    match embedding with
    | Some (JArr elements) => Ok (Some (JArr elements))
    | _ => Ok None
    end in
  match embeddings with
  | Some (JArr (first :: _)) => if truthy first then Ok (Some first) else second
  | _ => second
  end.

Definition embedText_unchecked (cfg : ollama_config) (net : fetched) : result json :=
  match net with
  | Refused message => Err (Error_ (connection_message cfg message))
  | Answered false status details _ =>
      Err (Error_ (lit "Ollama embedding failed (" ++ decimal status
                   ++ lit "): " ++ js_slice details 0 300))
  | Answered true _ _ None => Err SyntaxError
  | Answered true _ _ (Some data) =>
      let* embedding := text_embedding data in
      match embedding with
      | Some found => Ok found
      | None =>
          Err (Error_ (lit "Ollama embedding response did not include an embedding vector"))
      end
  end.

(** The value that a body of the type the code names denotes, and the
    answer with it. *)
Definition embed_data_value (data : embed_data) : json :=
  JObj (match data_embeddings data with
        | Some vectors =>
            [(lit "embeddings",
              JArr (List.map (fun v => JArr (List.map JNum v)) vectors))]
        | None => []
        end
        ++ match data_embedding data with
           | Some v => [(lit "embedding", JArr (List.map JNum v))]
           | None => []
           end).

Definition fetched_of (net : fetch_result) : fetched :=
  match net with
  | Rejected message => Refused message
  | Responded ok status body parsed =>
      Answered ok status body (option_map embed_data_value parsed)
  end.

(** A service that sends a number where a vector is due. *)
Definition number_for_vector : fetched :=
  Answered true 200 [] (Some (JObj [(lit "embedding", JNum 5%float)])).

(** ** The chat endpoint ([src/pages/api/chat.ts], lines 4-22 and 78-189) *)

(** The [role] of a message of the chat request. *)
Inductive role : Type := system | user | assistant.

Definition message : Type := (role * jsstring)%type.

Definition systemPrompt : jsstring :=
  lit "You are a helpful AI assistant. Use the provided context to answer the user question."
  ++ [10%N]
  ++ lit "If you do not know, say you do not know. Do not invent facts."
  ++ [10%N]
  ++ lit "If the question is unrelated to the context, say you only answer based on the provided context.".

(** The [messages] of the request of [chatCompletion] for a history of
    the type the code names, [[string, string][]]: the system prompt, two
    messages for each pair of the history, and the question with its
    context.  For a history of any shape they are [messages_sent],
    below. *)
Definition chat_messages (question context : jsstring)
    (history : list (jsstring * jsstring)) : list message :=
  (system, systemPrompt)
  :: flat_map (fun turn => [(user, fst turn); (assistant, snd turn)]) history
  ++ [ (user,
        lit "Context:" ++ [10%N] ++ context ++ [10%N; 10%N]
        ++ lit "Question: " ++ question ++ [10%N; 10%N]
        ++ lit "Helpful answer in markdown:") ].

(** ** The engine on values of any shape

    What the operations of the code do when their operands are not of the
    types the code names, as ECMAScript has it.  What the engine is free
    in, or what is not modelled, is an input: the text of a number, the
    number of a text, and the order in which [sort] leaves an array when
    its comparator is not consistent. *)
Record engine : Type := {
  NumberToString : float -> jsstring;
    (** [String(x)] for a number [x] *)
  StringToNumber : jsstring -> float;
    (** [Number(s)] for a string [s] *)
  sort_inconsistent : list (json * float) -> list (json * float)
    (** what [scored.sort(...)] leaves when a comparison is [NaN] *)
}.

Fixpoint map_results {A B : Type} (f : A -> result B) (l : list A)
    : result (list B) :=
  match l with
  | [] => Ok []
  | a :: rest =>
      let* b := f a in
      let* bs := map_results f rest in
      Ok (b :: bs)
  end.

(** [String(v)].  An array is joined with commas, a [null] element as the
    empty text.  An object of JSON has the text ["[object Object]"],
    unless it has a property [toString] of its own: this is no function,
    and no primitive value is found. *)
Fixpoint ToString (E : engine) (v : json) : result jsstring :=
  match v with
  | JNull => Ok (lit "null")
  | JBool true => Ok (lit "true")
  | JBool false => Ok (lit "false")
  | JNum x => Ok (NumberToString E x)
  | JStr s => Ok s
  | JArr elements =>
      (fix joined (l : list json) : result jsstring :=
         match l with
         | [] => Ok []
         | first :: rest =>
             let* head := match first with
                          | JNull => Ok []
                          | _ => ToString E first
                          end in
             match rest with
             | [] => Ok head
             | _ :: _ => let* tail := joined rest in Ok (head ++ lit "," ++ tail)
             end
         end) elements
  | JObj members =>
      match assoc (lit "toString") members with
      | Some _ => Err TypeError
      | None => Ok (lit "[object Object]")
      end
  end.

(** [Number(v)], the number that arithmetic takes [v] for; [None] is
    [undefined]. *)
Definition ToNumber (E : engine) (v : option json) : result float :=
  match v with
  | None => Ok nan
  | Some JNull => Ok 0%float
  | Some (JBool true) => Ok 1%float
  | Some (JBool false) => Ok 0%float
  | Some (JNum x) => Ok x
  | Some (JStr s) => Ok (StringToNumber E s)
  | Some (JArr elements) =>
      let* s := ToString E (JArr elements) in Ok (StringToNumber E s)
  | Some (JObj members) =>
      let* s := ToString E (JObj members) in Ok (StringToNumber E s)
  end.

(** The code points of a string, as its iterator gives them: a high
    surrogate and the low surrogate behind it are one. *)
Fixpoint code_points (s : jsstring) : list jsstring :=
  match s with
  | [] => []
  | c :: r =>
      match r with
      | d :: r' =>
          if ((55296 <=? c) && (c <=? 56319) && (56320 <=? d) && (d <=? 57343))%N
          then [c; d] :: code_points r'
          else [c] :: code_points r
      | [] => [[c]]
      end
  end.

(** What can be iterated, among the values of JSON: an array, over its
    elements, and a string, over its code points. *)
Inductive sequence : Type :=
| Elements (elements : list json)
| Units (s : jsstring).

(** [v[Symbol.iterator]()], as [for ... of] and a destructuring pattern ask
    for it. *)
Definition iterable (v : option json) : result sequence :=
  match v with
  | Some (JArr elements) => Ok (Elements elements)
  | Some (JStr s) => Ok (Units s)
  | None | Some JNull | Some (JBool _) | Some (JNum _) | Some (JObj _) =>
      Err TypeError
  end.

Definition visited (s : sequence) : list json :=
  match s with
  | Elements elements => elements
  | Units s => List.map JStr (code_points s)
  end.

(** [s.length] and [s[i]]: a string is indexed by code units. *)
Definition seq_length (s : sequence) : nat :=
  match s with
  | Elements elements => length elements
  | Units s => length s
  end.

Definition at_index (s : sequence) (i : nat) : option json :=
  match s with
  | Elements elements => nth_error elements i
  | Units s => option_map (fun c => JStr [c]) (nth_error s i)
  end.

(** ** Similarity and search on values of any shape
    ([src/utils/local-rag.ts], lines 23-61) *)

(** [magnitude]: [for (const value of values)] asks for the iterator, and
    [value * value] for the number of each value. *)
Definition magnitude_unchecked (E : engine) (values : option json) : result float :=
  let* s := iterable values in
  let* total :=
    fold_left (fun total value =>
                 let* sum := total in
                 let* x := ToNumber E (Some value) in
                 Ok (sum + x * x)%float)
              (visited s) (Ok 0%float) in
  Ok (PrimFloat.sqrt total).

(** The loop of [dotProduct], as [dotProduct_loop]. *)
Fixpoint dotProduct_steps (E : engine) (n i : nat) (a b : sequence) (total : float)
    : result float :=
  match n with
  | O => Ok total
  | S n' =>
      let* x := ToNumber E (at_index a i) in
      let* y := ToNumber E (at_index b i) in
      dotProduct_steps E n' (S i) a b (total + x * y)%float
  end.

(** [dotProduct] of what has been iterated: [cosineSimilarity] calls it
    after [magnitude] has returned for both. *)
Definition dotProduct_unchecked (E : engine) (a b : sequence) : result float :=
  dotProduct_steps E (Nat.min (seq_length a) (seq_length b)) 0 a b 0%float.

Definition cosineSimilarity_unchecked (E : engine) (a b : option json)
    : result float :=
  let* magA := magnitude_unchecked E a in
  let* magB := magnitude_unchecked E b in
  if falsy magA || falsy magB then Ok 0%float
  else
    let* sa := iterable a in
    let* sb := iterable b in
    let* dot := dotProduct_unchecked E sa sb in
    Ok (dot / (magA * magB))%float.

(** The callback of [index.items.map(...)]: [{ item, score }]. *)
Definition scored_item (E : engine) (queryEmbedding : json) (item : json)
    : result (json * float) :=
  let* embedding := read "embedding" (Some item) in
  let* score := cosineSimilarity_unchecked E (Some queryEmbedding) embedding in
  Ok (item, score).

(** The comparator [(a, b) => b.score - a.score]. *)
Definition by_score (a b : json * float) : float := (snd b - snd a)%float.

(** The comparator is consistent on an array when no comparison of two of
    its elements is [NaN]; the order of the sorted array is then fixed. *)
Definition comparable (scored : list (json * float)) : bool :=
  forallb (fun a => forallb (fun b => negb (is_nan (by_score a b))) scored) scored.

(** [scored.sort((a, b) => b.score - a.score)] *)
Definition sort_scored (E : engine) (scored : list (json * float))
    : list (json * float) :=
  if comparable scored then js_sort by_score scored
  else sort_inconsistent E scored.

(** [searchLocalIndex] on an artifact and an embedding as they come:
    [index.items.map] is there when [items] is an array. *)
Definition searchLocalIndex_unchecked (E : engine) (index queryEmbedding : json)
    (topK : Z) : result (list json) :=
  let* items := read "items" (Some index) in
  match items with
  | Some (JArr elements) =>
      let* scored := map_results (scored_item E queryEmbedding) elements in
      Ok (List.map fst (js_slice (sort_scored E scored) 0 topK))
  | _ => Err TypeError
  end.

(** ** [chatCompletion] and the [handler] on values of any shape
    ([src/pages/api/chat.ts], lines 78-189) *)

(** A message as [chatCompletion] sends it: its [content] is what the
    history holds there, or a text of the code. *)
Definition sent_message : Type := (role * option json)%type.

(** [([userQuestion, assistantAnswer]) => ...] on an entry of the history:
    the first two values that iterating the entry gives. *)
Definition turn_of (entry : json) : result (option json * option json) :=
  let* s := iterable (Some entry) in
  Ok (nth_error (visited s) 0, nth_error (visited s) 1).

(** [history.forEach(...)] is there when [history] is an array. *)
Definition turns_of (history : json) : result (list (option json * option json)) :=
  match history with
  | JArr entries => map_results turn_of entries
  | JNull | JBool _ | JNum _ | JStr _ | JObj _ => Err TypeError
  end.

Definition messages_sent (question context : jsstring)
    (turns : list (option json * option json)) : list sent_message :=
  (system, Some (JStr systemPrompt))
  :: flat_map (fun turn => [(user, fst turn); (assistant, snd turn)]) turns
  ++ [ (user,
        Some (JStr (lit "Context:" ++ [10%N] ++ context ++ [10%N; 10%N]
                    ++ lit "Question: " ++ question ++ [10%N; 10%N]
                    ++ lit "Helpful answer in markdown:"))) ].

(** [v || otherwise] *)
Definition or_else (v : option json) (otherwise : json) : json :=
  match v with
  | Some found => if truthy found then found else otherwise
  | None => otherwise
  end.

(** [data.message?.content || ''] *)
Definition answer_text (data : json) : result json :=
  let* message := read "message" (Some data) in
  let* content :=
    match message with
    | None | Some JNull => Ok None
    | Some _ => read "content" message
    end in
  Ok (or_else content (JStr [])).

(** The request names the model [OLLAMA_CHAT_MODEL], fixed when the
    process starts: [net] is what [fetch] gives, as a function of the
    messages.  What is returned is typed a string and is what the answer
    holds. *)
Definition chatCompletion (cfg : ollama_config) (question context : jsstring)
    (history : json) (net : list sent_message -> fetched) : result json :=
  let* turns := turns_of history in
  match net (messages_sent question context turns) with
  | Refused message => Err (ApiError (connection_message cfg message) 503)
  | Answered false status details _ =>
      Err (ApiError (lit "Failed to generate answer (" ++ decimal status
                     ++ lit "): " ++ js_slice details 0 300) status)
  | Answered true _ _ None => Err SyntaxError
  | Answered true _ _ (Some data) => answer_text data
  end.

(** [s.replaceAll('\n', ' ')] *)
Definition replace_line_feeds (s : jsstring) : jsstring :=
  List.map (fun c => if (c =? 10)%N then 32%N else c) s.

(** [String(question).trim().replaceAll('\n', ' ')], after
    [String(question)]. *)
Definition sanitize (question : jsstring) : jsstring :=
  replace_line_feeds (trim question).

(** [values.join(sep)]: [undefined] and [null] give the empty text. *)
Fixpoint join_values (E : engine) (sep : jsstring) (values : list (option json))
    : result jsstring :=
  match values with
  | [] => Ok []
  | value :: rest =>
      let* head := match value with
                   | None | Some JNull => Ok []
                   | Some v => ToString E v
                   end in
      match rest with
      | [] => Ok head
      | _ :: _ => let* tail := join_values E sep rest in Ok (head ++ sep ++ tail)
      end
  end.

(** The request as the handler reads it: [req.method], and [req.body] as
    the framework made it of the body sent ([None] is [undefined]). *)
Record request : Type := {
  method : jsstring;
  body : option json
}.

(** A source document of an answer: [pageContent] and, of [metadata],
    [source] and [chunk], each what the record of the index holds there. *)
Record SourceDocument : Type := {
  pageContent : option json;
  document_source : option json;
  document_chunk : option json
}.

(** The callback of [matches.map(...)]; [item.metadata] is read three
    times, and is the same each time. *)
Definition source_document (item : json) : result SourceDocument :=
  let* metadata := read "metadata" (Some item) in
  let* text := read "text" metadata in
  let* source := read "source" metadata in
  let* chunk := read "chunk" metadata in
  Ok {| pageContent := text; document_source := source; document_chunk := chunk |}.

(** What the handler hands to [res.status(...).json(...)]: [{ error }],
    with a text of the code or with the [message] of an error that the
    platform made, [{ message }], or [{ text, sourceDocuments }]. *)
Inductive response_body : Type :=
| ErrorBody (error : jsstring)
| RaisedBody (raised : error)
| MessageBody (message : jsstring)
| ChatBody (text : json) (sourceDocuments : list SourceDocument).

Record response : Type := {
  status : Z;
  payload : response_body
}.

(** The handler answers, or an exception leaves it. *)
Inductive reply : Type :=
| Replied (r : response)
| Unhandled (e : error).

(** The world a request meets: the files, what the embedding service
    answers for an input, what the chat service answers for the messages,
    and the engine. *)
Record chat_world : Type := {
  world_files : filesystem;
  embed_net : jsstring -> fetched;
  chat_net : list sent_message -> fetched;
  world_engine : engine
}.

Definition index_not_found : jsstring :=
  lit "Local index not found. Run `npm run ingest` first.".

(** The [catch] block of the handler. *)
Definition error_response (e : error) : response :=
  match e with
  | SystemError code =>
      if String.eqb code "ENOENT"
      then {| status := 400; payload := ErrorBody index_not_found |}
      else {| status := 500; payload := RaisedBody e |}
  | ApiError message code => {| status := code; payload := ErrorBody message |}
  | Error_ message => {| status := 500; payload := ErrorBody message |}
  | SyntaxError | TypeError => {| status := 500; payload := RaisedBody e |}
  end.

(** The [try] block from [searchLocalIndex] on. *)
Definition answer (cfg : ollama_config) (w : chat_world)
    (sanitizedQuestion : jsstring) (history : option json)
    (index queryEmbedding : json) : result response :=
  let E := world_engine w in
  let* matches := searchLocalIndex_unchecked E index queryEmbedding 4 in
  let* sourceDocuments := map_results source_document matches in
  let* context :=
    join_values E [10%N; 10%N] (List.map pageContent sourceDocuments) in
  let* text :=
    chatCompletion cfg sanitizedQuestion context (or_else history (JArr []))
      (chat_net w) in
  Ok {| status := 200; payload := ChatBody text sourceDocuments |}.

(** The [try] statement, with the cache it finds and the cache it
    leaves. *)
Definition answer_or_error (cfg : ollama_config) (w : chat_world)
    (sanitizedQuestion : jsstring) (history : option json)
    (embeddingCache : gmap jsstring json) : response * gmap jsstring json :=
  match readLocalIndex (world_files w) with
  | Err e => (error_response e, embeddingCache)
  | Ok index =>
      match embedQuery cfg sanitizedQuestion (embed_net w sanitizedQuestion)
              embeddingCache with
      | (Err e, cache') => (error_response e, cache')
      | (Ok queryEmbedding, cache') =>
          (match answer cfg w sanitizedQuestion history index queryEmbedding with
           | Ok r => r
           | Err e => error_response e
           end,
           cache')
      end
  end.

(** [const { question, history } = req.body] *)
Definition question_and_history (req : request)
    : result (option json * option json) :=
  let* question := read "question" (body req) in
  let* history := read "history" (body req) in
  Ok (question, history).

Definition no_question : response :=
  {| status := 400; payload := MessageBody (lit "No question in the request") |}.

(** The handler, with the cache it finds and the cache it leaves.  The
    body is taken apart and the question made a string before the [try]
    statement: an exception there leaves the handler. *)
Definition handler (cfg : ollama_config) (req : request) (w : chat_world)
    (embeddingCache : gmap jsstring json) : reply * gmap jsstring json :=
  match question_and_history req with
  | Err e => (Unhandled e, embeddingCache)
  | Ok (question, history) =>
      if negb (jsstring_eqb (method req) (lit "POST")) then
        (Replied {| status := 405;
                    payload := ErrorBody (lit "Method not allowed") |},
         embeddingCache)
      else
        match question with
        | None => (Replied no_question, embeddingCache)
        | Some asked =>
            if truthy asked then
              match ToString (world_engine w) asked with
              | Err e => (Unhandled e, embeddingCache)
              | Ok text =>
                  let (r, cache') :=
                    answer_or_error cfg w (sanitize text) history embeddingCache in
                  (Replied r, cache')
              end
            else (Replied no_question, embeddingCache)
        end
  end.

(** ** The chat endpoint, stated *)

(** What throws, throws a [TypeError]: so it is for what the engine does
    on values of the wrong type. *)
Definition raises_TypeError {A : Type} (r : result A) : Prop :=
  forall e, r = Err e -> e = TypeError.

(** [code] is the status of a response without a success status of the
    embedding service or of the chat service. *)
Definition passed_on (w : chat_world) (code : Z) : Prop :=
  (exists input details parsed,
     embed_net w input = Answered false code details parsed)
  \/ (exists messages details parsed,
        chat_net w messages = Answered false code details parsed).

(** ** Scenarios of the chat endpoint *)

(** In the scenarios no number is asked for its text, no text for its
    number, and every comparison of two scores has an order: what the
    engine would answer is not asked. *)
Definition scenario_engine : engine :=
  {| NumberToString := fun _ => lit "NaN";
     StringToNumber := fun _ => nan;
     sort_inconsistent := fun scored => scored |}.

Definition scenario_config : ollama_config :=
  {| OLLAMA_BASE_URL := lit "http://127.0.0.1:11434";
     OLLAMA_EMBED_MODEL := lit "nomic-embed-text" |}.

(** An embedding service that answers every input with the same vector, a
    chat service that answers every conversation with the same text, and
    the engine and the files given. *)
Definition world_of (E : engine) (fs : filesystem) : chat_world :=
  {| world_files := fs;
     embed_net := fun _ =>
       Answered true 200 []
         (Some (JObj [(lit "embeddings", JArr [JArr [JNum 1%float; JNum 0%float]])]));
     chat_net := fun _ =>
       Answered true 200 []
         (Some (JObj [(lit "message",
                       JObj [(lit "role", JStr (lit "assistant"));
                             (lit "content", JStr (lit "an answer"))])]));
     world_engine := E |}.

Definition world_on (fs : filesystem) : chat_world := world_of scenario_engine fs.

(** The index of the ranking scenario on disk. *)
Definition scenario_world : chat_world :=
  world_on (writeLocalIndex scenario_index empty_fs).

Definition scenario_request : request :=
  {| method := lit "POST";
     body := Some (JObj [(lit "question", JStr (lit " which one? "))]) |}.

Definition scenario_embedding : json := JArr [JNum 1%float; JNum 0%float].

Definition scenario_document (name : string) (n : nat) : SourceDocument :=
  {| pageContent := Some (JStr (lit name));
     document_source := Some (JStr (lit "docs/a.pdf"));
     document_chunk := Some (JNum (number_of_nat n)) |}.

Definition scenario_response : response :=
  {| status := 200;
     payload := ChatBody (JStr (lit "an answer"))
                  [ scenario_document "first" 0;
                    scenario_document "third" 2;
                    scenario_document "second" 1 ] |}.

(** An artifact that is JSON and has no records. *)
Definition no_items_fs : filesystem :=
  {| files := {[ LOCAL_INDEX_PATH := Rendered (JObj [(lit "items", JArr [])]) ]};
     directories := {[ LOCAL_INDEX_FOLDER ]} |}.

(** The world of the scenario when the embedding service is down. *)
Definition embedding_down_world : chat_world :=
  {| world_files := world_files scenario_world;
     embed_net := fun _ => Refused None;
     chat_net := chat_net scenario_world;
     world_engine := world_engine scenario_world |}.

(* ===================================================================== *)
(** * Part II: properties *)
(* ===================================================================== *)

(** ** Binary64 arithmetic

    Three facts about the numbers of JavaScript, from the specification of
    the primitive floats: the order of numbers that are not [NaN] is the
    order of their keys; a difference [y - x] is above zero exactly when
    [x < y] (subnormal numbers make a difference of distinct numbers
    nonzero); multiplication commutes. *)

Lemma digits2_pos_bounds (m : positive) :
  (2 ^ (Zpos (digits2_pos m) - 1) <= Zpos m < 2 ^ Zpos (digits2_pos m))%Z.
Proof.
  induction m as [m IH | m IH |]; cbn [digits2_pos].
  - rewrite Pos2Z.inj_succ, (Pos2Z.inj_xI m).
    replace (Z.succ (Zpos (digits2_pos m)) - 1)%Z
      with (Z.succ (Zpos (digits2_pos m) - 1))%Z by lia.
    rewrite !Z.pow_succ_r by lia. gen_pow; lia.
  - rewrite Pos2Z.inj_succ, (Pos2Z.inj_xO m).
    replace (Z.succ (Zpos (digits2_pos m)) - 1)%Z
      with (Z.succ (Zpos (digits2_pos m) - 1))%Z by lia.
    rewrite !Z.pow_succ_r by lia. gen_pow; lia.
  - cbn. lia.
Qed.

Lemma bounded_inv m e :
  bounded prec emax m e = true ->
  (Zpos (digits2_pos m) <= 53 /\ -1074 <= e <= 971 /\
   (Zpos (digits2_pos m) = 53 \/ e = -1074))%Z.
Proof.
  unfold bounded, canonical_mantissa, fexp, SpecFloat.emin, prec, emax.
  rewrite andb_true_iff, Z.eqb_eq, Z.leb_le. lia.
Qed.

Lemma finite_key_range m e :
  bounded prec emax m e = true ->
  (0 < Zpos m * 2 ^ (e + 1074) < 2 ^ 2098)%Z.
Proof.
  intros Hb. destruct (bounded_inv _ _ Hb) as (Hd & He & _).
  pose proof (digits2_pos_bounds m) as [_ Hm].
  assert (0 < 2 ^ (e + 1074))%Z by (apply Z.pow_pos_nonneg; lia).
  split; [lia |].
  apply Z.lt_le_trans with (2 ^ 53 * 2 ^ (e + 1074))%Z.
  - apply Z.mul_lt_mono_pos_r; [assumption |].
    apply Z.lt_le_trans with (1 := Hm). apply Z.pow_le_mono_r; lia.
  - rewrite <- Z.pow_add_r by lia. apply Z.pow_le_mono_r; lia.
Qed.

Lemma finite_key_lt m1 e1 m2 e2 :
  bounded prec emax m1 e1 = true -> bounded prec emax m2 e2 = true ->
  (e1 < e2)%Z ->
  (Zpos m1 * 2 ^ (e1 + 1074) < Zpos m2 * 2 ^ (e2 + 1074))%Z.
Proof.
  intros H1 H2 Hlt.
  destruct (bounded_inv _ _ H1) as (Hd1 & He1 & _).
  destruct (bounded_inv _ _ H2) as (Hd2 & He2 & Hc2).
  assert (Hd : Zpos (digits2_pos m2) = 53%Z) by lia.
  pose proof (digits2_pos_bounds m1) as [_ Hm1].
  pose proof (digits2_pos_bounds m2) as [Hm2 _]. rewrite Hd in Hm2.
  assert (0 < 2 ^ (e1 + 1074))%Z by (apply Z.pow_pos_nonneg; lia).
  assert (0 < 2 ^ (e2 + 1074))%Z by (apply Z.pow_pos_nonneg; lia).
  apply Z.lt_le_trans with (2 ^ 53 * 2 ^ (e1 + 1074))%Z.
  - apply Z.mul_lt_mono_pos_r; [assumption |].
    apply Z.lt_le_trans with (1 := Hm1). apply Z.pow_le_mono_r; lia.
  - apply Z.le_trans with (2 ^ (53 - 1) * 2 ^ (e2 + 1074))%Z.
    + rewrite <- !Z.pow_add_r by lia. apply Z.pow_le_mono_r; lia.
    + apply Z.mul_le_mono_nonneg_r; lia.
Qed.

Lemma SFcompare_key (x y : spec_float) :
  valid_binary x = true -> valid_binary y = true ->
  x <> S754_nan -> y <> S754_nan ->
  SFcompare x y = Some (SFkey x ?= SFkey y)%Z.
Proof.
  intros Hx Hy Nx Ny.
  destruct x as [sx | sx | | sx mx ex]; try congruence;
  destruct y as [sy | sy | | sy my ey]; try congruence;
  cbn [valid_binary] in Hx, Hy; cbn [SFcompare SFkey].
  all: try (pose proof (finite_key_range _ _ Hx)).
  all: try (pose proof (finite_key_range _ _ Hy)).
  all: try (destruct sx); try (destruct sy); cbn [cond_Zopp]; f_equal; symmetry.
  all: try reflexivity.
  all: try (apply Z.compare_lt_iff; lia).
  all: try (apply Z.compare_gt_iff; lia).
  - (* both negative *)
    destruct (Z.compare_spec ex ey) as [He | He | He].
    + subst ey. rewrite Z.compare_opp.
      assert (0 < 2 ^ (ex + 1074))%Z by lia.
      rewrite <- Zmult_compare_compat_r by lia.
      change (Pos.compare_cont Eq mx my) with (Pos.compare mx my).
      rewrite <- Pos.compare_antisym. reflexivity.
    + apply Z.compare_gt_iff. pose proof (finite_key_lt _ _ _ _ Hx Hy He). lia.
    + apply Z.compare_lt_iff. pose proof (finite_key_lt _ _ _ _ Hy Hx He). lia.
  - destruct (Z.compare_spec ex ey) as [He | He | He].
    + subst ey.
      assert (0 < 2 ^ (ex + 1074))%Z by lia.
      rewrite <- Zmult_compare_compat_r by lia. reflexivity.
    + apply Z.compare_lt_iff. pose proof (finite_key_lt _ _ _ _ Hx Hy He). lia.
    + apply Z.compare_gt_iff. pose proof (finite_key_lt _ _ _ _ Hy Hx He). lia.
Qed.

Lemma shift_pos_value (d m : positive) :
  Zpos (Pos.iter xO m d) = (Zpos m * 2 ^ Zpos d)%Z.
Proof.
  induction d as [| d IH] using Pos.peano_ind.
  - cbn. lia.
  - rewrite Pos.iter_succ, Pos2Z.inj_succ, Z.pow_succ_r by lia.
    rewrite (Pos2Z.inj_xO (Pos.iter xO m d)), IH. ring.
Qed.

Lemma shl_align_value m e ez :
  (ez <= e)%Z ->
  Zpos (fst (shl_align m e ez)) = (Zpos m * 2 ^ (e - ez))%Z.
Proof.
  intros Hle. unfold shl_align.
  destruct (ez - e)%Z as [| d | d] eqn:E; cbn [fst].
  - replace (e - ez)%Z with 0%Z by lia. cbn. lia.
  - lia.
  - rewrite shift_pos_value. f_equal. f_equal. lia.
Qed.

Lemma shr_1_lower r k :
  (0 <= k)%Z -> (2 * k <= shr_m r)%Z -> (k <= shr_m (shr_1 r))%Z.
Proof.
  destruct r as [m r s]. cbn [shr_m shr_1].
  destruct m as [| p | p]; [| destruct p | destruct p]; cbn [shr_m]; lia.
Qed.

Lemma iter_shr_1_lower p : forall r k,
  (0 <= k)%Z -> (2 ^ Zpos p * k <= shr_m r)%Z ->
  (k <= shr_m (SpecFloat.iter_pos shr_1 p r))%Z.
Proof.
  induction p as [p IH | p IH |]; intros r k Hk Hle; cbn [SpecFloat.iter_pos].
  - assert (HP : (0 < 2 ^ Zpos p)%Z) by (apply Z.pow_pos_nonneg; lia).
    rewrite (Pos2Z.inj_xI p) in Hle.
    replace (2 * Zpos p + 1)%Z with (Zpos p + Zpos p + 1)%Z in Hle by lia.
    rewrite !Z.pow_add_r in Hle by lia. change (2 ^ 1)%Z with 2%Z in Hle.
    apply IH; [assumption |]. apply IH; [nia |].
    apply shr_1_lower; nia.
  - assert (HP : (0 < 2 ^ Zpos p)%Z) by (apply Z.pow_pos_nonneg; lia).
    rewrite (Pos2Z.inj_xO p) in Hle.
    replace (2 * Zpos p)%Z with (Zpos p + Zpos p)%Z in Hle by lia.
    rewrite !Z.pow_add_r in Hle by lia.
    apply IH; [assumption |]. apply IH; nia.
  - apply shr_1_lower; [assumption |]. change (2 ^ 1)%Z with 2%Z in Hle. lia.
Qed.

Lemma shr_m_of_loc m l : shr_m (shr_record_of_loc m l) = m.
Proof. destruct l as [| []]; reflexivity. Qed.

Lemma shr_fexp_lower m e l :
  (0 < m)%Z -> (-1074 <= e)%Z ->
  (0 < shr_m (fst (shr_fexp prec emax m e l)) /\
   -1074 <= snd (shr_fexp prec emax m e l))%Z.
Proof.
  intros Hm He. unfold shr_fexp, shr.
  destruct m as [| p | p]; try lia. cbn [Zdigits2].
  pose proof (digits2_pos_bounds p) as [Hlo _].
  set (d := Zpos (digits2_pos p)) in *.
  destruct (fexp prec emax (d + e) - e)%Z as [| n | n] eqn:E; cbn [fst snd].
  - rewrite shr_m_of_loc. lia.
  - assert (Hn : Zpos n = (d - 53)%Z).
    { unfold fexp, SpecFloat.emin, prec, emax in E. lia. }
    split; [| lia].
    apply Z.lt_le_trans with 1%Z; [lia |].
    apply iter_shr_1_lower; [lia |]. rewrite shr_m_of_loc, Z.mul_1_r.
    apply Z.le_trans with (2 := Hlo). apply Z.pow_le_mono_r; lia.
  - rewrite shr_m_of_loc. lia.
Qed.

Lemma round_nearest_even_pos m l : (0 < m)%Z -> (0 < round_nearest_even m l)%Z.
Proof.
  intros Hm. destruct l as [| []]; cbn [round_nearest_even];
    try destruct (Z.even m); lia.
Qed.

Lemma binary_round_aux_sign s m e l :
  (0 < m)%Z -> (-1074 <= e)%Z ->
  has_sign s (binary_round_aux prec emax s m e l).
Proof.
  intros Hm He. unfold binary_round_aux.
  destruct (shr_fexp_lower m e l Hm He) as [H1 H2].
  destruct (shr_fexp prec emax m e l) as [r1 e1]. cbn [fst snd] in H1, H2.
  pose proof (round_nearest_even_pos _ (loc_of_shr_record r1) H1) as H3.
  destruct (shr_fexp_lower _ e1 loc_Exact H3 H2) as [H4 _].
  destruct (shr_fexp prec emax _ e1 loc_Exact) as [r2 e2]. cbn [fst] in H4.
  destruct (shr_m r2) as [| q | q]; try lia.
  destruct (Z.leb e2 (emax - prec)); reflexivity.
Qed.

Lemma binary_round_sign s m e :
  (-1074 <= e)%Z -> has_sign s (binary_round prec emax s m e).
Proof.
  intros He. unfold binary_round.
  destruct (shl_align m e (fexp prec emax (Zpos (digits2_pos m) + e))) as [mz ez] eqn:E.
  apply binary_round_aux_sign; [lia |].
  unfold shl_align in E.
  destruct (fexp prec emax (Zpos (digits2_pos m) + e) - e)%Z eqn:E';
    inversion E; subst; try lia.
  unfold fexp, SpecFloat.emin, prec, emax. lia.
Qed.

Lemma binary_round_aux_not_above s m e l :
  s = true ->
  SFltb (S754_zero false) (binary_round_aux prec emax s m e l) = false.
Proof.
  intros ->. unfold binary_round_aux.
  destruct (shr_fexp prec emax m e l) as [r1 e1].
  destruct (shr_fexp prec emax _ e1 loc_Exact) as [r2 e2].
  destruct (shr_m r2); [reflexivity | | reflexivity].
  destruct (Z.leb e2 (emax - prec)); reflexivity.
Qed.

Lemma SFsub_finite_above_zero sx mx ex sy my ey :
  bounded prec emax mx ex = true -> bounded prec emax my ey = true ->
  SFltb (S754_zero false)
        (SFsub prec emax (S754_finite sy my ey) (S754_finite sx mx ex)) =
  (cond_Zopp sx (Zpos mx * 2 ^ (ex + 1074)) <?
   cond_Zopp sy (Zpos my * 2 ^ (ey + 1074)))%Z.
Proof.
  intros Hx Hy. cbn [SFsub].
  destruct (bounded_inv _ _ Hx) as (_ & Hex & _).
  destruct (bounded_inv _ _ Hy) as (_ & Hey & _).
  set (ez := Z.min ey ex).
  rewrite (shl_align_value my ey ez), (shl_align_value mx ex ez) by lia.
  set (D := (cond_Zopp sy (Zpos my * 2 ^ (ey - ez)) -
             cond_Zopp sx (Zpos mx * 2 ^ (ex - ez)))%Z).
  assert (HD : (D * 2 ^ (ez + 1074) =
                cond_Zopp sy (Zpos my * 2 ^ (ey + 1074)) -
                cond_Zopp sx (Zpos mx * 2 ^ (ex + 1074)))%Z).
  { replace (ey + 1074)%Z with ((ey - ez) + (ez + 1074))%Z by lia.
    replace (ex + 1074)%Z with ((ex - ez) + (ez + 1074))%Z by lia.
    rewrite (Z.pow_add_r 2 (ey - ez)), (Z.pow_add_r 2 (ex - ez)) by lia.
    subst D. destruct sx, sy; cbn [cond_Zopp]; ring. }
  assert (Hez : (-1074 <= ez)%Z) by (subst ez; lia).
  assert (HP : (0 < 2 ^ (ez + 1074))%Z) by (apply Z.pow_pos_nonneg; lia).
  set (kx := cond_Zopp sx (Zpos mx * 2 ^ (ex + 1074))) in *.
  set (ky := cond_Zopp sy (Zpos my * 2 ^ (ey + 1074))) in *.
  set (P := (2 ^ (ez + 1074))%Z) in *.
  clearbody D ez kx ky P. symmetry.
  destruct D as [| p | p]; cbn [binary_normalize].
  - apply Z.ltb_ge. lia.
  - pose proof (binary_round_sign false p ez Hez) as Hs.
    destruct (binary_round prec emax false p ez); cbn in Hs; try contradiction;
      subst; cbn; apply Z.ltb_lt; nia.
  - unfold binary_round.
    destruct (shl_align p ez _) as [mz ez'].
    rewrite binary_round_aux_not_above by reflexivity.
    apply Z.ltb_ge. nia.
Qed.

Lemma SFsub_above_zero (x y : spec_float) :
  valid_binary x = true -> valid_binary y = true ->
  x <> S754_nan -> y <> S754_nan ->
  SFltb (S754_zero false) (SFsub prec emax y x) = (SFkey x <? SFkey y)%Z.
Proof.
  intros Hx Hy Nx Ny.
  destruct x as [sx | sx | | sx mx ex]; try congruence;
  destruct y as [sy | sy | | sy my ey]; try congruence;
  cbn [valid_binary] in Hx, Hy.
  9: { apply SFsub_finite_above_zero; assumption. }
  all: cbn [SFsub SFkey].
  all: try (pose proof (finite_key_range _ _ Hx)).
  all: try (pose proof (finite_key_range _ _ Hy)).
  all: try (destruct sx); try (destruct sy); cbn [cond_Zopp negb SFltb SFcompare];
    symmetry.
  all: try (apply Z.ltb_lt; lia).
  all: try (apply Z.ltb_ge; lia).
Qed.

Lemma SFcompare_refl (s : spec_float) :
  s <> S754_nan -> SFcompare s s = Some Eq.
Proof.
  intros Hs. destruct s as [b | b | | b m e]; try congruence; cbn [SFcompare].
  - reflexivity.
  - destruct b; reflexivity.
  - rewrite Z.compare_refl.
    change (Pos.compare_cont Eq m m) with (Pos.compare m m).
    rewrite Pos.compare_refl. destruct b; reflexivity.
Qed.

Lemma is_nan_spec (x : float) : is_nan x = true <-> Prim2SF x = S754_nan.
Proof.
  unfold is_nan. rewrite FloatAxioms.eqb_spec. unfold SFeqb. split.
  - intros H. pose proof (SFcompare_refl (Prim2SF x)) as R.
    destruct (Prim2SF x); try reflexivity;
      rewrite R in H by congruence; discriminate.
  - intros ->. reflexivity.
Qed.

Lemma not_nan_spec (x : float) : is_nan x = false -> Prim2SF x <> S754_nan.
Proof.
  intros H E. apply is_nan_spec in E. congruence.
Qed.

Lemma ltb_key (x y : float) :
  is_nan x = false -> is_nan y = false ->
  (x <? y)%float = (float_key x <? float_key y)%Z.
Proof.
  intros Hx Hy. rewrite FloatAxioms.ltb_spec. unfold SFltb, float_key.
  rewrite SFcompare_key by auto using Prim2SF_valid, not_nan_spec.
  unfold Z.ltb. destruct (_ ?= _)%Z; reflexivity.
Qed.

Lemma leb_key (x y : float) :
  is_nan x = false -> is_nan y = false ->
  (x <=? y)%float = (float_key x <=? float_key y)%Z.
Proof.
  intros Hx Hy. rewrite FloatAxioms.leb_spec. unfold SFleb, float_key.
  rewrite SFcompare_key by auto using Prim2SF_valid, not_nan_spec.
  unfold Z.leb. destruct (_ ?= _)%Z; reflexivity.
Qed.

Lemma eqb_key (x y : float) :
  is_nan x = false -> is_nan y = false ->
  (x =? y)%float = (float_key x =? float_key y)%Z.
Proof.
  intros Hx Hy. rewrite FloatAxioms.eqb_spec. unfold SFeqb, float_key.
  rewrite SFcompare_key by auto using Prim2SF_valid, not_nan_spec.
  fold (float_key x) (float_key y).
  destruct (Z.compare_spec (float_key x) (float_key y)) as [E | E | E]; symmetry;
    solve [apply Z.eqb_eq; lia | apply Z.eqb_neq; lia].
Qed.

Lemma sub_above_zero (x y : float) :
  is_nan x = false -> is_nan y = false ->
  (0 <? y - x)%float = (float_key x <? float_key y)%Z.
Proof.
  intros Hx Hy. rewrite FloatAxioms.ltb_spec, sub_spec.
  change (Prim2SF 0) with (S754_zero false).
  apply SFsub_above_zero; auto using Prim2SF_valid, not_nan_spec.
Qed.

Lemma SFmul_comm (x y : spec_float) : SF64mul x y = SF64mul y x.
Proof.
  unfold SF64mul.
  destruct x as [sx | sx | | sx mx ex], y as [sy | sy | | sy my ey];
    cbn [SFmul]; rewrite ?(xorb_comm sx sy), ?(Pos.mul_comm mx my),
    ?(Z.add_comm ex ey); reflexivity.
Qed.

Lemma float_mul_comm (x y : float) : (x * y = y * x)%float.
Proof.
  apply Prim2SF_inj. rewrite !mul_spec. apply SFmul_comm.
Qed.


(** ** Similarity: [dotProduct], [magnitude], [cosineSimilarity] *)

Lemma dotProduct_loop_comm (n : nat) : forall i a b total,
  dotProduct_loop n i a b total = dotProduct_loop n i b a total.
Proof.
  induction n as [| n IH]; intros i a b total; cbn [dotProduct_loop].
  - reflexivity.
  - rewrite (float_mul_comm (nth i a nan)). apply IH.
Qed.

Lemma dotProduct_comm (a b : vector) : dotProduct a b = dotProduct b a.
Proof.
  unfold dotProduct. rewrite Nat.min_comm. apply dotProduct_loop_comm.
Qed.

Lemma cosineSimilarity_comm (a b : vector) :
  cosineSimilarity a b = cosineSimilarity b a.
Proof.
  unfold cosineSimilarity. cbv zeta.
  rewrite (orb_comm (falsy (magnitude a))), (dotProduct_comm a b),
    (float_mul_comm (magnitude a)).
  reflexivity.
Qed.

Lemma cosineSimilarity_falsy_l (a b : vector) :
  falsy (magnitude a) = true -> cosineSimilarity a b = 0%float.
Proof.
  intros H. unfold cosineSimilarity. cbv zeta. rewrite H. reflexivity.
Qed.

Lemma magnitude_zero_vector (n : nat) : magnitude (repeat 0%float n) = 0%float.
Proof.
  unfold magnitude.
  assert (H : fold_left (fun total value => (total + value * value)%float)
                (repeat 0%float n) 0%float = 0%float).
  { induction n as [| n IH]; cbn [repeat fold_left]; [reflexivity |].
    replace (0 + 0 * 0)%float with 0%float by reflexivity. exact IH. }
  rewrite H. reflexivity.
Qed.

(** The loop of [dotProduct] reads each array only below the shared length. *)
Lemma dotProduct_loop_firstn (m n : nat) : forall i a b total,
  (i + n <= m)%nat ->
  dotProduct_loop n i (firstn m a) (firstn m b) total
  = dotProduct_loop n i a b total.
Proof.
  induction n as [| n IH]; intros i a b total Hle; cbn [dotProduct_loop].
  - reflexivity.
  - rewrite !nth_firstn.
    destruct (Nat.ltb_spec i m) as [_ | Hge]; [| lia].
    apply IH. lia.
Qed.

Lemma dotProduct_firstn (a b : vector) :
  let m := Nat.min (length a) (length b) in
  dotProduct (firstn m a) (firstn m b) = dotProduct a b.
Proof.
  intros m. unfold dotProduct.
  rewrite !length_firstn.
  replace (Nat.min (Nat.min m (length a)) (Nat.min m (length b))) with m
    by (subst m; lia).
  apply dotProduct_loop_firstn. lia.
Qed.

(** C3, as the code has it.  For all vectors [a] and [b] (of equal length
    or not), [cosineSimilarity a b] and [cosineSimilarity b a] are the same
    number; a vector whose magnitude is zero has similarity [0] with every
    vector, and so has the zero vector of any length.  The similarity is a
    rounded quotient of rounded numbers: that it lies within [-1, 1] is not
    part of the statement ([cosineSimilarity_outside_unit_interval]). *)
Theorem cosineSimilarity_symmetric_zero (a b : vector) :
  cosineSimilarity a b = cosineSimilarity b a
  /\ ((magnitude a =? 0)%float = true ->
      cosineSimilarity a b = 0%float /\ cosineSimilarity b a = 0%float)
  /\ (forall n : nat,
        cosineSimilarity (repeat 0%float n) b = 0%float
        /\ cosineSimilarity b (repeat 0%float n) = 0%float).
Proof.
  split; [apply cosineSimilarity_comm |]. split.
  - intros H.
    assert (Hf : falsy (magnitude a) = true) by (unfold falsy; rewrite H; reflexivity).
    split; [| rewrite cosineSimilarity_comm]; apply cosineSimilarity_falsy_l, Hf.
  - intros n.
    assert (Hf : falsy (magnitude (repeat 0%float n)) = true)
      by (rewrite magnitude_zero_vector; reflexivity).
    split; [| rewrite cosineSimilarity_comm]; apply cosineSimilarity_falsy_l, Hf.
Qed.

(** The squares of [1e-200] underflow to zero: a vector that is not the
    zero vector, of magnitude zero. *)
Lemma cosineSimilarity_symmetric_zero_witness :
  cosineSimilarity [0x1p-600; 0]%float [1; 2]%float = 0%float
  /\ cosineSimilarity [1; 2]%float [0x1p-600; 0]%float = 0%float.
Proof.
  apply (proj1 (proj2 (cosineSimilarity_symmetric_zero
                         [0x1p-600; 0]%float [1; 2]%float))).
  reflexivity.
Defined.

(** C3 as stated fails on its bound.  The similarity of [(2, 3)] with
    itself is [13 / (sqrt 13 * sqrt 13)], which rounds to
    [1.0000000000000002]; and the squares of [2 ^ 600] overflow, so that the
    similarity of [(2 ^ 600)] with itself is [NaN]. *)
Lemma cosineSimilarity_outside_unit_interval :
  (let a := [2; 3]%float in
   let b := [2; 3]%float in
   length a = length b /\ length a <> 0%nat
   /\ (1 <? cosineSimilarity a b)%float = true)
  /\ (let a := [0x1p600]%float in
      let b := [0x1p600]%float in
      length a = length b /\ length a <> 0%nat
      /\ is_nan (cosineSimilarity a b) = true).
Proof.
  repeat split; discriminate.
Qed.

(** C4, as the code has it.  When both magnitudes are nonzero numbers, the
    similarity is the dot product of the two vectors cut to their shared
    length, divided by the product of the magnitudes of the two whole
    vectors. *)
Theorem cosineSimilarity_shared_prefix (a b : vector) :
  falsy (magnitude a) = false -> falsy (magnitude b) = false ->
  let m := Nat.min (length a) (length b) in
  cosineSimilarity a b
  = (dotProduct (firstn m a) (firstn m b) / (magnitude a * magnitude b))%float.
Proof.
  intros Ha Hb m. unfold cosineSimilarity. cbv zeta. rewrite Ha, Hb.
  cbn [orb]. subst m. rewrite dotProduct_firstn. reflexivity.
Qed.

Lemma cosineSimilarity_shared_prefix_witness :
  cosineSimilarity [1; 1]%float [1]%float
  = (dotProduct [1]%float [1]%float
     / (magnitude [1; 1]%float * magnitude [1]%float))%float.
Proof.
  apply (cosineSimilarity_shared_prefix [1; 1]%float [1]%float); reflexivity.
Defined.

(** C4 as stated fails: the magnitudes are those of the whole vectors.  For
    [a = (1, 1)] and [b = (1)] the cut vectors are both [(1)], of cosine
    similarity [1], and the code gives [1 / (sqrt 2 * 1)]. *)
Lemma cosineSimilarity_not_of_truncated :
  let a := [1; 1]%float in
  let b := [1]%float in
  let m := Nat.min (length a) (length b) in
  falsy (magnitude a) = false /\ falsy (magnitude b) = false
  /\ (dotProduct (firstn m a) (firstn m b)
      / (magnitude (firstn m a) * magnitude (firstn m b)))%float = 1%float
  /\ cosineSimilarity (firstn m a) (firstn m b) = 1%float
  /\ (cosineSimilarity a b <? 1)%float = true.
Proof.
  repeat split.
Qed.

(** ** Ranking: [js_sort] and [searchLocalIndex] *)

Lemma js_slice_prefix {A : Type} (l : list A) (k : Z) :
  (0 <= k)%Z -> js_slice l 0 k = firstn (Z.to_nat k) l.
Proof.
  intros Hk. unfold js_slice.
  destruct (Z.ltb_spec k 0) as [Hneg | _]; [lia |].
  destruct (Z.ltb_spec 0 0) as [Hneg | _]; [lia |].
  replace (Z.min 0 (Z.of_nat (length l))) with 0%Z by lia.
  change (skipn (Z.to_nat 0) l) with l. rewrite Z.sub_0_r.
  destruct (Z.le_gt_cases k (Z.of_nat (length l))) as [Hle | Hgt].
  - rewrite Z.min_l by lia. reflexivity.
  - rewrite Z.min_r by lia. rewrite Nat2Z.id.
    rewrite firstn_all. symmetry. apply firstn_all2. lia.
Qed.

Lemma sort_insert_perm {A : Type} (cmp : A -> A -> float) (x : A) (l : list A) :
  Permutation (sort_insert cmp x l) (x :: l).
Proof.
  induction l as [| y l IH]; cbn [sort_insert]; [reflexivity |].
  destruct (0 <? cmp x y)%float; [| reflexivity].
  rewrite IH. apply perm_swap.
Qed.

Lemma js_sort_perm {A : Type} (cmp : A -> A -> float) (l : list A) :
  Permutation (js_sort cmp l) l.
Proof.
  induction l as [| x l IH]; cbn [js_sort]; [reflexivity |].
  rewrite sort_insert_perm. apply perm_skip, IH.
Qed.

Lemma sort_insert_map {A B : Type} (g : B -> A) (cmp : A -> A -> float)
    (x : B) (l : list B) :
  sort_insert cmp (g x) (List.map g l)
  = List.map g (sort_insert (fun u v => cmp (g u) (g v)) x l).
Proof.
  induction l as [| y l IH]; cbn [sort_insert List.map]; [reflexivity |].
  destruct (0 <? cmp (g x) (g y))%float; cbn [List.map]; [| reflexivity].
  rewrite IH. reflexivity.
Qed.

Lemma js_sort_map {A B : Type} (g : B -> A) (cmp : A -> A -> float) (l : list B) :
  js_sort cmp (List.map g l)
  = List.map g (js_sort (fun u v => cmp (g u) (g v)) l).
Proof.
  induction l as [| x l IH]; cbn [js_sort List.map]; [reflexivity |].
  rewrite IH. apply sort_insert_map.
Qed.

Section StableSort.

Context {B : Type} (score : B -> float) (tag : B -> nat).

Let cmp (u v : B) : float := (score v - score u)%float.

Let before (u v : B) : Prop :=
  (float_key (score v) <= float_key (score u))%Z
  /\ (float_key (score u) = float_key (score v) -> (tag u < tag v)%nat).

Lemma sort_insert_sorted (x : B) (l : list B) :
  is_nan (score x) = false ->
  Forall (fun y => is_nan (score y) = false) l ->
  Forall (fun y => (tag x < tag y)%nat) l ->
  StronglySorted before l ->
  StronglySorted before (sort_insert cmp x l).
Proof.
  intros Hx Hnan Htag Hsorted.
  induction l as [| y l IH]; cbn [sort_insert].
  - constructor; constructor.
  - apply Forall_cons_iff in Hnan as [Hy Hnan].
    apply Forall_cons_iff in Htag as [Hxy Htag].
    apply StronglySorted_inv in Hsorted as [Hsorted Hall].
    unfold cmp at 1. rewrite (sub_above_zero (score x) (score y) Hx Hy).
    destruct (Z.ltb_spec (float_key (score x)) (float_key (score y))) as [Hlt | Hge].
    + constructor; [apply IH; assumption |].
      rewrite (sort_insert_perm cmp x l). constructor; [| exact Hall].
      split; lia.
    + constructor; [constructor; assumption |].
      constructor; [split; lia |].
      eapply Forall_impl; [exact (List.Forall_and Hall Htag) |]. cbn beta.
      intros z [[Hz _] Hxz]. split; lia.
Qed.

Lemma js_sort_sorted (l : list B) :
  Forall (fun y => is_nan (score y) = false) l ->
  StronglySorted (fun u v => (tag u < tag v)%nat) l ->
  StronglySorted before (js_sort cmp l).
Proof.
  intros Hnan Htag.
  induction l as [| x l IH]; cbn [js_sort]; [constructor |].
  apply Forall_cons_iff in Hnan as [Hx Hnan].
  apply StronglySorted_inv in Htag as [Htag Hall].
  apply sort_insert_sorted; try assumption.
  - rewrite (js_sort_perm cmp l). exact Hnan.
  - rewrite (js_sort_perm cmp l). exact Hall.
  - apply IH; assumption.
Qed.

End StableSort.

Lemma tag_from_snd {A : Type} (l : list A) : forall i,
  List.map snd (tag_from i l) = l.
Proof.
  induction l as [| x l IH]; intros i; cbn [tag_from List.map snd];
    [reflexivity | f_equal; apply IH].
Qed.

Lemma tag_from_fst {A : Type} (l : list A) : forall i,
  List.map fst (tag_from i l) = seq i (length l).
Proof.
  induction l as [| x l IH]; intros i; cbn [tag_from List.map fst length seq];
    [reflexivity | f_equal; apply IH].
Qed.

Lemma tag_from_lookup {A : Type} (l : list A) : forall i,
  Forall (fun p => (i <= fst p)%nat /\ l !! (fst p - i)%nat = Some (snd p))
         (tag_from i l).
Proof.
  induction l as [| x l IH]; intros i; cbn [tag_from]; constructor.
  - cbn [fst snd]. split; [lia |]. rewrite Nat.sub_diag. reflexivity.
  - eapply Forall_impl; [apply (IH (S i)) |]. cbn beta.
    intros [j y] [Hle Hl]. cbn [fst snd] in *. split; [lia |].
    replace (j - i)%nat with (S (j - S i)) by lia. exact Hl.
Qed.

Lemma tag_from_sorted {A : Type} (l : list A) : forall i,
  StronglySorted (fun u v : nat * A => (fst u < fst v)%nat) (tag_from i l).
Proof.
  induction l as [| x l IH]; intros i; cbn [tag_from]; constructor.
  - apply IH.
  - eapply Forall_impl; [apply (tag_from_lookup l (S i)) |]. cbn beta.
    intros [j y] [Hle _]. cbn [fst] in *. lia.
Qed.

Lemma StronglySorted_map_weaken {A B : Type} (R : A -> A -> Prop)
    (R' : B -> B -> Prop) (f : A -> B) (P : A -> Prop) (l : list A) :
  (forall x y, P x -> P y -> R x y -> R' (f x) (f y)) ->
  Forall P l -> StronglySorted R l -> StronglySorted R' (List.map f l).
Proof.
  intros Himp HP Hs.
  induction Hs as [| x l Hs IH Hall]; cbn [List.map]; constructor.
  - apply IH. apply Forall_cons_iff in HP. tauto.
  - apply Forall_cons_iff in HP as [Hx HP].
    apply List.Forall_map.
    eapply Forall_impl; [exact (List.Forall_and HP Hall) |]. cbn beta.
    intros y [Hy Hxy]. apply Himp; assumption.
Qed.

Lemma StronglySorted_firstn {A : Type} (R : A -> A -> Prop) (l : list A) :
  StronglySorted R l -> forall n, StronglySorted R (firstn n l).
Proof.
  induction 1 as [| x l Hs IH Hall]; intros [| n]; cbn [firstn];
    try constructor.
  - apply IH.
  - rewrite <- (firstn_skipn n l) in Hall. apply Forall_app in Hall. tauto.
Qed.

(** C1, as the code has it.  When [topK] is not negative and no record's
    similarity to the query is [NaN], the result has exactly min(topK, n)
    records, for [n] the number of records of the index; it is the first
    records of a ranking of the whole index: a permutation of the positions
    of the index, ordered by similarity, greater first, and by position in
    the index where the similarities are equal.  A call without [topK] is
    a call with [topK = 4]. *)
Theorem searchLocalIndex_ranked (index : LocalIndex) (queryEmbedding : vector)
    (topK : option Z) :
  let k := default 4%Z topK in
  (0 <= k)%Z ->
  Forall (fun item => is_nan (score_of queryEmbedding item) = false)
         (items index) ->
  let found := searchLocalIndex index queryEmbedding topK in
  searchLocalIndex index queryEmbedding None
  = searchLocalIndex index queryEmbedding (Some 4%Z)
  /\ length found = Z.to_nat (Z.min k (Z.of_nat (length (items index))))
  /\ exists order : list nat,
       Permutation order (seq 0 (length (items index)))
       /\ ranks queryEmbedding (items index) order
       /\ Forall2 (fun i item => items index !! i = Some item)
                  (firstn (Z.to_nat k) order) found.
Proof.
  intros k Hk Hnan found. split; [reflexivity |].
  set (its := items index) in *.
  set (g := fun p : nat * LocalIndexItem =>
              (snd p, score_of queryEmbedding (snd p))).
  set (S := js_sort (fun u v => by_score_desc (g u) (g v)) (tag_from 0 its)).
  assert (Hfound : found = List.map snd (firstn (Z.to_nat k) S)).
  { subst found. unfold searchLocalIndex. fold its.
    change (match topK with Some k0 => k0 | None => 4%Z end) with k.
    rewrite <- (tag_from_snd its 0) at 1. rewrite List.map_map.
    change (fun x : nat * LocalIndexItem =>
              (snd x, score_of queryEmbedding (snd x))) with g.
    rewrite js_sort_map. fold S.
    rewrite js_slice_prefix by exact Hk.
    rewrite List.firstn_map, List.map_map. reflexivity. }
  assert (HpermS : Permutation S (tag_from 0 its)) by apply js_sort_perm.
  assert (HP : Forall (fun p : nat * LocalIndexItem =>
                         its !! fst p = Some (snd p)
                         /\ is_nan (score_of queryEmbedding (snd p)) = false) S).
  { rewrite HpermS. apply List.Forall_and.
    - eapply Forall_impl; [apply (tag_from_lookup its 0) |]. cbn beta.
      intros p [_ Hl]. rewrite Nat.sub_0_r in Hl. exact Hl.
    - rewrite <- (tag_from_snd its 0) in Hnan.
      apply List.Forall_map in Hnan. exact Hnan. }
  assert (Hsorted : StronglySorted
            (fun u v : nat * LocalIndexItem =>
               (float_key (score_of queryEmbedding (snd v))
                <= float_key (score_of queryEmbedding (snd u)))%Z
               /\ (float_key (score_of queryEmbedding (snd u))
                   = float_key (score_of queryEmbedding (snd v))
                   -> (fst u < fst v)%nat)) S).
  { apply (js_sort_sorted (fun p => score_of queryEmbedding (snd p)) fst).
    - rewrite <- (tag_from_snd its 0) in Hnan.
      apply List.Forall_map in Hnan. exact Hnan.
    - apply tag_from_sorted. }
  split.
  - rewrite Hfound, length_map, length_firstn.
    rewrite (Permutation_length HpermS).
    rewrite <- (length_map fst), tag_from_fst, length_seq. lia.
  - exists (List.map fst S). split; [| split].
    + rewrite <- (tag_from_fst its 0). apply Permutation_map, HpermS.
    + unfold ranks. fold its.
      eapply StronglySorted_map_weaken; [| exact HP | exact Hsorted].
      cbn beta. intros u v [Hu Hnu] [Hv Hnv] [Hle Htie].
      exists (snd u), (snd v). repeat split; try assumption.
      * rewrite leb_key by assumption. apply Z.leb_le, Hle.
      * intros Heq. rewrite eqb_key in Heq by assumption.
        apply Htie, Z.eqb_eq, Heq.
    + rewrite Hfound, List.firstn_map.
      assert (HP' : Forall (fun p : nat * LocalIndexItem =>
                              its !! fst p = Some (snd p))
                           (firstn (Z.to_nat k) S)).
      { apply Forall_take. eapply Forall_impl; [exact HP |].
        cbn beta. tauto. }
      clear -HP'. induction HP'; cbn [List.map]; constructor; assumption.
Qed.

Lemma searchLocalIndex_ranked_witness :
  let found := searchLocalIndex scenario_index [1; 0]%float (Some 2%Z) in
  searchLocalIndex scenario_index [1; 0]%float None
  = searchLocalIndex scenario_index [1; 0]%float (Some 4%Z)
  /\ length found = Z.to_nat (Z.min 2 (Z.of_nat (length (items scenario_index))))
  /\ exists order : list nat,
       Permutation order (seq 0 (length (items scenario_index)))
       /\ ranks [1; 0]%float (items scenario_index) order
       /\ Forall2 (fun i item => items scenario_index !! i = Some item)
                  (firstn (Z.to_nat 2) order) found.
Proof.
  apply (searchLocalIndex_ranked scenario_index [1; 0]%float (Some 2%Z)).
  - cbn. lia.
  - repeat constructor.
Defined.

(** The ranking scenario of the specification: the first record, then the
    third. *)
Example searchLocalIndex_scenario :
  List.map id (searchLocalIndex scenario_index [1; 0]%float (Some 2%Z))
  = [lit "first"; lit "third"].
Proof. reflexivity. Qed.

(** C1 as stated fails in two ways.  A similarity can be [NaN]: the
    squares of [2 ^ 1023] overflow, the comparator answers [NaN] for every
    pair with that record, the sort takes this as a tie, and the index
    comes back as it was, the record of lowest similarity first and the one
    of highest similarity last.  And a negative [topK] counts from the end:
    with [topK = -1] two of the three records are returned, more than
    min(topK, 3). *)
Lemma searchLocalIndex_unranked :
  (List.map id (searchLocalIndex overflow_index [1; 1]%float (Some 3%Z))
   = [lit "low"; lit "huge"; lit "high"]
   /\ List.map (score_of [1; 1]%float)
               (searchLocalIndex overflow_index [1; 1]%float (Some 3%Z))
      = [(-0x1.6a09e667f3bccp-1)%float; nan; 0x1.ffffffffffffep-1%float]
   /\ (-0x1.6a09e667f3bccp-1 <? 0x1.ffffffffffffep-1)%float = true)
  /\ (Z.min (-1) (Z.of_nat (length (items scenario_index)))
      < Z.of_nat (length (searchLocalIndex scenario_index [1; 0]%float
                                           (Some (-1)%Z))))%Z.
Proof.
  repeat split.
Qed.

(** ** The chunker: normalization *)

Lemma replace_whitespace_runs_spaced (t : jsstring) : forall b,
  single_spaced b (replace_whitespace_runs b t) = true.
Proof.
  induction t as [| c r IH]; intros b; cbn [replace_whitespace_runs]; [reflexivity |].
  destruct (is_whitespace c) eqn:Hc.
  - destruct b; [apply IH |].
    cbn [single_spaced]. change (is_whitespace 32) with true. cbn. apply IH.
  - cbn [single_spaced]. rewrite Hc. apply IH.
Qed.

Lemma single_spaced_weaken (s : jsstring) (b : bool) :
  single_spaced b s = true -> single_spaced false s = true.
Proof.
  destruct s as [| c r]; [reflexivity |]. cbn [single_spaced].
  destruct (is_whitespace c); [| tauto]. destruct b; [discriminate | tauto].
Qed.

Lemma single_spaced_app_l (l1 l2 : jsstring) : forall b,
  single_spaced b (l1 ++ l2) = true -> single_spaced b l1 = true.
Proof.
  induction l1 as [| c r IH]; intros b; [reflexivity |]. cbn [app single_spaced].
  destruct (is_whitespace c); [| apply IH].
  rewrite !andb_true_iff. intros [H1 H2]. split; [exact H1 | apply IH, H2].
Qed.

Lemma single_spaced_app_r (l1 l2 : jsstring) : forall b,
  single_spaced b (l1 ++ l2) = true -> single_spaced false l2 = true.
Proof.
  induction l1 as [| c r IH]; intros b; cbn [app].
  - apply single_spaced_weaken.
  - cbn [single_spaced]. destruct (is_whitespace c); [| apply IH].
    rewrite !andb_true_iff. intros [_ H2]. apply (IH _ H2).
Qed.

Lemma single_spaced_space (s : jsstring) : forall b c,
  single_spaced b s = true -> In c s -> is_whitespace c = true -> c = 32%N.
Proof.
  induction s as [| d r IH]; intros b c Hs Hin Hc; [destruct Hin |].
  destruct Hin as [Hin | Hin].
  - subst d. cbn [single_spaced] in Hs. rewrite Hc in Hs.
    rewrite !andb_true_iff in Hs. destruct Hs as [[_ H] _]. apply N.eqb_eq, H.
  - cbn [single_spaced] in Hs. destruct (is_whitespace d).
    + rewrite !andb_true_iff in Hs. destruct Hs as [_ H]. apply (IH _ _ H Hin Hc).
    + apply (IH _ _ Hs Hin Hc).
Qed.

Lemma single_spaced_adjacent (l1 : jsstring) : forall b c1 c2 l2,
  single_spaced b (l1 ++ c1 :: c2 :: l2) = true ->
  is_whitespace c1 = true -> is_whitespace c2 = false.
Proof.
  induction l1 as [| d r IH]; intros b c1 c2 l2 Hs H1; cbn [app single_spaced] in Hs.
  - rewrite H1 in Hs. rewrite !andb_true_iff in Hs. destruct Hs as [_ Hs].
    cbn [single_spaced] in Hs. destruct (is_whitespace c2); [discriminate | reflexivity].
  - destruct (is_whitespace d).
    + rewrite !andb_true_iff in Hs. destruct Hs as [_ Hs]. apply (IH _ _ _ _ Hs H1).
    + apply (IH _ _ _ _ Hs H1).
Qed.

Lemma trimStart_split (s : jsstring) :
  exists pre, s = pre ++ trimStart s
              /\ Forall (fun c => is_whitespace c = true) pre
              /\ (forall c r, trimStart s = c :: r -> is_whitespace c = false).
Proof.
  induction s as [| c r (pre & Hs & Hpre & Hhd)]; cbn [trimStart].
  - exists []. repeat split; [constructor | discriminate].
  - destruct (is_whitespace c) eqn:Hc.
    + exists (c :: pre). cbn [app]. rewrite <- Hs. repeat split; [constructor; assumption | exact Hhd].
    + exists []. repeat split; [constructor |]. intros c' r' [= <- _]. exact Hc.
Qed.

Lemma trim_split (s : jsstring) :
  exists pre post,
    s = pre ++ trim s ++ post
    /\ Forall (fun c => is_whitespace c = true) pre
    /\ Forall (fun c => is_whitespace c = true) post
    /\ (forall c r, trim s = c :: r -> is_whitespace c = false)
    /\ (forall c r, trim s = r ++ [c] -> is_whitespace c = false).
Proof.
  destruct (trimStart_split s) as (pre & Hs & Hpre & Hhd).
  destruct (trimStart_split (rev (trimStart s))) as (tail & Hr & Htail & Hlast).
  fold (trim s) in *. unfold trim in Hlast |- *.
  set (m := trimStart (rev (trimStart s))) in *.
  assert (Hmid : trimStart s = rev m ++ rev tail).
  { rewrite <- rev_app_distr, <- Hr, rev_involutive. reflexivity. }
  exists pre, (rev tail). repeat split.
  - rewrite <- Hmid. exact Hs.
  - exact Hpre.
  - apply Forall_rev. exact Htail.
  - intros c r Hc. destruct (rev m) as [| c' r'] eqn:E; [discriminate |].
    injection Hc as -> ->. apply (Hhd c (r ++ rev tail)). rewrite Hmid. reflexivity.
  - intros c r Hc. apply (Hlast c (rev r)).
    rewrite <- (rev_involutive m), Hc, rev_app_distr. reflexivity.
Qed.

Lemma replace_whitespace_runs_fixed (s : jsstring) : forall b,
  single_spaced b s = true -> replace_whitespace_runs b s = s.
Proof.
  induction s as [| c r IH]; intros b Hs; [reflexivity |].
  cbn [single_spaced replace_whitespace_runs] in *.
  destruct (is_whitespace c).
  - rewrite !andb_true_iff in Hs. destruct Hs as [[Hb Hc] Hr].
    destruct b; [discriminate |]. apply N.eqb_eq in Hc. subst c.
    f_equal. apply IH, Hr.
  - f_equal. apply IH, Hs.
Qed.

Lemma replace_whitespace_runs_keeps (t : jsstring) : forall b,
  List.filter (fun c => negb (is_whitespace c)) (replace_whitespace_runs b t)
  = List.filter (fun c => negb (is_whitespace c)) t.
Proof.
  induction t as [| c r IH]; intros b; cbn [replace_whitespace_runs]; [reflexivity |].
  cbn [List.filter]. destruct (is_whitespace c) eqn:Hc; cbn [negb].
  - destruct b; [apply IH |]. cbn [List.filter]. change (is_whitespace 32) with true.
    cbn [negb]. apply IH.
  - cbn [List.filter]. rewrite Hc. cbn [negb]. f_equal. apply IH.
Qed.

Lemma filter_all_whitespace (l : jsstring) :
  Forall (fun c => is_whitespace c = true) l ->
  List.filter (fun c => negb (is_whitespace c)) l = [].
Proof.
  induction 1 as [| c l Hc _ IH]; cbn [List.filter]; [reflexivity |].
  rewrite Hc. exact IH.
Qed.

Lemma normalize_spaced (t : jsstring) : single_spaced false (normalize t) = true.
Proof.
  unfold normalize.
  destruct (trim_split (replace_whitespace_runs false t)) as (pre & post & Hs & _).
  pose proof (replace_whitespace_runs_spaced t false) as H. rewrite Hs in H.
  apply single_spaced_app_r in H. apply single_spaced_app_l in H. exact H.
Qed.

Lemma trimStart_fixed (s : jsstring) :
  (forall c r, s = c :: r -> is_whitespace c = false) -> trimStart s = s.
Proof.
  destruct s as [| c r]; [reflexivity |]. intros H. cbn [trimStart].
  rewrite (H c r eq_refl). reflexivity.
Qed.

(** The normalized text neither starts nor ends with whitespace, its only
    whitespace is the space, no two spaces are adjacent, and its other code
    units are those of the text, in their order. *)
Theorem normalize_single_spaced (text : jsstring) :
  let s := normalize text in
  (forall c r, s = c :: r -> is_whitespace c = false)
  /\ (forall c r, s = r ++ [c] -> is_whitespace c = false)
  /\ (forall c, In c s -> is_whitespace c = true -> c = 32%N)
  /\ (forall l1 c1 c2 l2, s = l1 ++ c1 :: c2 :: l2 ->
        is_whitespace c1 = true -> is_whitespace c2 = false)
  /\ List.filter (fun c => negb (is_whitespace c)) s
     = List.filter (fun c => negb (is_whitespace c)) text.
Proof.
  intros s. pose proof (normalize_spaced text) as Hsp. fold s in Hsp.
  unfold s, normalize in *.
  destruct (trim_split (replace_whitespace_runs false text))
    as (pre & post & Hs & Hpre & Hpost & Hhd & Hlast).
  split; [exact Hhd |]. split; [exact Hlast |]. split; [| split].
  - intros c Hin Hc. apply (single_spaced_space _ _ _ Hsp Hin Hc).
  - intros l1 c1 c2 l2 E H1. rewrite E in Hsp.
    apply (single_spaced_adjacent _ _ _ _ _ Hsp H1).
  - pose proof (f_equal (List.filter (fun c => negb (is_whitespace c))) Hs) as E.
    rewrite !List.filter_app in E.
    rewrite (filter_all_whitespace pre Hpre), (filter_all_whitespace post Hpost) in E.
    rewrite app_nil_r in E. cbn [app] in E.
    rewrite <- E. apply replace_whitespace_runs_keeps.
Qed.

(** Normalizing a normalized text changes nothing. *)
Theorem normalize_idempotent (text : jsstring) :
  normalize (normalize text) = normalize text.
Proof.
  pose proof (normalize_spaced text) as Hsp.
  unfold normalize at 1.
  rewrite (replace_whitespace_runs_fixed _ _ Hsp).
  unfold normalize in *.
  destruct (trim_split (replace_whitespace_runs false text))
    as (_ & _ & _ & _ & _ & Hhd & Hlast).
  set (s := trim (replace_whitespace_runs false text)) in *.
  unfold trim. rewrite (trimStart_fixed s Hhd).
  rewrite trimStart_fixed; [apply rev_involutive |].
  intros c r E. apply (Hlast c (rev r)).
  rewrite <- (rev_involutive s), E. reflexivity.
Qed.

Lemma normalize_nil_iff (text : jsstring) :
  normalize text = [] <-> Forall (fun c => is_whitespace c = true) text.
Proof.
  assert (Hkeep : List.filter (fun c => negb (is_whitespace c)) (normalize text)
                  = List.filter (fun c => negb (is_whitespace c)) text).
  { unfold normalize.
    destruct (trim_split (replace_whitespace_runs false text))
      as (pre & post & Hs & Hpre & Hpost & _).
    pose proof (f_equal (List.filter (fun c => negb (is_whitespace c))) Hs) as E.
    rewrite !List.filter_app in E.
    rewrite (filter_all_whitespace pre Hpre), (filter_all_whitespace post Hpost) in E.
    rewrite app_nil_r in E. cbn [app] in E.
    rewrite <- E. apply replace_whitespace_runs_keeps. }
  split.
  - intros Hnil. rewrite Hnil in Hkeep. cbn [List.filter] in Hkeep.
    apply List.Forall_forall. intros c Hc.
    destruct (is_whitespace c) eqn:E; [reflexivity |].
    assert (Hin : In c (List.filter (fun c => negb (is_whitespace c)) text)).
    { apply filter_In. split; [exact Hc | rewrite E; reflexivity]. }
    rewrite <- Hkeep in Hin. destruct Hin.
  - intros Hall. rewrite (filter_all_whitespace text Hall) in Hkeep.
    destruct (normalize text) as [| c r] eqn:E; [reflexivity |].
    assert (Hc : is_whitespace c = false).
    { unfold normalize in E.
      destruct (trim_split (replace_whitespace_runs false text))
        as (_ & _ & _ & _ & _ & Hhd & _).
      apply (Hhd c r E). }
    cbn [List.filter] in Hkeep. rewrite Hc in Hkeep. discriminate.
Qed.

(** ** The chunker: [splitText] *)

Lemma js_slice_window {A : Type} (s : list A) (a b : Z) :
  (0 <= a <= Z.of_nat (length s))%Z -> (a <= b)%Z ->
  js_slice s a b = firstn (Z.to_nat (b - a)) (skipn (Z.to_nat a) s).
Proof.
  intros Ha Hb. unfold js_slice.
  destruct (Z.ltb_spec a 0) as [Hneg | _]; [lia |].
  destruct (Z.ltb_spec b 0) as [Hneg | _]; [lia |].
  rewrite (Z.min_l a) by lia.
  destruct (Z.le_gt_cases b (Z.of_nat (length s))) as [Hle | Hgt].
  - rewrite Z.min_l by lia. reflexivity.
  - rewrite Z.min_r by lia.
    rewrite !firstn_all2; [reflexivity | |]; rewrite length_skipn; lia.
Qed.

Lemma reassemble_snoc (overlap : Z) (chunks : list jsstring) (c : jsstring) :
  chunks <> [] ->
  reassemble overlap (chunks ++ [c])
  = reassemble overlap chunks ++ skipn (Z.to_nat overlap) c.
Proof.
  destruct chunks as [| c0 rest]; [congruence |]. intros _.
  cbn [reassemble app]. rewrite List.map_app, concat_app. cbn [List.map concat].
  rewrite app_nil_r, app_assoc. reflexivity.
Qed.

Lemma windows_snoc (s : jsstring) (cs ov : Z) (chunks : list jsstring) :
  windows s cs ov chunks ->
  windows s cs ov
    (chunks ++ [js_slice s (Z.of_nat (length chunks) * (cs - ov))
                  (Z.of_nat (length chunks) * (cs - ov) + cs)]).
Proof.
  intros Hw i c Hi. apply lookup_snoc_Some in Hi as [[_ Hi] | [-> <-]].
  - apply Hw, Hi.
  - reflexivity.
Qed.

Lemma splitText_step_advances (s : jsstring) (cs ov start : Z)
    (chunks chunks' : list jsstring) (start' : Z) :
  (ov <= cs - 1)%Z ->
  splitText_step s cs ov start chunks = inr (start', chunks') ->
  (start < start')%Z.
Proof.
  intros Hov. unfold splitText_step.
  destruct (Z.ltb_spec start (Z.of_nat (length s))) as [Hlt | _]; [| discriminate].
  destruct (Z.eqb_spec (Z.min (start + cs) (Z.of_nat (length s)))
                       (Z.of_nat (length s))) as [_ | Hne]; [discriminate |].
  intros [= <- _]. lia.
Qed.

Section Chunker.

Variables (s : jsstring) (cs ov : Z).
Hypothesis Hcs : (1 <= cs)%Z.
Hypothesis Hov : (0 <= ov <= cs - 1)%Z.

Lemma splitText_loop_covers (fuel : nat) : forall (n : nat) (chunks : list jsstring),
  (n < length s)%nat -> (length s - n < fuel)%nat ->
  Forall (fun c => Z.of_nat (length c) = cs) chunks ->
  match chunks with
  | [] => n = 0%nat
  | _ :: _ => reassemble ov chunks = firstn (n + Z.to_nat ov) s
  end ->
  Z.of_nat n = (Z.of_nat (length chunks) * (cs - ov))%Z ->
  windows s cs ov chunks ->
  exists final,
    splitText_loop fuel s cs ov (Z.of_nat n) chunks = Some final
    /\ covers s cs ov final.
Proof.
  induction fuel as [| fuel IH]; intros n chunks Hn Hfuel Hfull Hre Hpos Hw;
    [lia |].
  cbn [splitText_loop]. unfold splitText_step.
  destruct (Z.ltb_spec (Z.of_nat n) (Z.of_nat (length s))) as [_ | Hge]; [| lia].
  set (chunk := js_slice s (Z.of_nat n) (Z.min (Z.of_nat n + cs) (Z.of_nat (length s)))).
  assert (Hchunk : chunk = js_slice s (Z.of_nat (length chunks) * (cs - ov))
                             (Z.of_nat (length chunks) * (cs - ov) + cs)).
  { subst chunk. rewrite <- Hpos. rewrite !js_slice_window by lia.
    destruct (Z.le_gt_cases (Z.of_nat n + cs) (Z.of_nat (length s))).
    - rewrite Z.min_l by lia. reflexivity.
    - rewrite Z.min_r by lia.
      rewrite !firstn_all2; [reflexivity | |]; rewrite length_skipn; lia. }
  assert (Hw' : windows s cs ov (chunks ++ [chunk])).
  { rewrite Hchunk. apply windows_snoc, Hw. }
  destruct (Z.eqb_spec (Z.min (Z.of_nat n + cs) (Z.of_nat (length s)))
                       (Z.of_nat (length s))) as [Hend | Hend].
  - (* the last fragment: the rest of the text *)
    exists (chunks ++ [chunk]). split; [reflexivity |].
    assert (Hc : chunk = skipn n s).
    { subst chunk. rewrite Hend, js_slice_window by lia.
      rewrite Nat2Z.id. apply firstn_all2. rewrite length_skipn. lia. }
    assert (Hlen : length chunk = (length s - n)%nat)
      by (rewrite Hc; apply length_skipn).
    split; [| split; [| split]].
    + apply Forall_app. split.
      * eapply Forall_impl; [exact Hfull |]. cbn beta. intros c Hc'. lia.
      * constructor; [lia | constructor].
    + intros i c Hi Hl. rewrite length_app in Hi. cbn [length] in Hi.
      rewrite lookup_app_l in Hl by lia.
      rewrite Forall_forall in Hfull. apply Hfull.
      eapply list_elem_of_lookup_2, Hl.
    + destruct chunks as [| c0 rest].
      * subst n. cbn [app reassemble List.map concat].
        rewrite app_nil_r, Hc. reflexivity.
      * rewrite reassemble_snoc by discriminate. rewrite Hre, Hc.
        rewrite skipn_skipn, (Nat.add_comm (Z.to_nat ov)).
        apply firstn_skipn.
    + exact Hw'.
  - (* a full window, and the scan goes on *)
    assert (Hin : (Z.of_nat n + cs < Z.of_nat (length s))%Z) by lia.
    rewrite Z.min_l in * by lia.
    assert (Hc : chunk = firstn (Z.to_nat cs) (skipn n s)).
    { subst chunk. rewrite js_slice_window by lia.
      rewrite Nat2Z.id. f_equal. lia. }
    assert (Hlen : length chunk = Z.to_nat cs).
    { rewrite Hc, length_firstn, length_skipn. lia. }
    replace (Z.of_nat n + cs - ov)%Z
      with (Z.of_nat (n + Z.to_nat cs - Z.to_nat ov)) by lia.
    apply IH.
    + lia.
    + lia.
    + apply Forall_app. split; [exact Hfull |]. constructor; [lia | constructor].
    + destruct (chunks ++ [chunk]) as [| c1 rest1] eqn:E.
      { apply app_eq_nil in E as [_ E]. discriminate. }
      rewrite <- E.
      replace (n + Z.to_nat cs - Z.to_nat ov + Z.to_nat ov)%nat
        with (n + Z.to_nat cs)%nat by lia.
      destruct chunks as [| c0 rest].
      * subst n. cbn [app reassemble List.map concat].
        rewrite app_nil_r, Hc. reflexivity.
      * rewrite reassemble_snoc by discriminate. rewrite Hre, Hc.
        rewrite skipn_firstn_comm, skipn_skipn, (Nat.add_comm (Z.to_nat ov)).
        rewrite take_take_drop. f_equal. lia.
    + rewrite length_app. cbn [length]. lia.
    + exact Hw'.
Qed.

End Chunker.

Lemma splitText_accepts (text : jsstring) (chunkSize chunkOverlap : Z) :
  (1 <= chunkSize)%Z ->
  exists chunks,
    splitText text chunkSize chunkOverlap = Some chunks
    /\ covers (normalize text) chunkSize
              (clamp_overlap chunkOverlap chunkSize) chunks.
Proof.
  intros Hcs. unfold splitText. cbv zeta.
  destruct (normalize text) as [| c0 rest] eqn:E.
  - exists []. split; [reflexivity |]. repeat split.
    + constructor.
    + intros i c Hi. cbn [length] in Hi. lia.
    + intros i c Hi. discriminate.
  - change 0%Z with (Z.of_nat 0).
    apply splitText_loop_covers.
    + exact Hcs.
    + unfold clamp_overlap. lia.
    + cbn [length]. lia.
    + lia.
    + constructor.
    + reflexivity.
    + cbn [length]. lia.
    + intros i c Hi. discriminate.
Qed.

Lemma is_whitespace_blank (c : N) : is_whitespace c = blank c.
Proof.
  apply eq_true_iff_eq. unfold is_whitespace, blank, whitespace_code_units.
  cbn [existsb].
  rewrite !orb_true_iff, !andb_true_iff, !N.leb_le, !N.eqb_eq.
  lia.
Qed.

Lemma words_from_begun (s : jsstring) : forall word,
  word <> [] -> words_from word s <> [].
Proof.
  induction s as [| c r IH]; intros word Hw; cbn [words_from].
  - destruct word; [congruence | discriminate].
  - destruct (blank c).
    + destruct word; [congruence | discriminate].
    + apply IH. destruct word; discriminate.
Qed.

Lemma words_from_runs (s : jsstring) : forall (b : bool) (word : jsstring),
  (b = true -> word = []) ->
  words_from word (replace_whitespace_runs b s) = words_from word s.
Proof.
  induction s as [| c r IH]; intros b word Hb; [reflexivity |].
  cbn [replace_whitespace_runs words_from].
  rewrite (is_whitespace_blank c). destruct (blank c) eqn:Hc.
  - destruct b.
    + rewrite (Hb eq_refl). apply IH. reflexivity.
    + cbn [words_from]. change (blank 32) with true. cbv iota.
      destruct word; rewrite IH by reflexivity; reflexivity.
  - cbn [words_from]. rewrite Hc. apply IH. discriminate.
Qed.

Lemma words_from_leading (pre s : jsstring) :
  Forall (fun c => is_whitespace c = true) pre ->
  words_from [] (pre ++ s) = words_from [] s.
Proof.
  induction 1 as [| c pre Hc _ IH]; [reflexivity |].
  cbn [app words_from]. rewrite <- (is_whitespace_blank c), Hc. exact IH.
Qed.

Lemma words_from_trailing (s post : jsstring) :
  Forall (fun c => is_whitespace c = true) post ->
  forall word, words_from word (s ++ post) = words_from word s.
Proof.
  intros Hpost. induction s as [| c r IH]; intros word; cbn [app words_from].
  - revert word. induction Hpost as [| c post Hc _ IH]; intros word; [reflexivity |].
    cbn [words_from]. rewrite <- (is_whitespace_blank c), Hc.
    destruct word; rewrite IH; reflexivity.
  - destruct (blank c); [destruct word; rewrite IH; reflexivity | apply IH].
Qed.

Lemma unwords_cons (w : jsstring) (ws : list jsstring) :
  ws <> [] -> unwords (w :: ws) = w ++ 32%N :: unwords ws.
Proof.
  destruct ws; [congruence | reflexivity].
Qed.

(** A text with single spaces only, no space at its end, and none at its
    start unless a word is begun, is its words with a space between
    them. *)
Lemma unwords_words_from (s : jsstring) : forall (b : bool) (word : jsstring),
  single_spaced b s = true ->
  (forall c r, s = r ++ [c] -> is_whitespace c = false) ->
  (word = [] -> forall c r, s = c :: r -> is_whitespace c = false) ->
  unwords (words_from word s) = word ++ s.
Proof.
  induction s as [| c r IH]; intros b word Hs Hlast Hfirst; cbn [words_from].
  - rewrite app_nil_r. destruct word; reflexivity.
  - cbn [single_spaced] in Hs. rewrite <- (is_whitespace_blank c).
    assert (Hlast' : r <> [] -> forall c' r', r = r' ++ [c'] -> is_whitespace c' = false).
    { intros _ c' r' E. apply (Hlast c' (c :: r')). rewrite E. reflexivity. }
    destruct (is_whitespace c) eqn:Hc.
    + rewrite !andb_true_iff in Hs. destruct Hs as [[_ H32] Hr].
      apply N.eqb_eq in H32. subst c.
      destruct word as [| w0 word].
      { rewrite (Hfirst eq_refl 32%N r eq_refl) in Hc. discriminate. }
      destruct r as [| d r'].
      { rewrite (Hlast 32%N [] eq_refl) in Hc. discriminate. }
      assert (Hd : is_whitespace d = false).
      { cbn [single_spaced] in Hr. destruct (is_whitespace d); [discriminate | reflexivity]. }
      rewrite unwords_cons.
      * rewrite (IH true []); [reflexivity | exact Hr | apply Hlast'; discriminate |].
        intros _ c' r'' [= <- _]. exact Hd.
      * cbn [words_from]. rewrite <- (is_whitespace_blank d), Hd.
        apply words_from_begun. discriminate.
    + rewrite (IH false (word ++ [c])).
      * rewrite <- app_assoc. reflexivity.
      * exact Hs.
      * destruct r as [| d r']; [intros c' r' E; destruct r'; discriminate |].
        apply Hlast'. discriminate.
      * intros E. destruct word; discriminate.
Qed.

(** The normalization of the code gives the whitespace-normalized text. *)
Lemma normalize_whitespace_normalized (text : jsstring) :
  normalize text = whitespace_normalized text.
Proof.
  unfold whitespace_normalized, words.
  pose proof (normalize_spaced text) as Hsp.
  unfold normalize in *.
  destruct (trim_split (replace_whitespace_runs false text))
    as (pre & post & Hs & Hpre & Hpost & Hhd & Hlast).
  set (s := trim (replace_whitespace_runs false text)) in *.
  rewrite <- (words_from_runs text false []) by discriminate.
  rewrite Hs, (words_from_leading pre _ Hpre), (words_from_trailing s post Hpost).
  symmetry. apply (unwords_words_from s false [] Hsp Hlast). intros _. exact Hhd.
Qed.

Lemma clamp_overlap_clamped (chunkOverlap chunkSize : Z) :
  (1 <= chunkSize)%Z ->
  clamp_overlap chunkOverlap chunkSize = clamped chunkOverlap chunkSize.
Proof.
  intros Hcs. unfold clamp_overlap, clamped.
  destruct (Z.ltb_spec chunkOverlap 0); [lia |].
  destruct (Z.leb_spec chunkSize chunkOverlap); lia.
Qed.

Lemma js_slice_beyond {A : Type} (s : list A) (a b : Z) :
  (Z.of_nat (length s) <= a)%Z -> js_slice s a b = [].
Proof.
  intros Ha. unfold js_slice.
  destruct (Z.ltb_spec a 0) as [Hneg | _]; [lia |].
  rewrite (Z.min_r a) by lia. rewrite skipn_all2 by lia. apply firstn_nil.
Qed.

(** C2.  For a chunk size of at least one, [splitText] returns the windows
    of the whitespace-normalized text (the words of the text, one space
    between them): window [i] starts at [i * (chunkSize - overlap)] and
    has [chunkSize] code units, or what is left of the text, where
    [overlap] is the requested overlap clamped into [0, chunkSize - 1].
    There is a fragment when the text has a word; each fragment has
    between one and [chunkSize] code units, each but the last has
    [chunkSize]; and the first fragment followed by every later fragment
    without its first [overlap] code units is the normalized text. *)
Theorem splitText_covers (text : jsstring) (chunkSize chunkOverlap : Z) :
  (1 <= chunkSize)%Z ->
  let normalized := whitespace_normalized text in
  let overlap := clamped chunkOverlap chunkSize in
  let step := (chunkSize - overlap)%Z in
  (0 <= overlap <= chunkSize - 1)%Z
  /\ exists chunks,
       splitText text chunkSize chunkOverlap = Some chunks
       /\ (normalized <> [] -> chunks <> [])
       /\ Forall (fun c => (1 <= Z.of_nat (length c) <= chunkSize)%Z) chunks
       /\ (forall (i : nat) (c : jsstring),
             (S i < length chunks)%nat -> chunks !! i = Some c ->
             Z.of_nat (length c) = chunkSize)
       /\ (forall (i : nat) (c : jsstring),
             chunks !! i = Some c ->
             c = firstn (Z.to_nat chunkSize)
                   (skipn (Z.to_nat (Z.of_nat i * step)) normalized))
       /\ reassemble overlap chunks = normalized.
Proof.
  intros Hcs normalized overlap step.
  split; [unfold overlap, clamped;
          destruct (Z.ltb_spec chunkOverlap 0);
          [| destruct (Z.leb_spec chunkSize chunkOverlap)]; lia |].
  destruct (splitText_accepts text chunkSize chunkOverlap Hcs)
    as (chunks & Hsplit & Hlens & Hfull & Hre & Hwin).
  rewrite (clamp_overlap_clamped _ _ Hcs) in Hre, Hwin.
  rewrite normalize_whitespace_normalized in Hre, Hwin.
  fold overlap normalized in Hre, Hwin.
  exists chunks. split; [exact Hsplit |].
  split; [| split; [exact Hlens | split; [exact Hfull | split; [| exact Hre]]]].
  - intros Hne ->. cbn [reassemble] in Hre. congruence.
  - intros i c Hc. pose proof (Hwin i c Hc) as E. fold step in E.
    assert (Hlen : (1 <= Z.of_nat (length c))%Z).
    { apply (Forall_lookup_1 _ _ _ _ Hlens Hc). }
    assert (Hstep : (1 <= step)%Z)
      by (unfold step, overlap, clamped;
          destruct (Z.ltb_spec chunkOverlap 0);
          [| destruct (Z.leb_spec chunkSize chunkOverlap)]; lia).
    destruct (Z.le_gt_cases (Z.of_nat (length normalized)) (Z.of_nat i * step))
      as [Hout | Hin].
    + rewrite (js_slice_beyond _ _ _ Hout) in E. subst c. cbn [length] in Hlen. lia.
    + rewrite js_slice_window in E by nia.
      rewrite E. f_equal. f_equal. lia.
Qed.

Lemma splitText_covers_witness :
  let text := lit "a b" ++ [9; 160]%N ++ lit "c d e f g h " in
  let normalized := whitespace_normalized text in
  let overlap := clamped 2 5 in
  let step := (5 - overlap)%Z in
  (0 <= overlap <= 5 - 1)%Z
  /\ exists chunks,
       splitText text 5 2 = Some chunks
       /\ (normalized <> [] -> chunks <> [])
       /\ Forall (fun c => (1 <= Z.of_nat (length c) <= 5)%Z) chunks
       /\ (forall (i : nat) (c : jsstring),
             (S i < length chunks)%nat -> chunks !! i = Some c ->
             Z.of_nat (length c) = 5%Z)
       /\ (forall (i : nat) (c : jsstring),
             chunks !! i = Some c ->
             c = firstn (Z.to_nat 5)
                   (skipn (Z.to_nat (Z.of_nat i * step)) normalized))
       /\ reassemble overlap chunks = normalized.
Proof.
  apply (splitText_covers (lit "a b" ++ [9; 160]%N ++ lit "c d e f g h ") 5 2). lia.
Defined.

(** The chunking scenario of the specification: windows of five code
    units that start three apart. *)
Example splitText_scenario :
  splitText (lit "a b c d e f g h") 5 2
  = Some [lit "a b c"; lit " c d "; lit "d e f"; lit " f g "; lit "g h"].
Proof. reflexivity. Qed.

(** C9.  For a chunk size of at least one and any requested overlap, the
    clamped overlap lies in [0, chunkSize - 1], every evaluation of the loop
    that goes on moves the window start forward, and the scan comes back
    with its fragments within the bound of one evaluation per code unit of
    the normalized text, and one more. *)
Theorem splitText_terminates (text : jsstring) (chunkSize chunkOverlap : Z) :
  (1 <= chunkSize)%Z ->
  let overlap := clamp_overlap chunkOverlap chunkSize in
  (0 <= overlap <= chunkSize - 1)%Z
  /\ (forall (start : Z) (chunks : list jsstring) (start' : Z)
             (chunks' : list jsstring),
        splitText_step (normalize text) chunkSize overlap start chunks
        = inr (start', chunks') ->
        (start < start')%Z)
  /\ exists chunks, splitText text chunkSize chunkOverlap = Some chunks.
Proof.
  intros Hcs overlap.
  assert (Hov : (0 <= overlap <= chunkSize - 1)%Z)
    by (unfold overlap, clamp_overlap; lia).
  split; [exact Hov |]. split.
  - intros start chunks start' chunks' Hstep.
    eapply splitText_step_advances; [| exact Hstep]. lia.
  - destruct (splitText_accepts text chunkSize chunkOverlap Hcs)
      as (chunks & Hsplit & _).
    exists chunks. exact Hsplit.
Qed.

Lemma splitText_terminates_witness :
  let text := lit "a b c d e f g h" in
  let overlap := clamp_overlap 7 1 in
  (0 <= overlap <= 1 - 1)%Z
  /\ (forall (start : Z) (chunks : list jsstring) (start' : Z)
             (chunks' : list jsstring),
        splitText_step (normalize text) 1 overlap start chunks
        = inr (start', chunks') ->
        (start < start')%Z)
  /\ exists chunks, splitText text 1 7 = Some chunks.
Proof.
  apply (splitText_terminates (lit "a b c d e f g h") 1 7). lia.
Defined.

(** ** The index store: [readLocalIndex] and [writeLocalIndex] *)

Lemma stringify_number_safe (x : float) :
  json_safe x = true -> stringify_number x = JNum x.
Proof.
  unfold json_safe, stringify_number.
  destruct (classify x); intros H; try discriminate; reflexivity.
Qed.

Lemma stringify_numbers_safe (v : vector) :
  forallb json_safe v = true ->
  List.map stringify_value (List.map JNum v) = List.map JNum v.
Proof.
  induction v as [| x v IH]; cbn [forallb List.map]; [reflexivity |].
  intros H. apply andb_true_iff in H as [Hx Hv].
  cbn [stringify_value]. rewrite (stringify_number_safe x Hx), (IH Hv).
  reflexivity.
Qed.

Lemma stringify_item_safe (item : LocalIndexItem) :
  item_json_safe item = true ->
  stringify_value (item_value item) = item_value item.
Proof.
  unfold item_json_safe. intros H. apply andb_true_iff in H as [He Hc].
  unfold item_value, metadata_value. cbn [stringify_value List.map fst snd].
  rewrite (stringify_numbers_safe _ He), (stringify_number_safe _ Hc).
  reflexivity.
Qed.

Lemma stringify_items_safe (its : list LocalIndexItem) :
  forallb item_json_safe its = true ->
  List.map stringify_value (List.map item_value its) = List.map item_value its.
Proof.
  induction its as [| item its IH]; cbn [forallb List.map]; [reflexivity |].
  intros H. apply andb_true_iff in H as [Hitem Hits].
  rewrite (stringify_item_safe item Hitem), (IH Hits). reflexivity.
Qed.

Lemma stringify_index_safe (index : LocalIndex) :
  index_json_safe index = true ->
  stringify_value (index_value index) = index_value index.
Proof.
  unfold index_json_safe. intros H. apply andb_true_iff in H as [Hd Hi].
  unfold index_value. cbn [stringify_value List.map fst snd].
  rewrite (stringify_number_safe _ Hd), (stringify_items_safe _ Hi).
  reflexivity.
Qed.

Lemma as_numbers_values (v : vector) : mapM as_number (List.map JNum v) = Some v.
Proof.
  induction v as [| x v IH]; cbn [List.map mapM]; [reflexivity |].
  cbn [as_number]. rewrite IH. reflexivity.
Qed.

Lemma as_item_value (item : LocalIndexItem) :
  as_item (item_value item) = Some item.
Proof.
  destruct item as [i e [t s c]].
  unfold as_item, item_value, metadata_value, as_metadata, field, as_array.
  cbn [assoc]. eval_keys. cbn -[mapM lit]. rewrite as_numbers_values.
  reflexivity.
Qed.

Lemma as_LocalIndex_value (index : LocalIndex) :
  as_LocalIndex (index_value index) = Some index.
Proof.
  destruct index as [model dim created its].
  unfold as_LocalIndex, index_value, field, as_array.
  cbn [assoc]. eval_keys. cbn -[mapM lit].
  assert (H : mapM as_item (List.map item_value its) = Some its).
  { induction its as [| item its IH]; cbn [List.map mapM]; [reflexivity |].
    rewrite as_item_value, IH. reflexivity. }
  rewrite H. reflexivity.
Qed.

Lemma writeLocalIndex_artifact (index : LocalIndex) (fs : filesystem) :
  files (writeLocalIndex index fs) !! LOCAL_INDEX_PATH
  = Some (JSON_stringify (index_value index)).
Proof.
  unfold writeLocalIndex, writeLocalIndex_steps, writeFile_steps, fs_run.
  cbn [fold_left fs_exec files]. apply lookup_insert_eq.
Qed.

Lemma writeLocalIndex_folder (index : LocalIndex) (fs : filesystem) :
  LOCAL_INDEX_FOLDER ∈ directories (writeLocalIndex index fs).
Proof.
  unfold writeLocalIndex, writeLocalIndex_steps, writeFile_steps, fs_run.
  cbn [List.map app fold_left fs_exec directories]. set_solver.
Qed.

(** The artifact is reached through one directory. *)
Lemma readFile_artifact (fs : filesystem) :
  readFile fs LOCAL_INDEX_PATH
  = if not_a_directory fs LOCAL_INDEX_FOLDER
    then Err (SystemError "ENOTDIR")
    else match files fs !! LOCAL_INDEX_PATH with
         | Some content => Ok content
         | None =>
             if bool_decide (LOCAL_INDEX_PATH ∈ directories fs)
             then Err (SystemError "EISDIR")
             else Err (SystemError "ENOENT")
         end.
Proof.
  unfold readFile.
  change (parents LOCAL_INDEX_PATH) with [LOCAL_INDEX_FOLDER].
  cbn [existsb]. rewrite orb_false_r. reflexivity.
Qed.

Lemma readLocalIndex_writeLocalIndex (index : LocalIndex) (fs : filesystem) :
  readLocalIndex (writeLocalIndex index fs)
  = Ok (stringify_value (index_value index)).
Proof.
  unfold readLocalIndex. rewrite readFile_artifact. unfold not_a_directory.
  rewrite (bool_decide_eq_true_2 _ (writeLocalIndex_folder index fs)).
  cbn [negb andb]. rewrite writeLocalIndex_artifact. reflexivity.
Qed.

(** C5, as the code has it.  For an index whose numbers are finite and not
    the negative zero, the value read after a save is the index that was
    saved: same [embeddingModel], [dimension] and [createdAt], same records
    in the same order, each with its [id], its metadata and every number of
    its embedding. *)
Theorem readLocalIndex_after_writeLocalIndex (index : LocalIndex)
    (fs : filesystem) :
  index_json_safe index = true ->
  readLocalIndex (writeLocalIndex index fs) = Ok (index_value index)
  /\ as_LocalIndex (index_value index) = Some index.
Proof.
  intros Hsafe. split; [| apply as_LocalIndex_value].
  rewrite readLocalIndex_writeLocalIndex, (stringify_index_safe index Hsafe).
  reflexivity.
Qed.

Lemma readLocalIndex_after_writeLocalIndex_witness :
  readLocalIndex (writeLocalIndex scenario_index empty_fs)
  = Ok (index_value scenario_index)
  /\ as_LocalIndex (index_value scenario_index) = Some scenario_index.
Proof.
  apply (readLocalIndex_after_writeLocalIndex scenario_index empty_fs).
  reflexivity.
Defined.

(** C5 as stated fails: [JSON.stringify] writes the negative zero as [0].
    The index read back has the positive zero in its embedding, and is not
    the index that was saved.  (A number that is not finite is written as
    [null].) *)
Lemma readLocalIndex_loses_negative_zero :
  readLocalIndex (writeLocalIndex negative_zero_index empty_fs)
  = Ok (index_value positive_zero_index)
  /\ readLocalIndex (writeLocalIndex negative_zero_index empty_fs)
     <> Ok (index_value negative_zero_index)
  /\ stringify_number nan = JNull
  /\ stringify_number infinity = JNull.
Proof.
  rewrite readLocalIndex_writeLocalIndex.
  repeat split. intros H.
  apply (f_equal (fun r : result json =>
                    match r with
                    | Ok v =>
                        match as_LocalIndex v with
                        | Some ix =>
                            List.map (fun it => List.map classify (embedding it))
                                     (items ix)
                        | None => []
                        end
                    | Err _ => []
                    end)) in H.
  vm_compute in H. discriminate.
Qed.

(** C7, as the code has it.  [readLocalIndex] fails with the system error
    [ENOENT] exactly when nothing is at the path of the artifact and the
    path can be gone through; when the directory of the artifact is a
    regular file it fails with [ENOTDIR], and when the path of the artifact
    is a directory with [EISDIR]: the artifact does not exist then either.
    It fails with a [SyntaxError] exactly when the artifact is a file that
    holds no JSON text; an artifact that holds a JSON text is returned as
    the value it denotes, whatever its shape.  These are all the failures
    of the model: permissions and devices are left out. *)
Theorem readLocalIndex_outcomes (fs : filesystem) :
  let through_a_file :=
    (LOCAL_INDEX_FOLDER ∉ directories fs)
    /\ is_Some (files fs !! LOCAL_INDEX_FOLDER) in
  let artifact := files fs !! LOCAL_INDEX_PATH in
  (readLocalIndex fs = Err (SystemError "ENOENT")
   <-> ~ through_a_file /\ artifact = None
       /\ (LOCAL_INDEX_PATH ∉ directories fs))
  /\ (readLocalIndex fs = Err (SystemError "ENOTDIR") <-> through_a_file)
  /\ (readLocalIndex fs = Err (SystemError "EISDIR")
      <-> ~ through_a_file /\ artifact = None
          /\ (LOCAL_INDEX_PATH ∈ directories fs))
  /\ (readLocalIndex fs = Err SyntaxError
      <-> ~ through_a_file /\ exists t, artifact = Some (Malformed t))
  /\ (forall v, readLocalIndex fs = Ok v
                <-> ~ through_a_file /\ artifact = Some (Rendered v))
  /\ (forall e, readLocalIndex fs = Err e ->
        e = SystemError "ENOENT" \/ e = SystemError "ENOTDIR"
        \/ e = SystemError "EISDIR" \/ e = SyntaxError).
Proof.
  intros through_a_file artifact. subst through_a_file artifact.
  unfold readLocalIndex. rewrite readFile_artifact. unfold not_a_directory.
  destruct (files fs !! LOCAL_INDEX_FOLDER) as [content |];
    destruct (files fs !! LOCAL_INDEX_PATH) as [[v | t] |];
    repeat case_bool_decide; cbn [negb andb JSON_parse];
    try match goal with H : ~ is_Some (Some _) |- _ => destruct H; eauto end;
    try match goal with H : is_Some None |- _ => destruct H; discriminate end;
    repeat match goal with
           | |- _ /\ _ => split
           | |- _ <-> _ => split
           | |- forall _, _ => intro
           end;
    try discriminate;
    try (intuition (try discriminate; try congruence; eauto); fail);
    match goal with
    | H : _ /\ (exists t, _ = Some (Malformed t)) |- _ =>
        destruct H as (_ & t & Ht); discriminate
    end.
Qed.

(** C7 as stated fails on both halves.  The artifact [{}] exists and has
    not the shape of an index, and [readLocalIndex] returns it.  And where
    [data] is a regular file, the artifact does not exist and
    [readLocalIndex] fails with [ENOTDIR], not with [ENOENT]. *)
Lemma readLocalIndex_accepts_any_json :
  (files braces_fs !! LOCAL_INDEX_PATH = Some (Rendered (JObj []))
   /\ as_LocalIndex (JObj []) = None
   /\ readLocalIndex braces_fs = Ok (JObj []))
  /\ (files folder_is_file_fs !! LOCAL_INDEX_PATH = None
      /\ readLocalIndex folder_is_file_fs = Err (SystemError "ENOTDIR")).
Proof.
  split.
  - split; [vm_compute; reflexivity |]. split; [reflexivity |].
    vm_compute. reflexivity.
  - split; vm_compute; reflexivity.
Qed.

(** The file system that [writeLocalIndex] leaves does not depend on how
    the platform cut the write. *)
Lemma writeLocalIndex_returns (index : LocalIndex) (parts : list jsstring)
    (fs : filesystem) :
  fs_run (writeLocalIndex_steps index parts) fs = writeLocalIndex index fs.
Proof.
  unfold writeLocalIndex, writeLocalIndex_steps, writeFile_steps, fs_run.
  cbn [fold_left List.map app].
  set (start := fs_exec (fs_exec fs (Mkdir_recursive LOCAL_INDEX_FOLDER))
                        (Open_truncating LOCAL_INDEX_PATH)).
  assert (H : forall (steps : list jsstring) (st : filesystem) (data : file_text),
            files st !! LOCAL_INDEX_PATH <> None ->
            fold_left fs_exec
              (List.map (fun part => Write_data LOCAL_INDEX_PATH (Malformed part)) steps
               ++ [Write_data LOCAL_INDEX_PATH data]) st
            = fs_exec st (Write_data LOCAL_INDEX_PATH data)).
  { induction steps as [| part steps IH]; intros st data Hst; [reflexivity |].
    cbn [List.map app fold_left]. rewrite IH.
    - cbn [fs_exec files directories]. rewrite insert_insert_eq. reflexivity.
    - cbn [fs_exec files]. rewrite lookup_insert_eq. discriminate. }
  apply H. subst start. cbn [fs_exec files]. rewrite lookup_insert_eq. discriminate.
Qed.

(** C6, as the code has it.  Where a save succeeds, [writeLocalIndex]
    makes the parent directory and writes the new text over the artifact
    in place, with no other file: at every moment of a save every other
    file is as it was, and the artifact is the previous one, an empty
    file, a part of the new text (which is not a JSON text), or the new
    text; when the save is done, the artifact is the new text and the
    directory exists. *)
Theorem writeLocalIndex_in_place (index : LocalIndex) (parts : list jsstring)
    (fs : filesystem) :
  can_save fs ->
  let new := JSON_stringify (index_value index) in
  Forall (fun seen : filesystem =>
            (files seen !! LOCAL_INDEX_PATH = files fs !! LOCAL_INDEX_PATH
             \/ (exists part,
                   files seen !! LOCAL_INDEX_PATH = Some (Malformed part)
                   /\ (part = [] \/ In part parts))
             \/ files seen !! LOCAL_INDEX_PATH = Some new)
            /\ (forall path, path <> LOCAL_INDEX_PATH ->
                  files seen !! path = files fs !! path))
         (fs_trace (writeLocalIndex_steps index parts) fs)
  /\ fs_run (writeLocalIndex_steps index parts) fs = writeLocalIndex index fs
  /\ files (writeLocalIndex index fs) !! LOCAL_INDEX_PATH = Some new
  /\ LOCAL_INDEX_FOLDER ∈ directories (writeLocalIndex index fs).
Proof.
  intros _ new. split; [| split; [apply writeLocalIndex_returns |
                                split; [apply writeLocalIndex_artifact
                                       | apply writeLocalIndex_folder]]].
  set (P := fun seen : filesystem =>
              (files seen !! LOCAL_INDEX_PATH = files fs !! LOCAL_INDEX_PATH
               \/ (exists part,
                     files seen !! LOCAL_INDEX_PATH = Some (Malformed part)
                     /\ (part = [] \/ In part parts))
               \/ files seen !! LOCAL_INDEX_PATH = Some new)
              /\ (forall path, path <> LOCAL_INDEX_PATH ->
                    files seen !! path = files fs !! path)).
  assert (Hwrite : forall (st : filesystem) (data : file_text),
            (forall path, path <> LOCAL_INDEX_PATH ->
               files st !! path = files fs !! path) ->
            forall path, path <> LOCAL_INDEX_PATH ->
              files (fs_exec st (Write_data LOCAL_INDEX_PATH data)) !! path
              = files fs !! path).
  { intros st data Hst path Hne. cbn [fs_exec files].
    rewrite lookup_insert_ne by congruence. apply Hst, Hne. }
  assert (H : forall (steps : list jsstring) (st : filesystem),
            (forall part, In part steps -> In part parts) -> P st ->
            Forall P (fs_trace
                        (List.map (fun part =>
                                     Write_data LOCAL_INDEX_PATH (Malformed part))
                                  steps
                         ++ [Write_data LOCAL_INDEX_PATH new]) st)).
  { induction steps as [| part steps IH]; intros st Hsub Hst;
      cbn [List.map app fs_trace].
    - constructor; [exact Hst |]. constructor; [| constructor]. split.
      + right. right. cbn [fs_exec files]. apply lookup_insert_eq.
      + apply Hwrite, Hst.
    - constructor; [exact Hst |]. apply IH.
      + intros p Hp. apply Hsub. right. exact Hp.
      + split.
        * right. left. exists part. split.
          -- cbn [fs_exec files]. apply lookup_insert_eq.
          -- right. apply Hsub. left. reflexivity.
        * apply Hwrite, Hst. }
  unfold writeLocalIndex_steps, writeFile_steps. cbn [fs_trace].
  constructor; [split; [left; reflexivity | reflexivity] |].
  constructor; [split; [left; reflexivity | reflexivity] |].
  apply H; [auto |]. split.
  - right. left. exists []. split; [| left; reflexivity].
    cbn [fs_exec files]. apply lookup_insert_eq.
  - intros path Hne. cbn [fs_exec files].
    rewrite lookup_insert_ne by congruence. reflexivity.
Qed.

Lemma writeLocalIndex_in_place_witness :
  let parts := [lit "{"; lit "{ embeddingModel"] in
  let new := JSON_stringify (index_value overflow_index) in
  let old := writeLocalIndex scenario_index empty_fs in
  Forall (fun seen : filesystem =>
            (files seen !! LOCAL_INDEX_PATH = files old !! LOCAL_INDEX_PATH
             \/ (exists part,
                   files seen !! LOCAL_INDEX_PATH = Some (Malformed part)
                   /\ (part = [] \/ In part parts))
             \/ files seen !! LOCAL_INDEX_PATH = Some new)
            /\ (forall path, path <> LOCAL_INDEX_PATH ->
                  files seen !! path = files old !! path))
         (fs_trace (writeLocalIndex_steps overflow_index parts) old)
  /\ fs_run (writeLocalIndex_steps overflow_index parts) old
     = writeLocalIndex overflow_index old
  /\ files (writeLocalIndex overflow_index old) !! LOCAL_INDEX_PATH = Some new
  /\ LOCAL_INDEX_FOLDER ∈ directories (writeLocalIndex overflow_index old).
Proof.
  apply (writeLocalIndex_in_place overflow_index
           [lit "{"; lit "{ embeddingModel"]
           (writeLocalIndex scenario_index empty_fs)).
  split; [vm_compute; reflexivity |].
  intros _. exists (JSON_stringify (index_value scenario_index)).
  apply writeLocalIndex_artifact.
Defined.

(** C6 as stated fails: there is no temporary file and no rename.  During
    a save over a complete artifact, the artifact is for a while the empty
    file that [fs.writeFile] has opened: a reader then gets a
    [SyntaxError], neither the previous index nor the new one. *)
Lemma writeLocalIndex_shows_truncated :
  let old := writeLocalIndex scenario_index empty_fs in
  exists seen : filesystem,
    In seen (fs_trace (writeLocalIndex_steps overflow_index []) old)
    /\ readLocalIndex seen = Err SyntaxError
    /\ readLocalIndex old = Ok (index_value scenario_index)
    /\ readLocalIndex (writeLocalIndex overflow_index old)
       = Ok (index_value overflow_index).
Proof.
  intros old.
  exists (fs_exec (fs_exec old (Mkdir_recursive LOCAL_INDEX_FOLDER))
                  (Open_truncating LOCAL_INDEX_PATH)).
  split; [| split; [| split]].
  - cbn [writeLocalIndex_steps writeFile_steps List.map app fs_trace In]. auto.
  - vm_compute. reflexivity.
  - subst old. rewrite readLocalIndex_writeLocalIndex. reflexivity.
  - rewrite readLocalIndex_writeLocalIndex. reflexivity.
Qed.

(** ** The query cache: [embedQuery] *)

Lemma request_embedding_truthy (cfg : ollama_config) (net : fetched) (v : json) :
  request_embedding cfg net = Ok v ->
  truthy v = true
  /\ exists status body data,
       net = Answered true status body (Some data)
       /\ query_embedding data = Ok (Some v).
Proof.
  unfold request_embedding.
  destruct net as [message | [|] status body [data |]]; try discriminate.
  destruct (query_embedding data) as [[found |] | e] eqn:Hq; cbn [and_then];
    try discriminate.
  destruct (truthy found) eqn:Hfound; [| discriminate].
  intros [= <-]. split; [exact Hfound | eauto].
Qed.

Lemma embedQuery_hit (cfg : ollama_config) (input : jsstring) (net : fetched)
    (cache : gmap jsstring json) (v : json) :
  cache !! input = Some v -> truthy v = true ->
  embedQuery cfg input net cache = (Ok v, cache).
Proof.
  intros Hget Hv. unfold embedQuery. rewrite Hget, Hv. reflexivity.
Qed.

(** C10, as the code has it.  A call that fails leaves the cache as it
    found it.  A call that returns a value leaves it as the entry of the
    input, so that every later call with this input returns the same value
    whatever the service would answer; the value is truthy; and the cache
    has changed only if the input had no truthy entry and the value was
    found in a response with a success status, as the first of
    [embeddings] or else as [embedding], and then only by the entry of the
    input.  That the value is a vector is not checked. *)
Theorem embedQuery_cache (cfg : ollama_config) (input : jsstring)
    (net : fetched) (embeddingCache : gmap jsstring json) :
  match embedQuery cfg input net embeddingCache with
  | (Err _, cache') => cache' = embeddingCache
  | (Ok v, cache') =>
      truthy v = true
      /\ cache' !! input = Some v
      /\ (forall net', embedQuery cfg input net' cache' = (Ok v, cache'))
      /\ (cache' = embeddingCache
          \/ cache' = <[input := v]> embeddingCache
             /\ (forall cached, embeddingCache !! input = Some cached ->
                   truthy cached = false)
             /\ exists status body data,
                  net = Answered true status body (Some data)
                  /\ query_embedding data = Ok (Some v))
  end.
Proof.
  assert (Hmiss : (forall cached, embeddingCache !! input = Some cached ->
                     truthy cached = false) ->
            match
              match request_embedding cfg net with
              | Ok embedding => (Ok embedding, <[input := embedding]> embeddingCache)
              | Err e => (Err e, embeddingCache)
              end
            with
            | (Err _, cache') => cache' = embeddingCache
            | (Ok v, cache') =>
                truthy v = true
                /\ cache' !! input = Some v
                /\ (forall net', embedQuery cfg input net' cache' = (Ok v, cache'))
                /\ (cache' = embeddingCache
                    \/ cache' = <[input := v]> embeddingCache
                       /\ (forall cached, embeddingCache !! input = Some cached ->
                             truthy cached = false)
                       /\ exists status body data,
                            net = Answered true status body (Some data)
                            /\ query_embedding data = Ok (Some v))
            end).
  { intros Hfalsy.
    destruct (request_embedding cfg net) as [v | e] eqn:Hreq; [| reflexivity].
    destruct (request_embedding_truthy cfg net v Hreq) as (Hv & Hfound).
    split; [exact Hv |]. split; [apply lookup_insert_eq |]. split.
    - intros net'. apply embedQuery_hit; [apply lookup_insert_eq | exact Hv].
    - right. split; [reflexivity |]. split; [exact Hfalsy | exact Hfound]. }
  unfold embedQuery.
  destruct (embeddingCache !! input) as [cached |] eqn:Hget.
  - destruct (truthy cached) eqn:Hcached.
    + split; [exact Hcached |]. split; [exact Hget |]. split; [| left; reflexivity].
      intros net'. apply embedQuery_hit; assumption.
    + apply Hmiss. intros c [= <-]. exact Hcached.
  - apply Hmiss. intros c Hc. discriminate.
Qed.

(** C10 as stated fails: a response with a success status and no vector
    does not make the call fail when it has something truthy where the
    vector is due.  The number is returned, and it is stored. *)
Lemma embedQuery_caches_what_is_no_vector :
  let cfg := {| OLLAMA_BASE_URL := lit "http://127.0.0.1:11434";
                OLLAMA_EMBED_MODEL := lit "nomic-embed-text" |} in
  embedQuery cfg (lit "which one?") number_for_vector ∅
  = (Ok (JNum 5%float), {[ lit "which one?" := JNum 5%float ]})
  /\ as_array as_number (JNum 5%float) = None.
Proof.
  split; [vm_compute; reflexivity | reflexivity].
Qed.

(** ** Ingestion: [run] *)




(** The ingestion scenario of the specification: an empty source
    directory. *)
Example run_scenario :
  exists e,
    run empty_docs_env empty_fs
    = Some (Err e, fs_exec empty_fs (Mkdir_recursive DOCS_DIR))
    /\ EmptyCorpus e.
Proof.
  eexists. split; [reflexivity | left; reflexivity].
Qed.

(* ===================================================================== *)
(** * Part III: further properties of the code *)
(* ===================================================================== *)

(** ** The chunker: the fragments *)

Lemma splitText_loop_total (s : jsstring) (cs ov : Z) :
  (ov <= cs - 1)%Z ->
  forall (fuel : nat) (start : Z) (chunks : list jsstring),
    (Z.max 0 (Z.of_nat (length s) - start) < Z.of_nat fuel)%Z ->
    exists final,
      splitText_loop fuel s cs ov start chunks = Some final
      /\ (length chunks <= length final)%nat
      /\ ((start < Z.of_nat (length s))%Z -> (length chunks < length final)%nat).
Proof.
  intros Hov. induction fuel as [| fuel IH]; intros start chunks Hfuel; [lia |].
  cbn [splitText_loop]. unfold splitText_step.
  destruct (Z.ltb_spec start (Z.of_nat (length s))) as [Hlt | Hge].
  - destruct (Z.eqb_spec (Z.min (start + cs) (Z.of_nat (length s)))
                         (Z.of_nat (length s))) as [Hend | Hend].
    + eexists. split; [reflexivity |]. rewrite length_app. cbn [length]. lia.
    + destruct (IH (Z.min (start + cs) (Z.of_nat (length s)) - ov)%Z
                   (chunks ++ [js_slice s start (Z.min (start + cs) (Z.of_nat (length s)))]))
        as (final & Hrun & Hlen & _); [lia |].
      exists final. split; [exact Hrun |].
      rewrite length_app in Hlen. cbn [length] in Hlen. lia.
  - eexists. split; [reflexivity |]. lia.
Qed.

(** No fragment at all is returned exactly for the texts made of
    whitespace only (the empty text among them), whatever the chunk size
    and the overlap. *)
Theorem splitText_blank (text : jsstring) (chunkSize chunkOverlap : Z) :
  splitText text chunkSize chunkOverlap = Some []
  <-> Forall (fun c => is_whitespace c = true) text.
Proof.
  rewrite <- normalize_nil_iff. unfold splitText. cbv zeta.
  destruct (normalize text) as [| c r] eqn:E; [split; reflexivity |].
  split; [| discriminate]. intros Hrun.
  destruct (splitText_loop_total (c :: r) chunkSize
              (clamp_overlap chunkOverlap chunkSize)
              ltac:(unfold clamp_overlap; lia)
              (S (length (c :: r))) 0%Z []) as (final & Hfinal & _ & Hlen); [lia |].
  rewrite Hrun in Hfinal. injection Hfinal as <-.
  cbn [length] in Hlen. lia.
Qed.

Lemma splitText_loop_unit_steps (s : jsstring) (cs : Z) :
  (cs <= 0)%Z ->
  forall (fuel : nat) (k : nat) (chunks : list jsstring),
    (k <= length s)%nat -> (length s - k < fuel)%nat ->
    exists final,
      splitText_loop fuel s cs (cs - 1) (Z.of_nat k) chunks = Some (chunks ++ final)
      /\ length final = (length s - k)%nat
      /\ (cs = 0%Z -> Forall (fun c => c = []) final).
Proof.
  intros Hcs. induction fuel as [| fuel IH]; intros k chunks Hk Hfuel; [lia |].
  cbn [splitText_loop]. unfold splitText_step.
  destruct (Z.ltb_spec (Z.of_nat k) (Z.of_nat (length s))) as [Hlt | Hge].
  - destruct (Z.eqb_spec (Z.min (Z.of_nat k + cs) (Z.of_nat (length s)))
                         (Z.of_nat (length s))) as [Hend | Hend]; [lia |].
    replace (Z.min (Z.of_nat k + cs) (Z.of_nat (length s)) - (cs - 1))%Z
      with (Z.of_nat (S k)) by lia.
    destruct (IH (S k)
                 (chunks ++ [js_slice s (Z.of_nat k)
                               (Z.min (Z.of_nat k + cs) (Z.of_nat (length s)))]))
      as (final & Hrun & Hlen & Hempty); [lia | lia |].
    eexists (_ :: final). split; [| split].
    + rewrite Hrun, <- app_assoc. reflexivity.
    + cbn [length]. lia.
    + intros ->. constructor; [| apply Hempty; reflexivity].
      replace (Z.min (Z.of_nat k + 0) (Z.of_nat (length s))) with (Z.of_nat k) by lia.
      rewrite js_slice_window by lia.
      replace (Z.to_nat (Z.of_nat k - Z.of_nat k)) with 0%nat by lia. reflexivity.
  - exists []. rewrite app_nil_r. split; [reflexivity |].
    split; [cbn [length]; lia | constructor].
Qed.

(** A chunk size of zero or less is not refused: the overlap is clamped
    to [chunkSize - 1], the window moves one code unit at a time, and the
    scan returns as many fragments as the normalized text has code units;
    for the size zero they are all empty. *)
Theorem splitText_size_not_positive (text : jsstring) (chunkSize chunkOverlap : Z) :
  (chunkSize <= 0)%Z ->
  exists chunks,
    splitText text chunkSize chunkOverlap = Some chunks
    /\ length chunks = length (normalize text)
    /\ (chunkSize = 0%Z -> Forall (fun c => c = []) chunks).
Proof.
  intros Hcs. unfold splitText. cbv zeta.
  destruct (normalize text) as [| c r] eqn:E.
  { exists []. split; [reflexivity |]. split; [reflexivity | constructor]. }
  replace (clamp_overlap chunkOverlap chunkSize) with (chunkSize - 1)%Z
    by (unfold clamp_overlap; lia).
  destruct (splitText_loop_unit_steps (c :: r) chunkSize Hcs
              (S (length (c :: r))) 0%nat []) as (final & Hrun & Hlen & Hempty);
    [lia | lia |].
  exists final. split; [exact Hrun |]. split; [lia | exact Hempty].
Qed.

Lemma splitText_size_not_positive_witness :
  exists chunks,
    splitText (lit "a b") 0 2 = Some chunks
    /\ length chunks = length (normalize (lit "a b"))
    /\ (0%Z = 0%Z -> Forall (fun c => c = []) chunks).
Proof.
  apply (splitText_size_not_positive (lit "a b") 0 2). lia.
Defined.

Lemma js_slice_length {A : Type} (s : list A) (a b : Z) :
  (0 <= a <= Z.of_nat (length s))%Z -> (a <= b)%Z ->
  Z.of_nat (length (js_slice s a b)) = (Z.min b (Z.of_nat (length s)) - a)%Z.
Proof.
  intros Ha Hb. rewrite js_slice_window by assumption.
  rewrite length_firstn, length_skipn. lia.
Qed.

Section Count.

Variables (s : jsstring) (cs ov : Z).
Hypothesis Hov : (0 <= ov <= cs - 1)%Z.

Lemma splitText_loop_count (fuel : nat) : forall (k : nat) (chunks : list jsstring),
  (Z.of_nat k * (cs - ov) < Z.of_nat (length s))%Z ->
  (Z.of_nat (length s) - Z.of_nat k * (cs - ov) < Z.of_nat fuel)%Z ->
  length chunks = k ->
  ((1 <= k)%nat -> ((Z.of_nat k - 1) * (cs - ov) + cs < Z.of_nat (length s))%Z) ->
  exists final,
    splitText_loop fuel s cs ov (Z.of_nat k * (cs - ov)) chunks = Some final
    /\ (1 <= length final)%nat
    /\ (Z.of_nat (length s)
        <= (Z.of_nat (length final) - 1) * (cs - ov) + cs)%Z
    /\ ((2 <= length final)%nat ->
        ((Z.of_nat (length final) - 2) * (cs - ov) + cs < Z.of_nat (length s))%Z).
Proof.
  induction fuel as [| fuel IH]; intros k chunks Hk Hfuel Hlen Hprev; [lia |].
  cbn [splitText_loop]. unfold splitText_step.
  destruct (Z.ltb_spec (Z.of_nat k * (cs - ov)) (Z.of_nat (length s)))
    as [_ | Hge]; [| lia].
  destruct (Z.eqb_spec (Z.min (Z.of_nat k * (cs - ov) + cs) (Z.of_nat (length s)))
                       (Z.of_nat (length s))) as [Hend | Hend].
  - eexists. split; [reflexivity |]. rewrite length_app. cbn [length].
    rewrite Hlen. split; [lia |]. split; [lia |]. intros H2.
    replace (Z.of_nat (k + 1) - 2)%Z with (Z.of_nat k - 1)%Z by lia.
    apply Hprev. lia.
  - rewrite Z.min_l by lia.
    replace (Z.of_nat k * (cs - ov) + cs - ov)%Z
      with (Z.of_nat (S k) * (cs - ov))%Z by lia.
    apply IH.
    + lia.
    + lia.
    + rewrite length_app. cbn [length]. lia.
    + intros _. replace (Z.of_nat (S k) - 1)%Z with (Z.of_nat k) by lia. lia.
Qed.

End Count.

Lemma splitText_counted (text : jsstring) (chunkSize chunkOverlap : Z) :
  (1 <= chunkSize)%Z -> normalize text <> [] ->
  let len := Z.of_nat (length (normalize text)) in
  let step := (chunkSize - clamp_overlap chunkOverlap chunkSize)%Z in
  exists chunks,
    splitText text chunkSize chunkOverlap = Some chunks
    /\ (1 <= length chunks)%nat
    /\ (len <= (Z.of_nat (length chunks) - 1) * step + chunkSize)%Z
    /\ ((2 <= length chunks)%nat ->
        ((Z.of_nat (length chunks) - 2) * step + chunkSize < len)%Z).
Proof.
  intros Hcs Hne len step. unfold splitText. cbv zeta.
  subst len. destruct (normalize text) as [| c r] eqn:E; [congruence |].
  change 0%Z with (Z.of_nat 0 * step)%Z.
  apply splitText_loop_count.
  - unfold clamp_overlap. lia.
  - cbn [length]. lia.
  - cbn [length]. lia.
  - reflexivity.
  - lia.
Qed.

(** The number of fragments of a text that is not blank: one when the
    normalized text fits in a chunk, and otherwise one more than the
    number of steps of [chunkSize - overlap] that it takes to cover what
    the first fragment leaves, [(len - chunkSize) / step] rounded up. *)
Theorem splitText_count (text : jsstring) (chunkSize chunkOverlap : Z) :
  (1 <= chunkSize)%Z -> normalize text <> [] ->
  let len := Z.of_nat (length (normalize text)) in
  let step := (chunkSize - clamp_overlap chunkOverlap chunkSize)%Z in
  exists chunks,
    splitText text chunkSize chunkOverlap = Some chunks
    /\ Z.of_nat (length chunks)
       = (1 + (if (len <=? chunkSize)%Z then 0
               else (len - chunkSize + step - 1) / step))%Z.
Proof.
  intros Hcs Hne len step.
  destruct (splitText_counted text chunkSize chunkOverlap Hcs Hne)
    as (chunks & Hsplit & H1 & Hup & Hlow).
  fold len step in Hup, Hlow.
  exists chunks. split; [exact Hsplit |].
  assert (Hstep : (1 <= step)%Z) by (unfold step, clamp_overlap; lia).
  set (n := Z.of_nat (length chunks)) in *.
  assert (Hn : (1 <= n)%Z) by lia.
  destruct (Z.leb_spec len chunkSize) as [Hle | Hgt].
  - destruct (Z.eq_dec n 1%Z) as [Hn1 | Hn1]; [lia |].
    assert (H2 : (2 <= length chunks)%nat) by lia. specialize (Hlow H2). nia.
  - assert (Hn2 : (2 <= length chunks)%nat) by nia. specialize (Hlow Hn2).
    assert (Hq : ((len - chunkSize + step - 1) / step = n - 1)%Z).
    { symmetry.
      apply (Z.div_unique_pos _ _ _
               (len - chunkSize + step - 1 - step * (n - 1))%Z); nia. }
    rewrite Hq. lia.
Qed.

Lemma splitText_count_witness :
  let text := lit "a b  c d e f g h " in
  let len := Z.of_nat (length (normalize text)) in
  let step := (5 - clamp_overlap 2 5)%Z in
  exists chunks,
    splitText text 5 2 = Some chunks
    /\ Z.of_nat (length chunks)
       = (1 + (if (len <=? 5)%Z then 0 else (len - 5 + step - 1) / step))%Z.
Proof.
  apply (splitText_count (lit "a b  c d e f g h ") 5 2).
  - lia.
  - vm_compute. discriminate.
Defined.

(** Every fragment after the first reaches past the overlap: it brings at
    least one code unit that no earlier fragment has. *)
Theorem splitText_fragments_advance (text : jsstring) (chunkSize chunkOverlap : Z) :
  (1 <= chunkSize)%Z ->
  exists chunks,
    splitText text chunkSize chunkOverlap = Some chunks
    /\ forall (i : nat) (c : jsstring),
         (1 <= i)%nat -> chunks !! i = Some c ->
         (clamp_overlap chunkOverlap chunkSize < Z.of_nat (length c))%Z.
Proof.
  intros Hcs.
  destruct (splitText_accepts text chunkSize chunkOverlap Hcs)
    as (chunks & Hsplit & Hlens & Hfull & _ & Hwin).
  exists chunks. split; [exact Hsplit |]. intros i c Hi Hc.
  assert (Hov : (0 <= clamp_overlap chunkOverlap chunkSize <= chunkSize - 1)%Z)
    by (unfold clamp_overlap; lia).
  destruct (decide (S i < length chunks)%nat) as [Hmid | Hlast].
  - rewrite (Hfull i c Hmid Hc). lia.
  - assert (Hne : normalize text <> []).
    { intros E. unfold splitText in Hsplit. rewrite E in Hsplit.
      injection Hsplit as <-. discriminate. }
    destruct (splitText_counted text chunkSize chunkOverlap Hcs Hne)
      as (chunks' & Hsplit' & _ & _ & Hlow).
    rewrite Hsplit in Hsplit'. injection Hsplit' as <-.
    apply lookup_lt_Some in Hc as Hlt.
    assert (Hn : length chunks = S i) by lia.
    specialize (Hlow ltac:(lia)). rewrite Hn in Hlow.
    rewrite (Hwin i c Hc), js_slice_length by nia. nia.
Qed.

Lemma splitText_fragments_advance_witness :
  exists chunks,
    splitText (lit "a b  c d e f g h ") 5 2 = Some chunks
    /\ forall (i : nat) (c : jsstring),
         (1 <= i)%nat -> chunks !! i = Some c ->
         (clamp_overlap 2 5 < Z.of_nat (length c))%Z.
Proof.
  apply (splitText_fragments_advance (lit "a b  c d e f g h ") 5 2). lia.
Defined.

(** A chunk size that the whole normalized text fits in gives the text as
    the one fragment. *)
Theorem splitText_single (text : jsstring) (chunkSize chunkOverlap : Z) :
  normalize text <> [] ->
  (Z.of_nat (length (normalize text)) <= chunkSize)%Z ->
  splitText text chunkSize chunkOverlap = Some [normalize text].
Proof.
  intros Hne Hfit. unfold splitText. cbv zeta.
  destruct (normalize text) as [| c r] eqn:E; [congruence |].
  cbn [splitText_loop]. unfold splitText_step.
  destruct (Z.ltb_spec 0 (Z.of_nat (length (c :: r)))) as [_ | Hge];
    [| cbn [length] in Hge; lia].
  rewrite Z.min_r by lia. rewrite Z.eqb_refl. cbn [app].
  rewrite js_slice_prefix by lia. rewrite Nat2Z.id, firstn_all. reflexivity.
Qed.

Lemma splitText_single_witness :
  let text := lit " hello  world " in
  splitText text CHUNK_SIZE CHUNK_OVERLAP = Some [normalize text].
Proof.
  apply (splitText_single (lit " hello  world ") CHUNK_SIZE CHUNK_OVERLAP).
  - vm_compute. discriminate.
  - vm_compute. discriminate.
Defined.

(** ** Search: what is returned *)

Lemma js_slice_from_start {A : Type} (l : list A) (k : Z) :
  js_slice l 0 k = firstn (slice_count (length l) k) l.
Proof.
  unfold js_slice, slice_count.
  destruct (Z.ltb_spec 0 0) as [Hneg | _]; [lia |].
  replace (Z.min 0 (Z.of_nat (length l))) with 0%Z by lia.
  change (skipn (Z.to_nat 0) l) with l. rewrite Z.sub_0_r. reflexivity.
Qed.

Lemma StronglySorted_app_inv {A : Type} (R : A -> A -> Prop) (l1 l2 : list A) :
  StronglySorted R (l1 ++ l2) ->
  forall a b, In a l1 -> In b l2 -> R a b.
Proof.
  induction l1 as [| x l1 IH]; intros Hs a b Ha Hb; [destruct Ha |].
  cbn [app] in Hs. apply StronglySorted_inv in Hs as [Hs Hall].
  destruct Ha as [<- | Ha].
  - rewrite List.Forall_forall in Hall. apply Hall, in_or_app. right. exact Hb.
  - apply (IH Hs a b Ha Hb).
Qed.

(** The result of a search, as the first records of the sorted index. *)
Lemma searchLocalIndex_prefix (index : LocalIndex) (q : vector) (topK : option Z) :
  exists S : list (nat * LocalIndexItem),
    Permutation S (tag_from 0 (items index))
    /\ searchLocalIndex index q topK
       = List.map snd (firstn (slice_count (length (items index)) (default 4%Z topK)) S)
    /\ (Forall (fun item => is_nan (score_of q item) = false) (items index) ->
        StronglySorted
          (fun u v : nat * LocalIndexItem =>
             (float_key (score_of q (snd v)) <= float_key (score_of q (snd u)))%Z
             /\ (float_key (score_of q (snd u)) = float_key (score_of q (snd v))
                 -> (fst u < fst v)%nat)) S).
Proof.
  set (its := items index).
  set (g := fun p : nat * LocalIndexItem => (snd p, score_of q (snd p))).
  exists (js_sort (fun u v => by_score_desc (g u) (g v)) (tag_from 0 its)).
  split; [apply js_sort_perm |]. split.
  - unfold searchLocalIndex. fold its.
    change (match topK with Some k0 => k0 | None => 4%Z end) with (default 4%Z topK).
    rewrite <- (tag_from_snd its 0) at 1. rewrite List.map_map.
    change (fun x : nat * LocalIndexItem => (snd x, score_of q (snd x))) with g.
    rewrite js_sort_map, js_slice_from_start, List.firstn_map, List.map_map.
    rewrite length_map, (Permutation_length (js_sort_perm _ _)).
    rewrite <- (length_map fst), tag_from_fst, length_seq. reflexivity.
  - intros Hnan.
    apply (js_sort_sorted (fun p => score_of q (snd p)) fst).
    + rewrite <- (tag_from_snd its 0) in Hnan.
      apply List.Forall_map in Hnan. exact Hnan.
    + apply tag_from_sorted.
Qed.

(** Whatever the scores and [topK]: the records returned are records of
    the index, none twice unless it is twice in the index; their number is
    what [slice(0, topK)] keeps; with [topK] at least the size of the index,
    they are all its records. *)
Theorem searchLocalIndex_selects (index : LocalIndex) (q : vector) (topK : option Z) :
  let found := searchLocalIndex index q topK in
  let k := default 4%Z topK in
  exists rest,
    Permutation (found ++ rest) (items index)
    /\ length found = slice_count (length (items index)) k
    /\ ((Z.of_nat (length (items index)) <= k)%Z -> rest = []).
Proof.
  intros found k.
  destruct (searchLocalIndex_prefix index q topK) as (S & Hperm & Hfound & _).
  fold found k in Hfound.
  assert (HlenS : length S = length (items index)).
  { rewrite (Permutation_length Hperm), <- (length_map fst), tag_from_fst.
    apply length_seq. }
  exists (List.map snd (skipn (slice_count (length (items index)) k) S)).
  split; [| split].
  - rewrite Hfound, <- List.map_app, firstn_skipn.
    rewrite <- (tag_from_snd (items index) 0). apply Permutation_map, Hperm.
  - rewrite Hfound, length_map, length_firstn, HlenS. unfold slice_count.
    destruct (Z.ltb_spec k 0); lia.
  - intros Hall. rewrite skipn_all2; [reflexivity |].
    rewrite HlenS. unfold slice_count.
    destruct (Z.ltb_spec k 0); lia.
Qed.

(** When no similarity is [NaN], no record left out has a greater
    similarity than a record returned. *)
Theorem searchLocalIndex_best (index : LocalIndex) (q : vector) (topK : option Z) :
  Forall (fun item => is_nan (score_of q item) = false) (items index) ->
  let found := searchLocalIndex index q topK in
  exists rest,
    Permutation (found ++ rest) (items index)
    /\ forall a b, In a found -> In b rest ->
         (score_of q b <=? score_of q a)%float = true.
Proof.
  intros Hnan found.
  destruct (searchLocalIndex_prefix index q topK) as (S & Hperm & Hfound & Hsorted).
  fold found in Hfound. specialize (Hsorted Hnan).
  set (m := slice_count (length (items index)) (default 4%Z topK)) in *.
  exists (List.map snd (skipn m S)). split.
  - rewrite Hfound, <- List.map_app, firstn_skipn.
    rewrite <- (tag_from_snd (items index) 0). apply Permutation_map, Hperm.
  - intros a b Ha Hb. rewrite Hfound in Ha.
    apply in_map_iff in Ha as (u & <- & Hu). apply in_map_iff in Hb as (v & <- & Hv).
    pose proof Hsorted as Hsplit. rewrite <- (firstn_skipn m S) in Hsplit.
    destruct (StronglySorted_app_inv _ _ _ Hsplit u v Hu Hv) as [Hle _].
    assert (HnanS : forall w, In w S -> is_nan (score_of q (snd w)) = false).
    { intros w Hw. rewrite List.Forall_forall in Hnan. apply Hnan.
      rewrite <- (tag_from_snd (items index) 0). apply in_map.
      apply (Permutation_in _ Hperm Hw). }
    rewrite leb_key.
    + apply Z.leb_le, Hle.
    + apply HnanS. rewrite <- (firstn_skipn m S). apply in_or_app. right. exact Hv.
    + apply HnanS. rewrite <- (firstn_skipn m S). apply in_or_app. left. exact Hu.
Qed.

Lemma searchLocalIndex_best_witness :
  let found := searchLocalIndex scenario_index [1; 0]%float (Some 2%Z) in
  exists rest,
    Permutation (found ++ rest) (items scenario_index)
    /\ forall a b, In a found -> In b rest ->
         (score_of [1; 0]%float b <=? score_of [1; 0]%float a)%float = true.
Proof.
  apply (searchLocalIndex_best scenario_index [1; 0]%float (Some 2%Z)).
  repeat constructor.
Defined.

Lemma js_sort_ties {A : Type} (cmp : A -> A -> float) (l : list A) :
  (forall x y, In x l -> In y l -> (0 <? cmp x y)%float = false) ->
  js_sort cmp l = l.
Proof.
  induction l as [| x l IH]; intros H; cbn [js_sort]; [reflexivity |].
  rewrite IH by (intros a b Ha Hb; apply H; right; assumption).
  destruct l as [| y l]; [reflexivity |]. cbn [sort_insert].
  rewrite H; [reflexivity | left; reflexivity | right; left; reflexivity].
Qed.

(** A query of magnitude zero (the empty vector, the zero vector) gives
    every record the similarity 0: the search returns the first [topK]
    records of the index, in the order of the index. *)
Theorem searchLocalIndex_degenerate_query (index : LocalIndex) (q : vector) (k : Z) :
  falsy (magnitude q) = true -> (0 <= k)%Z ->
  searchLocalIndex index q (Some k) = firstn (Z.to_nat k) (items index).
Proof.
  intros Hq Hk. unfold searchLocalIndex.
  rewrite js_sort_ties.
  - rewrite js_slice_prefix by exact Hk.
    rewrite List.firstn_map, List.map_map. cbn [fst]. rewrite List.map_id. reflexivity.
  - intros x y Hx Hy.
    apply in_map_iff in Hx as (a & <- & _). apply in_map_iff in Hy as (b & <- & _).
    unfold by_score_desc, score_of. cbn [snd].
    rewrite !(cosineSimilarity_falsy_l q _ Hq). reflexivity.
Qed.

Lemma searchLocalIndex_degenerate_query_witness :
  searchLocalIndex scenario_index [0; 0]%float (Some 2%Z)
  = firstn (Z.to_nat 2) (items scenario_index).
Proof.
  apply (searchLocalIndex_degenerate_query scenario_index [0; 0]%float 2).
  - reflexivity.
  - lia.
Defined.

Lemma searchLocalIndex_within (index : LocalIndex) (q : vector) (k : Z) :
  (0 <= k)%Z ->
  let found := searchLocalIndex index q (Some k) in
  (length found <= Z.to_nat k)%nat
  /\ (length found <= length (items index))%nat
  /\ forall item, In item found -> In item (items index).
Proof.
  intros Hk found. subst found. unfold searchLocalIndex.
  rewrite js_slice_prefix by exact Hk.
  set (scored := List.map (fun item => (item, score_of q item)) (items index)).
  assert (Hperm : Permutation (js_sort by_score_desc scored) scored)
    by apply js_sort_perm.
  assert (Hlen : length (js_sort by_score_desc scored) = length (items index)).
  { rewrite (Permutation_length Hperm). unfold scored. apply length_map. }
  split; [| split].
  - rewrite length_map, length_firstn. lia.
  - rewrite length_map, length_firstn. lia.
  - intros item Hin. apply in_map_iff in Hin as ([it s] & <- & Hin).
    cbn [fst].
    assert (Hsc : In (it, s) scored).
    { apply (Permutation_in _ Hperm).
      rewrite <- (firstn_skipn (Z.to_nat k) (js_sort by_score_desc scored)).
      apply in_or_app. left. exact Hin. }
    unfold scored in Hsc. apply in_map_iff in Hsc as (x & Hx & Hx').
    injection Hx as <- _. exact Hx'.
Qed.

(** ** The index store: what a save keeps *)

Lemma cons_eq_inv {A : Type} (x y : A) (l l' : list A) :
  x :: l = y :: l' -> x = y /\ l = l'.
Proof. intros [= -> ->]. split; reflexivity. Qed.

Lemma stringify_number_fixed (x : float) :
  stringify_number x = JNum x -> json_safe x = true.
Proof.
  unfold stringify_number, json_safe.
  destruct (classify x) eqn:E; intros H; try reflexivity; try discriminate.
  injection H as H. rewrite <- H in E. vm_compute in E. discriminate.
Qed.

Lemma stringify_numbers_fixed (v : vector) :
  List.map stringify_value (List.map JNum v) = List.map JNum v ->
  forallb json_safe v = true.
Proof.
  induction v as [| x v IH]; cbn [List.map forallb stringify_value]; [reflexivity |].
  intros H. injection H as Hx Hv.
  rewrite (stringify_number_fixed x Hx), (IH Hv). reflexivity.
Qed.

Lemma stringify_item_fixed (item : LocalIndexItem) :
  stringify_value (item_value item) = item_value item ->
  item_json_safe item = true.
Proof.
  unfold item_value, metadata_value, item_json_safe.
  cbn [stringify_value List.map fst snd]. intros H.
  injection H as He Hc.
  rewrite (stringify_numbers_fixed _ He), (stringify_number_fixed _ Hc). reflexivity.
Qed.

Lemma stringify_items_fixed (its : list LocalIndexItem) :
  List.map stringify_value (List.map item_value its) = List.map item_value its ->
  forallb item_json_safe its = true.
Proof.
  induction its as [| item its IH]; cbn [List.map forallb]; [reflexivity |].
  intros H. apply cons_eq_inv in H as [Hitem Hits].
  rewrite (stringify_item_fixed item Hitem), (IH Hits). reflexivity.
Qed.

Lemma stringify_index_fixed (index : LocalIndex) :
  stringify_value (index_value index) = index_value index ->
  index_json_safe index = true.
Proof.
  unfold index_value, index_json_safe.
  cbn [stringify_value List.map fst snd]. intros H.
  injection H as Hd Hi.
  rewrite (stringify_number_fixed _ Hd), (stringify_items_fixed _ Hi). reflexivity.
Qed.

(** An index comes back from a save as it was exactly when all its numbers
    are finite and none is the negative zero. *)
Theorem roundtrip_exact_iff_json_safe (index : LocalIndex) (fs : filesystem) :
  readLocalIndex (writeLocalIndex index fs) = Ok (index_value index)
  <-> index_json_safe index = true.
Proof.
  rewrite readLocalIndex_writeLocalIndex. split.
  - intros H. apply stringify_index_fixed. congruence.
  - intros H. rewrite (stringify_index_safe index H). reflexivity.
Qed.

(** A save replaces the artifact whole: after two saves the file system is
    what the second save alone would have left. *)
Theorem writeLocalIndex_last_wins (a b : LocalIndex) (fs : filesystem) :
  writeLocalIndex b (writeLocalIndex a fs) = writeLocalIndex b fs.
Proof.
  unfold writeLocalIndex, writeLocalIndex_steps, writeFile_steps, fs_run.
  cbn [List.map app fold_left fs_exec files directories].
  rewrite !insert_insert_eq. f_equal.
  rewrite (assoc_L (∪)), (idemp_L (∪)). reflexivity.
Qed.

Lemma finite_not_nan (x : float) : finite x = true -> is_nan x = false.
Proof.
  intros H. destruct (is_nan x) eqn:E; [| reflexivity].
  apply is_nan_spec in E. unfold finite in H.
  rewrite classify_spec, E in H. discriminate.
Qed.

Lemma stringify_number_finite (x : float) :
  finite x = true ->
  exists y, stringify_number x = JNum y /\ same_number y x.
Proof.
  intros H. pose proof (finite_not_nan x H) as Hnan.
  unfold finite in H. unfold stringify_number, same_number.
  destruct (classify x) eqn:Hc; try discriminate.
  all: try (exists x; split; [reflexivity |];
            rewrite (eqb_key x x Hnan Hnan); apply Z.eqb_refl).
  exists 0%float. split; [reflexivity |].
  rewrite (eqb_key 0 x eq_refl Hnan).
  rewrite classify_spec in Hc. unfold float_key.
  destruct (Prim2SF x) as [s | s | | s m e]; cbn in Hc |- *.
  - reflexivity.
  - destruct s; discriminate.
  - discriminate.
  - destruct s; match type of Hc with (if ?b then _ else _) = _ => destruct b end;
      discriminate.
Qed.

Lemma stringify_numbers_finite (v : vector) :
  forallb finite v = true ->
  exists v', List.map stringify_value (List.map JNum v) = List.map JNum v'
             /\ Forall2 same_number v' v.
Proof.
  induction v as [| x v IH]; cbn [forallb List.map].
  - exists []. split; [reflexivity | constructor].
  - intros H. apply andb_true_iff in H as [Hx Hv].
    destruct (stringify_number_finite x Hx) as (y & Hy & Hsame).
    destruct (IH Hv) as (v' & Hv' & Hall).
    exists (y :: v'). cbn [stringify_value List.map]. rewrite Hy, Hv'.
    split; [reflexivity | constructor; assumption].
Qed.

Lemma stringify_item_finite (item : LocalIndexItem) :
  item_finite item = true ->
  exists item', stringify_value (item_value item) = item_value item'
                /\ same_item item' item.
Proof.
  unfold item_finite. intros H. apply andb_true_iff in H as [He Hc].
  destruct (stringify_numbers_finite _ He) as (v' & Hv' & Hall).
  destruct (stringify_number_finite _ Hc) as (c' & Hc' & Hsame).
  exists {| id := id item; embedding := v';
            metadata := {| text := text (metadata item);
                           source := source (metadata item);
                           chunk := c' |} |}.
  split.
  - unfold item_value, metadata_value.
    cbn [stringify_value List.map fst snd id embedding metadata text source chunk].
    rewrite Hv', Hc'. reflexivity.
  - unfold same_item. cbn. auto.
Qed.

Lemma stringify_items_finite (its : list LocalIndexItem) :
  forallb item_finite its = true ->
  exists its', List.map stringify_value (List.map item_value its)
               = List.map item_value its'
               /\ Forall2 same_item its' its.
Proof.
  induction its as [| item its IH]; cbn [forallb List.map].
  - exists []. split; [reflexivity | constructor].
  - intros H. apply andb_true_iff in H as [Hitem Hits].
    destruct (stringify_item_finite item Hitem) as (item' & Hitem' & Hsame).
    destruct (IH Hits) as (its' & Hits' & Hall).
    exists (item' :: its'). rewrite Hitem', Hits'.
    split; [reflexivity | constructor; assumption].
Qed.

(** An index whose numbers are finite is read back, after a save, as a
    value of the shape of [LocalIndex]: same model and date, same records
    in the same order with their [id], text and source, and every number
    equal to the one saved, the sign of a zero apart. *)
Theorem readLocalIndex_keeps_finite (index : LocalIndex) (fs : filesystem) :
  index_finite index = true ->
  exists value loaded,
    readLocalIndex (writeLocalIndex index fs) = Ok value
    /\ as_LocalIndex value = Some loaded
    /\ embeddingModel loaded = embeddingModel index
    /\ createdAt loaded = createdAt index
    /\ same_number (dimension loaded) (dimension index)
    /\ Forall2 same_item (items loaded) (items index).
Proof.
  unfold index_finite. intros H. apply andb_true_iff in H as [Hd Hi].
  destruct (stringify_number_finite _ Hd) as (d' & Hd' & Hsame).
  destruct (stringify_items_finite _ Hi) as (its' & Hits' & Hall).
  exists (stringify_value (index_value index)),
         {| embeddingModel := embeddingModel index; dimension := d';
            createdAt := createdAt index; items := its' |}.
  split; [apply readLocalIndex_writeLocalIndex |].
  split; [| cbn; auto].
  rewrite <- (as_LocalIndex_value {| embeddingModel := embeddingModel index;
                                     dimension := d';
                                     createdAt := createdAt index;
                                     items := its' |}).
  f_equal. unfold index_value.
  cbn [stringify_value List.map fst snd embeddingModel dimension createdAt items].
  rewrite Hd', Hits'. reflexivity.
Qed.

Lemma readLocalIndex_keeps_finite_witness :
  exists value loaded,
    readLocalIndex (writeLocalIndex negative_zero_index empty_fs) = Ok value
    /\ as_LocalIndex value = Some loaded
    /\ embeddingModel loaded = embeddingModel negative_zero_index
    /\ createdAt loaded = createdAt negative_zero_index
    /\ same_number (dimension loaded) (dimension negative_zero_index)
    /\ Forall2 same_item (items loaded) (items negative_zero_index).
Proof.
  apply (readLocalIndex_keeps_finite negative_zero_index empty_fs). reflexivity.
Defined.

(** ** Ingestion: the records of a run *)

Lemma lit_inj (s t : string) : lit s = lit t -> s = t.
Proof.
  unfold lit. intros H.
  rewrite <- (string_of_list_ascii_of_string s), <- (string_of_list_ascii_of_string t).
  f_equal. revert H. generalize (list_ascii_of_string s) (list_ascii_of_string t).
  induction l as [| a l IH]; intros [| b l']; cbn [List.map]; try discriminate;
    [reflexivity |].
  intros [= Hab Hl]. f_equal; [| apply IH, Hl].
  rewrite <- (ascii_N_embedding a), <- (ascii_N_embedding b), Hab. reflexivity.
Qed.

Lemma decimal_inj (z z' : Z) : decimal z = decimal z' -> z = z'.
Proof.
  unfold decimal. intros H. apply lit_inj in H. apply DecimalZ.to_int_inj.
  assert (Hnn : forall n : Z, Z.to_int n <> Decimal.Pos Decimal.Nil
                              /\ Z.to_int n <> Decimal.Neg Decimal.Nil).
  { intros [| p | p]; cbn [Z.to_int]; split; try discriminate;
      intros [= Hp]; apply (DecimalPos.Unsigned.to_uint_nonnil p Hp). }
  pose proof (NilZero.isi (Z.to_int z) (proj1 (Hnn z)) (proj2 (Hnn z))) as E1.
  pose proof (NilZero.isi (Z.to_int z') (proj1 (Hnn z')) (proj2 (Hnn z'))) as E2.
  rewrite H in E1. rewrite E1 in E2. injection E2 as E2. exact E2.
Qed.

Lemma digits_no_colon (d : Decimal.uint) :
  Forall (fun c => c <> 58%N) (lit (NilEmpty.string_of_uint d)).
Proof.
  induction d; cbn; constructor; try assumption; discriminate.
Qed.

Lemma decimal_no_colon (n : nat) : Forall (fun c => c <> 58%N) (decimal (Z.of_nat n)).
Proof.
  unfold decimal. destruct (Z.of_nat n) as [| p | p] eqn:E; [| | lia].
  - cbn. repeat constructor; discriminate.
  - cbn [Z.to_int NilZero.string_of_int]. unfold NilZero.string_of_uint.
    destruct (Pos.to_uint p) eqn:Ep; try apply digits_no_colon.
    cbn. repeat constructor; discriminate.
Qed.

Lemma app_separator_unique {A : Type} (x : A) (l1 l2 r1 r2 : list A) :
  Forall (fun c => c <> x) l1 -> Forall (fun c => c <> x) l2 ->
  l1 ++ x :: r1 = l2 ++ x :: r2 -> l1 = l2 /\ r1 = r2.
Proof.
  intros H1. revert l2. induction H1 as [| a l1 Ha _ IH]; intros l2 H2 E.
  - destruct H2 as [| b l2 Hb _]; cbn [app] in E.
    + injection E as ->. split; reflexivity.
    + injection E as <- _. congruence.
  - destruct H2 as [| b l2 Hb H2]; cbn [app] in E.
    + injection E as -> _. congruence.
    + injection E as -> E. destruct (IH l2 H2 E) as [-> ->]. split; reflexivity.
Qed.

(** The text that is hashed tells the source and the position apart. *)
Lemma vector_key_inj (source source' : jsstring) (i j : nat) :
  source ++ lit ":" ++ decimal (Z.of_nat i)
  = source' ++ lit ":" ++ decimal (Z.of_nat j) ->
  source = source' /\ i = j.
Proof.
  intros E. apply (f_equal (@rev N)) in E.
  rewrite !rev_app_distr in E. change (rev (lit ":")) with [58%N] in E.
  rewrite <- !app_assoc in E. cbn [app] in E.
  apply app_separator_unique in E as [Hd Hs].
  - apply (f_equal (@rev N)) in Hd, Hs. rewrite !rev_involutive in Hd, Hs.
    split; [exact Hs |]. apply decimal_inj in Hd. lia.
  - apply Forall_rev, decimal_no_colon.
  - apply Forall_rev, decimal_no_colon.
Qed.

(** Two records with the same id have the same source and position, or
    show a collision of the hash. *)
Theorem vectorId_collision (env : ingest_env) (source source' : jsstring) (i j : nat) :
  vectorId env source i = vectorId env source' j ->
  (source = source' /\ i = j)
  \/ exists x y, x <> y /\ sha1_hex env x = sha1_hex env y.
Proof.
  unfold vectorId. intros H.
  destruct (decide (source ++ lit ":" ++ decimal (Z.of_nat i)
                    = source' ++ lit ":" ++ decimal (Z.of_nat j))) as [E | E].
  - left. apply vector_key_inj, E.
  - right. eauto.
Qed.

Lemma vectorId_collision_witness :
  (lit "docs/a.pdf" = lit "docs/a.pdf" /\ 3%nat = 3%nat)
  \/ exists x y, x <> y /\ sha1_hex one_doc_env x = sha1_hex one_doc_env y.
Proof.
  apply (vectorId_collision one_doc_env (lit "docs/a.pdf") (lit "docs/a.pdf") 3 3).
  reflexivity.
Defined.

Lemma embed_chunks_ok (env : ingest_env) (src : jsstring) (chunks : list jsstring) :
  forall (i : nat) (acc out : list LocalIndexItem),
    embed_chunks env src i chunks acc = Ok out ->
    exists new,
      out = acc ++ new
      /\ List.map (fun item => text (metadata item)) new = chunks
      /\ forall k item, new !! k = Some item ->
           chunks !! k = Some (text (metadata item))
           /\ item = item_of env src (i + k) (text (metadata item)) (embedding item)
           /\ embedText (config env)
                (embed_service env src (i + k) (text (metadata item)))
              = Ok (embedding item).
Proof.
  induction chunks as [| c rest IH]; intros i acc out H; cbn [embed_chunks] in H.
  - injection H as <-. exists []. rewrite app_nil_r.
    split; [reflexivity |]. split; [reflexivity |]. intros k item Hk. discriminate.
  - destruct (embedText (config env) (embed_service env src i c)) as [e | err] eqn:E;
      [| discriminate].
    destruct (IH _ _ _ H) as (new & -> & Htexts & Hitems).
    exists (item_of env src i c e :: new). rewrite <- app_assoc. cbn [app].
    split; [reflexivity |]. split; [cbn [List.map]; rewrite Htexts; reflexivity |].
    intros [| k] item Hk.
    + injection Hk as <-. rewrite Nat.add_0_r. cbn.
      split; [reflexivity |]. split; [reflexivity | exact E].
    + replace (i + S k)%nat with (S i + k)%nat by lia. apply Hitems, Hk.
Qed.

Lemma ingested_more (env : ingest_env) (docs docs' : list (jsstring * document))
    (item : LocalIndexItem) :
  (forall fd, In fd docs -> In fd docs') ->
  ingested env docs item -> ingested env docs' item.
Proof.
  intros Hsub (file & doc & k & Hin & H). exists file, doc, k.
  split; [apply Hsub, Hin | exact H].
Qed.

Lemma ingest_files_ok (env : ingest_env) (todo : list (jsstring * document)) :
  forall (acc out : list LocalIndexItem),
    ingest_files env todo acc = Some (Ok out) ->
    exists new,
      out = acc ++ new
      /\ List.map (fun item => text (metadata item)) new
         = concat (List.map (fun fd => fragments_of (snd fd)) todo)
      /\ Forall (ingested env todo) new.
Proof.
  induction todo as [| [file doc] rest IH]; intros acc out H; cbn [ingest_files] in H.
  - assert (out = acc) by congruence. subst out. exists []. rewrite app_nil_r.
    repeat split. constructor.
  - destruct doc as [e | e | t]; try discriminate.
    destruct (splitText (default [] t) CHUNK_SIZE CHUNK_OVERLAP) as [chunks |] eqn:Hsplit;
      [| discriminate].
    fold (source_of env file) in H.
    destruct (embed_chunks env (source_of env file) 0 chunks acc) as [mid | err] eqn:Hmid;
      [| discriminate].
    destruct (embed_chunks_ok _ _ _ _ _ _ Hmid) as (new1 & -> & Ht1 & Hi1).
    destruct (IH _ _ H) as (new2 & -> & Ht2 & Hi2).
    exists (new1 ++ new2). rewrite app_assoc. split; [reflexivity |]. split.
    + rewrite List.map_app, Ht1, Ht2. cbn [List.map concat snd fragments_of].
      rewrite Hsplit. reflexivity.
    + apply Forall_app. split.
      * apply Forall_lookup. intros k item Hk.
        destruct (Hi1 k item Hk) as (Hchunk & Hitem & Hembed). cbn [Nat.add] in *.
        exists file, (Parsed t), k. split; [left; reflexivity |].
        split; [| split; assumption].
        cbn [fragments_of]. rewrite Hsplit. exact Hchunk.
      * eapply Forall_impl; [exact Hi2 |]. intros item.
        apply ingested_more. intros fd Hfd. right. exact Hfd.
Qed.


(** What a run that succeeds has written. *)
Lemma run_ok (env : ingest_env) (fs fs' : filesystem) :
  run env fs = Some (Ok tt, fs') ->
  exists first others,
    ingest_files env (pdfFiles env) [] = Some (Ok (first :: others))
    /\ fs' = writeLocalIndex
               {| embeddingModel := OLLAMA_EMBED_MODEL (config env);
                  dimension := number_of_nat (length (embedding first));
                  createdAt := now env;
                  items := first :: others |}
               (fs_exec fs (Mkdir_recursive DOCS_DIR)).
Proof.
  unfold run. destruct (pdfFiles env) as [| fd rest] eqn:Hfiles; [discriminate |].
  destruct (parser_fails env); [discriminate |].
  destruct (ingest_files env (fd :: rest) []) as [[[| first others] | e] |];
    try discriminate.
  intros [= <-]. exists first, others. split; reflexivity.
Qed.



Lemma ingest_files_parsed (env : ingest_env) (todo : list (jsstring * document)) :
  forall (acc out : list LocalIndexItem),
    ingest_files env todo acc = Some (Ok out) ->
    Forall (fun fd : jsstring * document => exists t, snd fd = Parsed t) todo.
Proof.
  induction todo as [| [file doc] rest IH]; intros acc out H; [constructor |].
  cbn [ingest_files] in H.
  destruct doc as [e | e | t]; try discriminate.
  destruct (splitText (default [] t) CHUNK_SIZE CHUNK_OVERLAP) as [chunks |];
    [| discriminate].
  destruct (embed_chunks env _ 0 chunks acc) as [mid | err]; [| discriminate].
  constructor; [exists t; reflexivity | apply (IH _ _ H)].
Qed.

(** The texts of the records of the index a run has written are the
    fragments of the documents, document after document in the order they
    were found, each document's fragments in their order: no fragment is
    left out, none is added.  Every document was read and parsed. *)
Theorem run_writes_every_fragment (env : ingest_env) (fs fs' : filesystem) :
  run env fs = Some (Ok tt, fs') ->
  exists index,
    fs' = writeLocalIndex index (fs_exec fs (Mkdir_recursive DOCS_DIR))
    /\ List.map (fun item => text (metadata item)) (items index)
       = concat (List.map (fun fd => fragments_of (snd fd)) (pdfFiles env))
    /\ Forall (fun fd : jsstring * document => exists t, snd fd = Parsed t)
              (pdfFiles env).
Proof.
  intros H. destruct (run_ok env fs fs' H) as (first & others & Hfiles & ->).
  eexists. split; [reflexivity |]. cbn [items].
  destruct (ingest_files_ok env _ _ _ Hfiles) as (new & Hnew & Htexts & _).
  cbn [app] in Hnew. subst new.
  split; [exact Htexts | apply (ingest_files_parsed env _ _ _ Hfiles)].
Qed.

Lemma run_writes_every_fragment_witness :
  let fs' := writeLocalIndex one_doc_index
               (fs_exec empty_fs (Mkdir_recursive DOCS_DIR)) in
  exists index,
    fs' = writeLocalIndex index (fs_exec empty_fs (Mkdir_recursive DOCS_DIR))
    /\ List.map (fun item => text (metadata item)) (items index)
       = concat (List.map (fun fd => fragments_of (snd fd)) (pdfFiles one_doc_env))
    /\ Forall (fun fd : jsstring * document => exists t, snd fd = Parsed t)
              (pdfFiles one_doc_env).
Proof.
  apply (run_writes_every_fragment one_doc_env empty_fs). reflexivity.
Defined.

Lemma embed_chunks_ids (env : ingest_env) (src : jsstring) (chunks : list jsstring) :
  forall (i : nat) (acc out : list LocalIndexItem),
    embed_chunks env src i chunks acc = Ok out ->
    exists new,
      out = acc ++ new
      /\ List.map id new
         = List.map (fun k => sha1_hex env (id_text (src, k))) (seq i (length chunks)).
Proof.
  induction chunks as [| c rest IH]; intros i acc out H; cbn [embed_chunks] in H.
  - injection H as <-. exists []. rewrite app_nil_r. split; reflexivity.
  - destruct (embedText (config env) (embed_service env src i c)) as [e | err];
      [| discriminate].
    destruct (IH _ _ _ H) as (new & -> & Hids).
    eexists (_ :: new). rewrite <- app_assoc. cbn [app]. split; [reflexivity |].
    cbn [List.map length seq id]. rewrite Hids. reflexivity.
Qed.

Lemma ingest_files_ids (env : ingest_env) (todo : list (jsstring * document)) :
  forall (acc out : list LocalIndexItem),
    ingest_files env todo acc = Some (Ok out) ->
    exists new,
      out = acc ++ new
      /\ List.map id new
         = List.map (fun key => sha1_hex env (id_text key)) (fragment_keys env todo).
Proof.
  induction todo as [| [file doc] rest IH]; intros acc out H; cbn [ingest_files] in H.
  - assert (out = acc) by congruence. subst out. exists []. rewrite app_nil_r.
    split; reflexivity.
  - destruct doc as [e | e | t]; try discriminate.
    destruct (splitText (default [] t) CHUNK_SIZE CHUNK_OVERLAP) as [chunks |] eqn:Hsplit;
      [| discriminate].
    fold (source_of env file) in H.
    destruct (embed_chunks env (source_of env file) 0 chunks acc) as [mid | err] eqn:Hmid;
      [| discriminate].
    destruct (embed_chunks_ids _ _ _ _ _ _ Hmid) as (new1 & -> & H1).
    destruct (IH _ _ H) as (new2 & -> & H2).
    exists (new1 ++ new2). rewrite app_assoc. split; [reflexivity |].
    unfold fragment_keys. cbn [flat_map fst snd fragments_of]. rewrite Hsplit.
    cbn [default]. rewrite !List.map_app, H1, H2, List.map_map. reflexivity.
Qed.

Lemma fragment_keys_sources (env : ingest_env) (docs : list (jsstring * document))
    (key : jsstring * nat) :
  In key (fragment_keys env docs) ->
  In (fst key) (List.map (fun fd => source_of env (fst fd)) docs).
Proof.
  unfold fragment_keys. intros H. apply in_flat_map in H as (fd & Hfd & Hkey).
  apply in_map_iff in Hkey as (k & <- & _). cbn [fst].
  apply in_map_iff. exists fd. split; [reflexivity | exact Hfd].
Qed.

Lemma fragment_keys_NoDup (env : ingest_env) (docs : list (jsstring * document)) :
  List.NoDup (List.map (fun fd => source_of env (fst fd)) docs) ->
  List.NoDup (fragment_keys env docs).
Proof.
  induction docs as [| fd rest IH]; cbn [List.map]; intros H; [constructor |].
  apply NoDup_cons_iff in H as [Hfresh Hrest].
  change (fragment_keys env (fd :: rest))
    with (List.map (fun k => (source_of env (fst fd), k))
            (seq 0 (length (fragments_of (snd fd))))
          ++ fragment_keys env rest).
  apply List.NoDup_app.
  - apply NoDup_map_NoDup_ForallPairs; [| apply seq_NoDup].
    intros a b _ _ [= E]. exact E.
  - apply IH, Hrest.
  - intros key H1 H2. apply in_map_iff in H1 as (k & <- & _).
    apply fragment_keys_sources in H2. cbn [fst] in H2. exact (Hfresh H2).
Qed.

(** When the documents have different sources and no two of the texts
    hashed for their fragments collide, the records of the index a run
    has written have different ids: the ids are the hashes of
    [source:position], fragment after fragment. *)
Theorem run_ids_distinct (env : ingest_env) (fs fs' : filesystem) :
  run env fs = Some (Ok tt, fs') ->
  List.NoDup (List.map (fun fd => source_of env (fst fd)) (pdfFiles env)) ->
  (forall a b,
     In a (fragment_keys env (pdfFiles env)) ->
     In b (fragment_keys env (pdfFiles env)) ->
     sha1_hex env (id_text a) = sha1_hex env (id_text b) ->
     id_text a = id_text b) ->
  exists index,
    fs' = writeLocalIndex index (fs_exec fs (Mkdir_recursive DOCS_DIR))
    /\ List.map id (items index)
       = List.map (fun key => vectorId env (fst key) (snd key))
           (fragment_keys env (pdfFiles env))
    /\ List.NoDup (List.map id (items index)).
Proof.
  intros H Hsources Hhash.
  destruct (run_ok env fs fs' H) as (first & others & Hfiles & ->).
  eexists. split; [reflexivity |]. cbn [items].
  destruct (ingest_files_ids env _ _ _ Hfiles) as (new & Hnew & Hids).
  cbn [app] in Hnew. subst new. split.
  - rewrite Hids. apply map_ext. intros [s k]. reflexivity.
  - rewrite Hids. apply NoDup_map_NoDup_ForallPairs.
    + intros a b Ha Hb E. apply Hhash in E; [| assumption ..].
      destruct a as [s k], b as [s' k']. unfold id_text in E. cbn [fst snd] in E.
      apply vector_key_inj in E as [-> ->]. reflexivity.
    + apply fragment_keys_NoDup, Hsources.
Qed.

Lemma run_ids_distinct_witness :
  let fs' := writeLocalIndex two_docs_index
               (fs_exec empty_fs (Mkdir_recursive DOCS_DIR)) in
  exists index,
    fs' = writeLocalIndex index (fs_exec empty_fs (Mkdir_recursive DOCS_DIR))
    /\ List.map id (items index)
       = List.map (fun key => vectorId two_docs_env (fst key) (snd key))
           (fragment_keys two_docs_env (pdfFiles two_docs_env))
    /\ List.NoDup (List.map id (items index)).
Proof.
  apply (run_ids_distinct two_docs_env empty_fs).
  - vm_compute. reflexivity.
  - constructor; [| constructor; [| constructor]].
    + cbn. intros [H | []]. discriminate H.
    + intros [].
  - intros a b _ _ E. exact E.
Defined.

Example run_two_documents :
  List.map id (items two_docs_index)
  = [lit "docs/a.pdf:0"; lit "docs/a.pdf:1"; lit "docs/b.pdf:0"].
Proof. reflexivity. Qed.

(** ** The chat endpoint *)

(** The function of the ingestion on the answers that have the type the
    code names: a vector is returned for what [embedText_unchecked]
    returns as the array of its numbers. *)
Lemma embedText_of_typed (cfg : ollama_config) (net : fetch_result) (v : vector) :
  embedText cfg net = Ok v
  <-> embedText_unchecked cfg (fetched_of net) = Ok (JArr (List.map JNum v)).
Proof.
  assert (Hinj : forall a b : vector, List.map JNum a = List.map JNum b -> a = b).
  { induction a as [| x a IH]; intros [| y b] E; try discriminate; [reflexivity |].
    injection E as -> E. f_equal. apply IH, E. }
  unfold embedText, embedText_unchecked, fetched_of.
  destruct net as [message | [|] status body [data |]]; cbn [option_map];
    try (split; discriminate).
  unfold extract_embedding, text_embedding, embed_data_value, read.
  destruct data as [[[| first rest] |] [second |]]; cbn [data_embeddings data_embedding app assoc List.map];
    eval_keys; cbn [and_then truthy]; split; intros H;
    try discriminate; try (injection H as H); try (apply Hinj in H); subst;
    try reflexivity.
Qed.

(** Ingestion and query read an answer of the embedding service alike
    where it holds a vector: what [embedText] returns for an answer,
    [embedQuery] returns (and stores) for it when the input is not in the
    cache.  The query accepts more: what it returns and [embedText] does
    not is no array, and [embedText] throws for it. *)
Theorem embedQuery_agrees_embedText (cfg : ollama_config) (input : jsstring)
    (net : fetched) (cache : gmap jsstring json) (v : json) :
  cache !! input = None ->
  (embedText_unchecked cfg net = Ok v ->
   embedQuery cfg input net cache = (Ok v, <[input := v]> cache))
  /\ (fst (embedQuery cfg input net cache) = Ok v ->
      embedText_unchecked cfg net = Ok v
      \/ ((forall elements, v <> JArr elements)
          /\ embedText_unchecked cfg net
             = Err (Error_ (lit "Ollama embedding response did not include an embedding vector")))).
Proof.
  intros Hmiss. unfold embedQuery. rewrite Hmiss.
  unfold request_embedding, embedText_unchecked, query_embedding, text_embedding.
  destruct net as [message | [|] status body [data |]];
    try (split; discriminate).
  destruct (read "embeddings" (Some data)) as [embeddings | e];
    cbn [and_then]; [| split; discriminate].
  assert (Hpick : forall first : json, truthy first = true ->
            (Ok first = Ok v -> (@Ok json first, <[input := first]> cache)
                                = (Ok v, <[input := v]> cache))
            /\ (Ok first = Ok v ->
                @Ok json first = Ok v
                \/ ((forall elements, v <> JArr elements)
                    /\ @Ok json first
                       = Err (Error_ (lit "Ollama embedding response did not include an embedding vector"))))).
  { intros first _. split; [intros [= <-]; reflexivity | intros H; left; exact H]. }
  destruct (read "embedding" (Some data)) as [[found |] | e];
    destruct embeddings as [[| eb | ex | es | [| first rest] | em] |];
    cbn [and_then];
    try (destruct (truthy first) eqn:Hfirst; cbn [and_then];
         [rewrite ?Hfirst; cbn [fst]; apply (Hpick first Hfirst) |]);
    try (split; discriminate);
    destruct found as [| flag | number | string | elements | members];
    cbn [and_then truthy fst];
    try (split; discriminate);
    try (destruct flag); try (destruct (negb (falsy number))); try (destruct string);
    cbn [fst];
    try (split; discriminate);
    (split; [try discriminate; intros [= <-]; reflexivity
            | intros [= <-]; first [left; reflexivity
                                   | right; split; [discriminate | reflexivity]]]).
Qed.

Lemma embedQuery_agrees_embedText_witness :
  let cfg := {| OLLAMA_BASE_URL := lit "http://127.0.0.1:11434";
                OLLAMA_EMBED_MODEL := lit "nomic-embed-text" |} in
  let net :=
    Answered true 200 []
      (Some (JObj [(lit "embeddings", JArr [JArr [JNum 1%float; JNum 0%float]])])) in
  let v := JArr [JNum 1%float; JNum 0%float] in
  (embedText_unchecked cfg net = Ok v ->
   embedQuery cfg (lit "which one?") net ∅ = (Ok v, <[lit "which one?" := v]> ∅))
  /\ (fst (embedQuery cfg (lit "which one?") net ∅) = Ok v ->
      embedText_unchecked cfg net = Ok v
      \/ ((forall elements, v <> JArr elements)
          /\ embedText_unchecked cfg net
             = Err (Error_ (lit "Ollama embedding response did not include an embedding vector")))).
Proof.
  apply (embedQuery_agrees_embedText
           {| OLLAMA_BASE_URL := lit "http://127.0.0.1:11434";
              OLLAMA_EMBED_MODEL := lit "nomic-embed-text" |}
           (lit "which one?")
           (Answered true 200 []
              (Some (JObj [(lit "embeddings",
                            JArr [JArr [JNum 1%float; JNum 0%float]])])))
           ∅ (JArr [JNum 1%float; JNum 0%float])).
  reflexivity.
Defined.

(** The messages sent to the chat service: the system prompt first, then
    the turns of the history in their order, each as a user message
    followed by an assistant message, and the question last, as a user
    message. *)
Theorem chat_messages_turns (question context : jsstring)
    (history : list (jsstring * jsstring)) :
  let messages := chat_messages question context history in
  length messages = (2 * length history + 2)%nat
  /\ messages !! 0%nat = Some (system, systemPrompt)
  /\ (forall i turn, history !! i = Some turn ->
        messages !! (2 * i + 1)%nat = Some (user, fst turn)
        /\ messages !! (2 * i + 2)%nat = Some (assistant, snd turn))
  /\ exists content,
       messages !! (2 * length history + 1)%nat = Some (user, content)
       /\ exists before, content = before ++ lit "Question: " ++ question
                           ++ [10%N; 10%N] ++ lit "Helpful answer in markdown:".
Proof.
  intros messages. subst messages. unfold chat_messages.
  set (final := (user, _)).
  set (turns := flat_map _ history).
  assert (Hlen : length turns = (2 * length history)%nat).
  { unfold turns. induction history as [| t h IH]; [reflexivity |].
    cbn [flat_map length app]. rewrite IH. lia. }
  assert (Hturns : forall i turn, history !! i = Some turn ->
            turns !! (2 * i)%nat = Some (user, fst turn)
            /\ turns !! (2 * i + 1)%nat = Some (assistant, snd turn)).
  { unfold turns. clear Hlen. induction history as [| t h IH]; intros i turn Hi.
    - destruct i; discriminate.
    - destruct i as [| i].
      + injection Hi as <-. split; reflexivity.
      + cbn [flat_map app]. replace (2 * S i)%nat with (S (S (2 * i))) by lia.
        apply (IH i turn Hi). }
  split; [| split; [| split]].
  - cbn [length]. rewrite length_app, Hlen. cbn [length]. lia.
  - reflexivity.
  - intros i turn Hi. destruct (Hturns i turn Hi) as [Hu Ha].
    replace (2 * i + 1)%nat with (S (2 * i)) by lia.
    replace (2 * i + 2)%nat with (S (2 * i + 1)) by lia.
    cbn [lookup list_lookup]. fold (@lookup nat message (list message) _).
    split; apply lookup_app_l_Some; assumption.
  - eexists. split.
    + replace (2 * length history + 1)%nat with (S (2 * length history)) by lia.
      change (((system, systemPrompt) :: turns ++ [final]) !! S (2 * length history))
        with ((turns ++ [final]) !! (2 * length history)%nat).
      rewrite <- Hlen. rewrite list_lookup_middle by reflexivity. reflexivity.
    + exists (lit "Context:" ++ [10%N] ++ context ++ [10%N; 10%N]).
      rewrite <- !app_assoc. reflexivity.
Qed.

(** ** The chat endpoint: what the handler answers *)

Lemma and_then_Ok {A B : Type} (r : result A) (k : A -> result B) (b : B) :
  and_then r k = Ok b -> exists a, r = Ok a /\ k a = Ok b.
Proof. destruct r as [a | e]; cbn; [eauto | discriminate]. Qed.

Lemma and_then_Err {A B : Type} (r : result A) (k : A -> result B) (e : error) :
  and_then r k = Err e -> r = Err e \/ exists a, r = Ok a /\ k a = Err e.
Proof. destruct r as [a | e']; cbn; [eauto | intros [= <-]; auto]. Qed.

Lemma raises_Ok {A : Type} (a : A) : raises_TypeError (Ok a).
Proof. intros e; discriminate. Qed.

Lemma raises_Err {A : Type} : raises_TypeError (@Err A TypeError).
Proof. intros e [= <-]; reflexivity. Qed.

Lemma raises_and_then {A B : Type} (r : result A) (k : A -> result B) :
  raises_TypeError r -> (forall a, r = Ok a -> raises_TypeError (k a)) ->
  raises_TypeError (and_then r k).
Proof.
  intros Hr Hk e He. destruct (and_then_Err _ _ _ He) as [H | (a & Ha & H)].
  - exact (Hr e H).
  - exact (Hk a Ha e H).
Qed.

Create HintDb raises.
#[local] Hint Resolve raises_Ok raises_Err : raises.

Lemma json_elements_ind (P : json -> Prop) :
  P JNull -> (forall flag, P (JBool flag)) -> (forall x, P (JNum x)) ->
  (forall s, P (JStr s)) ->
  (forall elements, Forall P elements -> P (JArr elements)) ->
  (forall members, P (JObj members)) ->
  forall v, P v.
Proof.
  intros HNull HBool HNum HStr HArr HObj. fix IH 1.
  intros [| flag | x | s | elements | members];
    [exact HNull | apply HBool | apply HNum | apply HStr | | apply HObj].
  apply HArr. induction elements as [| first rest IHrest]; constructor;
    [apply IH | exact IHrest].
Qed.

Lemma read_raises (name : string) (v : option json) :
  raises_TypeError (read name v).
Proof.
  destruct v as [[| flag | x | s | elements | members] |]; cbn; auto with raises.
Qed.

Lemma iterable_raises (v : option json) : raises_TypeError (iterable v).
Proof.
  destruct v as [[| flag | x | s | elements | members] |]; cbn; auto with raises.
Qed.

Lemma ToString_raises (E : engine) : forall v, raises_TypeError (ToString E v).
Proof.
  intros v. induction v as [| [|] | x | s | elements IH | members]
    using json_elements_ind; cbn [ToString]; auto with raises.
  - induction IH as [| first rest Hfirst _ IHrest]; [auto with raises |].
    apply raises_and_then.
    + destruct first; auto with raises.
    + intros head _. destruct rest as [| second rest]; [auto with raises |].
      apply raises_and_then; [exact IHrest | auto with raises].
  - destruct (assoc (lit "toString") members); auto with raises.
Qed.

Lemma ToNumber_raises (E : engine) (v : option json) :
  raises_TypeError (ToNumber E v).
Proof.
  destruct v as [[| [|] | x | s | elements | members] |]; cbn [ToNumber];
    auto with raises;
    (apply raises_and_then; [apply ToString_raises | auto with raises]).
Qed.

Lemma map_results_raises {A B : Type} (f : A -> result B) (l : list A) :
  (forall a, raises_TypeError (f a)) -> raises_TypeError (map_results f l).
Proof.
  intros Hf. induction l as [| a rest IH]; cbn [map_results]; [auto with raises |].
  apply raises_and_then; [apply Hf |]. intros b _.
  apply raises_and_then; [exact IH | auto with raises].
Qed.

Lemma magnitude_unchecked_raises (E : engine) (values : option json) :
  raises_TypeError (magnitude_unchecked E values).
Proof.
  unfold magnitude_unchecked. apply raises_and_then; [apply iterable_raises |].
  intros s _. apply raises_and_then; [| auto with raises].
  generalize (raises_Ok 0%float).
  generalize (Ok 0%float) as total. 
  induction (visited s) as [| value rest IH]; intros total Htotal; cbn [fold_left];
    [exact Htotal |].
  apply IH. apply raises_and_then; [exact Htotal |]. intros sum _.
  apply raises_and_then; [apply ToNumber_raises | auto with raises].
Qed.

Lemma dotProduct_steps_raises (E : engine) (n : nat) :
  forall i a b total, raises_TypeError (dotProduct_steps E n i a b total).
Proof.
  induction n as [| n IH]; intros i a b total; cbn [dotProduct_steps];
    [auto with raises |].
  apply raises_and_then; [apply ToNumber_raises |]. intros x _.
  apply raises_and_then; [apply ToNumber_raises |]. intros y _. apply IH.
Qed.

Lemma cosineSimilarity_unchecked_raises (E : engine) (a b : option json) :
  raises_TypeError (cosineSimilarity_unchecked E a b).
Proof.
  unfold cosineSimilarity_unchecked.
  apply raises_and_then; [apply magnitude_unchecked_raises |]. intros magA _.
  apply raises_and_then; [apply magnitude_unchecked_raises |]. intros magB _.
  destruct (falsy magA || falsy magB); [auto with raises |].
  apply raises_and_then; [apply iterable_raises |]. intros sa _.
  apply raises_and_then; [apply iterable_raises |]. intros sb _.
  apply raises_and_then; [apply dotProduct_steps_raises | auto with raises].
Qed.

Lemma searchLocalIndex_unchecked_raises (E : engine) (index q : json) (k : Z) :
  raises_TypeError (searchLocalIndex_unchecked E index q k).
Proof.
  unfold searchLocalIndex_unchecked.
  apply raises_and_then; [apply read_raises |].
  intros [[| flag | x | s | elements | members] |] _; auto with raises.
  apply raises_and_then; [| auto with raises].
  apply map_results_raises. intros item. unfold scored_item.
  apply raises_and_then; [apply read_raises |]. intros embedding _.
  apply raises_and_then; [apply cosineSimilarity_unchecked_raises | auto with raises].
Qed.

Lemma source_document_raises (item : json) :
  raises_TypeError (source_document item).
Proof.
  unfold source_document.
  apply raises_and_then; [apply read_raises |]. intros metadata _.
  apply raises_and_then; [apply read_raises |]. intros text _.
  apply raises_and_then; [apply read_raises |]. intros source _.
  apply raises_and_then; [apply read_raises | auto with raises].
Qed.

Lemma join_values_raises (E : engine) (sep : jsstring) (values : list (option json)) :
  raises_TypeError (join_values E sep values).
Proof.
  induction values as [| value rest IH]; cbn [join_values]; [auto with raises |].
  apply raises_and_then.
  - destruct value as [[| flag | x | s | elements | members] |];
      auto with raises; apply ToString_raises.
  - intros head _. destruct rest as [| second rest]; [auto with raises |].
    apply raises_and_then; [exact IH | auto with raises].
Qed.

Lemma turns_of_raises (history : json) : raises_TypeError (turns_of history).
Proof.
  destruct history as [| flag | x | s | entries | members]; cbn [turns_of];
    auto with raises.
  apply map_results_raises. intros entry. unfold turn_of.
  apply raises_and_then; [apply iterable_raises | auto with raises].
Qed.

Lemma answer_text_raises (data : json) : raises_TypeError (answer_text data).
Proof.
  unfold answer_text.
  apply raises_and_then; [apply read_raises |]. intros message _.
  apply raises_and_then; [| auto with raises].
  destruct message as [[| flag | x | s | elements | members] |];
    auto with raises; apply read_raises.
Qed.

Lemma jsstring_eqb_eq (a b : jsstring) : jsstring_eqb a b = true -> a = b.
Proof.
  revert b. induction a as [| x a IH]; intros [| y b]; cbn; try discriminate;
    [reflexivity |].
  intros H. apply andb_prop in H as [Hxy Hab]. apply N.eqb_eq in Hxy.
  f_equal; [exact Hxy | apply IH; exact Hab].
Qed.

Lemma sanitize_no_line_feed (s : jsstring) : ~ In 10%N (sanitize s).
Proof.
  unfold sanitize, replace_line_feeds. intros H.
  apply in_map_iff in H as (c & Hc & _).
  destruct (c =? 10)%N eqn:E; [discriminate |].
  apply N.eqb_neq in E. contradiction.
Qed.

(** The scenario: the three records of the index are the source documents
    of the answer, in the order of their scores, and the embedding of the
    sanitized question is in the cache.  No engine is asked for a
    conversion or for an order. *)
Lemma scenario_handler (E : engine) :
  handler scenario_config scenario_request
    (world_of E (writeLocalIndex scenario_index empty_fs)) ∅
  = (Replied scenario_response, {[ lit "which one?" := scenario_embedding ]}).
Proof. vm_compute. reflexivity. Qed.

(** An artifact that is JSON and has not the shape of an index is not
    refused when it is read.  With [{}] the embedding is asked for and
    stored, and the search throws; with [{ "items": [] }] the handler
    answers, with no source document. *)
Lemma handler_on_braces (E : engine) :
  handler scenario_config scenario_request (world_of E braces_fs) ∅
  = (Replied {| status := 500; payload := RaisedBody TypeError |},
     {[ lit "which one?" := scenario_embedding ]}).
Proof. vm_compute. reflexivity. Qed.

Lemma handler_on_no_items (E : engine) :
  handler scenario_config scenario_request (world_of E no_items_fs) ∅
  = (Replied {| status := 200;
                payload := ChatBody (JStr (lit "an answer")) [] |},
     {[ lit "which one?" := scenario_embedding ]}).
Proof. vm_compute. reflexivity. Qed.

Lemma embedQuery_returns (cfg : ollama_config) (input : jsstring) (net : fetched)
    (cache cache' : gmap jsstring json) (v : json) :
  embedQuery cfg input net cache = (Ok v, cache') ->
  truthy v = true /\ cache' !! input = Some v.
Proof.
  unfold embedQuery.
  assert (Hreq : match request_embedding cfg net with
                 | Ok embedding => (Ok embedding, <[input := embedding]> cache)
                 | Err e => (Err e, cache)
                 end = (Ok v, cache') ->
                 truthy v = true /\ cache' !! input = Some v).
  { destruct (request_embedding cfg net) as [found | e] eqn:Hfound;
      [| discriminate].
    intros [= -> <-]. split; [| apply lookup_insert_eq].
    apply (request_embedding_truthy cfg net v Hfound). }
  destruct (cache !! input) as [cached |] eqn:Hget; [| exact Hreq].
  destruct (truthy cached) eqn:Hcached; [| exact Hreq].
  intros [= -> <-]. split; assumption.
Qed.

Lemma embedQuery_leaves (cfg : ollama_config) (input : jsstring) (net : fetched)
    (cache cache' : gmap jsstring json) (r : result json) :
  map_Forall (fun _ v => truthy v = true) cache ->
  embedQuery cfg input net cache = (r, cache') ->
  cache' = cache
  \/ exists v status body data,
       r = Ok v /\ truthy v = true /\ cache !! input = None
       /\ net = Answered true status body (Some data)
       /\ query_embedding data = Ok (Some v)
       /\ cache' = <[input := v]> cache.
Proof.
  intros Hcache. unfold embedQuery.
  destruct (cache !! input) as [cached |] eqn:Hget.
  - rewrite (Hcache input cached Hget). intros [= <- <-]. left; reflexivity.
  - destruct (request_embedding cfg net) as [found | e] eqn:Hfound;
      intros [= <- <-]; [| left; reflexivity].
    destruct (request_embedding_truthy cfg net found Hfound)
      as (Htruthy & status & body & data & Hnet & Hdata).
    right. exists found, status, body, data. auto 10.
Qed.

Lemma question_and_history_raises (req : request) (e : error) :
  question_and_history req = Err e ->
  e = TypeError /\ (body req = None \/ body req = Some JNull).
Proof.
  unfold question_and_history.
  destruct (body req) as [[| flag | x | s | elements | members] |];
    cbn; try discriminate; intros [= <-]; auto.
Qed.

Lemma question_and_history_reads (req : request) (question history : option json) :
  question_and_history req = Ok (question, history) ->
  read "question" (body req) = Ok question
  /\ read "history" (body req) = Ok history.
Proof.
  unfold question_and_history. intros H.
  apply and_then_Ok in H as (q & Hq & H).
  apply and_then_Ok in H as (h & Hh & H).
  injection H as <- <-. auto.
Qed.

(** The ways through the handler. *)
Lemma handler_cases (cfg : ollama_config) (req : request) (w : chat_world)
    (cache cache' : gmap jsstring json) (out : reply) :
  handler cfg req w cache = (out, cache') ->
  (cache' = cache
   /\ ((out = Unhandled TypeError
        /\ (body req = None \/ body req = Some JNull))
       \/ (out = Replied {| status := 405;
                            payload := ErrorBody (lit "Method not allowed") |}
           /\ method req <> lit "POST"
           /\ exists question, read "question" (body req) = Ok question)
       \/ (out = Replied no_question
           /\ method req = lit "POST"
           /\ (read "question" (body req) = Ok None
               \/ exists asked,
                    read "question" (body req) = Ok (Some asked)
                    /\ truthy asked = false))
       \/ (out = Unhandled TypeError
           /\ method req = lit "POST"
           /\ exists asked,
                read "question" (body req) = Ok (Some asked)
                /\ truthy asked = true
                /\ ToString (world_engine w) asked = Err TypeError)))
  \/ exists asked history s r,
       read "question" (body req) = Ok (Some asked)
       /\ read "history" (body req) = Ok history
       /\ method req = lit "POST"
       /\ truthy asked = true
       /\ ToString (world_engine w) asked = Ok s
       /\ answer_or_error cfg w (sanitize s) history cache = (r, cache')
       /\ out = Replied r.
Proof.
  unfold handler.
  destruct (question_and_history req) as [[question history] | e] eqn:Hread.
  - apply question_and_history_reads in Hread as (Hquestion & Hhistory).
    destruct (jsstring_eqb (method req) (lit "POST")) eqn:Hmethod; cbn [negb].
    + apply jsstring_eqb_eq in Hmethod.
      destruct question as [asked |];
        [| intros [= <- <-]; left; split; [reflexivity |];
           right; right; left; auto].
      destruct (truthy asked) eqn:Htruthy;
        [| intros [= <- <-]; left; split; [reflexivity |];
           right; right; left; split; [reflexivity |];
           split; [exact Hmethod | right; exists asked; auto]].
      destruct (ToString (world_engine w) asked) as [s | e] eqn:Hs.
      * destruct (answer_or_error cfg w (sanitize s) history cache)
          as [r cache''] eqn:Hanswer.
        intros [= <- <-]. right. exists asked, history, s, r. auto 10.
      * intros [= <- <-]. left. split; [reflexivity |].
        right; right; right.
        pose proof (ToString_raises _ _ _ Hs) as ->.
        split; [reflexivity | split; [exact Hmethod | exists asked; auto]].
    + intros [= <- <-]. left. split; [reflexivity |]. right; left.
      split; [reflexivity |]. split; [| eauto]. intros Heq.
      rewrite Heq in Hmethod. vm_compute in Hmethod. discriminate.
  - intros [= <- <-]. left. split; [reflexivity |]. left.
    apply question_and_history_raises in Hread as (-> & Hbody). auto.
Qed.

Lemma answer_or_error_cases (cfg : ollama_config) (w : chat_world)
    (q : jsstring) (history : option json)
    (cache cache' : gmap jsstring json) (r : response) :
  answer_or_error cfg w q history cache = (r, cache') ->
  (exists e, readLocalIndex (world_files w) = Err e
             /\ r = error_response e /\ cache' = cache)
  \/ exists index,
       readLocalIndex (world_files w) = Ok index
       /\ ((exists e, embedQuery cfg q (embed_net w q) cache = (Err e, cache')
                      /\ r = error_response e)
           \/ exists v,
                embedQuery cfg q (embed_net w q) cache = (Ok v, cache')
                /\ ((exists e, answer cfg w q history index v = Err e
                               /\ r = error_response e)
                    \/ answer cfg w q history index v = Ok r)).
Proof.
  unfold answer_or_error.
  destruct (readLocalIndex (world_files w)) as [index | e] eqn:Hindex.
  - destruct (embedQuery cfg q (embed_net w q) cache) as [[v | e] cache'']
      eqn:Hembed.
    + destruct (answer cfg w q history index v) as [r' | e] eqn:Hanswer;
        intros [= <- <-]; right; exists index; split; try reflexivity;
        right; exists v; split; try reflexivity; eauto.
    + intros [= <- <-]. right. exists index. split; [reflexivity |].
      left. exists e. auto.
  - intros [= <- <-]. left. exists e. auto.
Qed.

Lemma readLocalIndex_raises (fs : filesystem) (e : error) :
  readLocalIndex fs = Err e ->
  (exists code, e = SystemError code) \/ e = SyntaxError.
Proof.
  unfold readLocalIndex, readFile.
  destruct (existsb (not_a_directory fs) (parents LOCAL_INDEX_PATH));
    [intros [= <-]; eauto |].
  destruct (files fs !! LOCAL_INDEX_PATH) as [[v | t] |]; cbn [JSON_parse].
  - discriminate.
  - intros [= <-]. auto.
  - destruct (bool_decide (LOCAL_INDEX_PATH ∈ directories fs));
      intros [= <-]; eauto.
Qed.

Lemma embedQuery_raises (cfg : ollama_config) (input : jsstring) (net : fetched)
    (cache cache' : gmap jsstring json) (e : error) :
  embedQuery cfg input net cache = (Err e, cache') ->
  e = TypeError \/ e = SyntaxError
  \/ exists message code,
       e = ApiError message code
       /\ (code = 503%Z \/ code = 500%Z
           \/ exists body parsed, net = Answered false code body parsed).
Proof.
  unfold embedQuery.
  assert (Hreq : forall cache'',
            match request_embedding cfg net with
            | Ok embedding => (Ok embedding, <[input := embedding]> cache)
            | Err e => (Err e, cache)
            end = (Err e, cache'') ->
            e = TypeError \/ e = SyntaxError
            \/ exists message code,
                 e = ApiError message code
                 /\ (code = 503%Z \/ code = 500%Z
                     \/ exists body parsed, net = Answered false code body parsed)).
  { intros cache''. unfold request_embedding.
    destruct net as [message | [|] status body [data |]].
    - intros [= <- _]. right; right. eauto 6.
    - destruct (query_embedding data) as [[found |] | e'] eqn:Hfound;
        cbn [and_then].
      + destruct (truthy found); [discriminate |].
        intros [= <- _]. right; right. eauto 6.
      + intros [= <- _]. right; right. eauto 6.
      + intros [= <- _]. left. revert Hfound. unfold query_embedding.
        intros Hfound. apply and_then_Err in Hfound as [H | (a & Ha & H)].
        * exact (read_raises _ _ _ H).
        * destruct a as [[| flag | x | s | [| first rest] | members] |];
            try exact (read_raises _ _ _ H).
          destruct (truthy first); [discriminate | exact (read_raises _ _ _ H)].
    - intros [= <- _]. auto.
    - intros [= <- _]. right; right. eauto 8.
    - intros [= <- _]. right; right. eauto 8. }
  destruct (cache !! input) as [cached |]; [| apply Hreq].
  destruct (truthy cached); [discriminate | apply Hreq].
Qed.

Lemma chatCompletion_raises (cfg : ollama_config) (question context : jsstring)
    (history : json) (net : list sent_message -> fetched) (e : error) :
  chatCompletion cfg question context history net = Err e ->
  e = TypeError \/ e = SyntaxError
  \/ exists message code,
       e = ApiError message code
       /\ (code = 503%Z
           \/ exists messages body parsed,
                net messages = Answered false code body parsed).
Proof.
  unfold chatCompletion. intros H.
  apply and_then_Err in H as [H | (turns & _ & H)];
    [left; exact (turns_of_raises _ _ H) |].
  destruct (net (messages_sent question context turns))
    as [message | [|] status body [data |]] eqn:Hnet.
  - injection H as <-. right; right. eauto 6.
  - left. exact (answer_text_raises _ _ H).
  - injection H as <-. auto.
  - injection H as <-. right; right. eauto 10.
  - injection H as <-. right; right. eauto 10.
Qed.

Lemma answer_raises (cfg : ollama_config) (w : chat_world) (q : jsstring)
    (history : option json) (index v : json) (e : error) :
  answer cfg w q history index v = Err e ->
  e = TypeError \/ e = SyntaxError
  \/ exists message code,
       e = ApiError message code
       /\ (code = 503%Z
           \/ exists messages body parsed,
                chat_net w messages = Answered false code body parsed).
Proof.
  unfold answer. intros H.
  apply and_then_Err in H as [H | (matches & _ & H)];
    [left; exact (searchLocalIndex_unchecked_raises _ _ _ _ _ H) |].
  apply and_then_Err in H as [H | (documents & _ & H)];
    [left; exact (map_results_raises _ _ source_document_raises _ H) |].
  apply and_then_Err in H as [H | (context & _ & H)];
    [left; exact (join_values_raises _ _ _ _ H) |].
  apply and_then_Err in H as [H | (text & _ & H)]; [| discriminate].
  exact (chatCompletion_raises _ _ _ _ _ _ H).
Qed.

Lemma error_response_status (e : error) :
  (forall message code, e <> ApiError message code) ->
  (forall message, e <> Error_ message) ->
  status (error_response e) = 400%Z \/ status (error_response e) = 500%Z.
Proof.
  intros Hapi Herror.
  destruct e as [code | | message | message code |]; cbn [error_response];
    [| auto | | | auto].
  - destruct (String.eqb code "ENOENT"); auto.
  - destruct (Herror message eq_refl).
  - destruct (Hapi message code eq_refl).
Qed.

Lemma answer_or_error_status (cfg : ollama_config) (w : chat_world)
    (q : jsstring) (history : option json)
    (cache cache' : gmap jsstring json) (r : response) :
  answer_or_error cfg w q history cache = (r, cache') ->
  In (status r) [200; 400; 500; 503]%Z \/ passed_on w (status r).
Proof.
  intros H.
  assert (Hplatform : forall e, e = TypeError \/ e = SyntaxError ->
            In (status (error_response e)) [200; 400; 500; 503]%Z).
  { intros e [-> | ->]; cbn; auto. }
  apply answer_or_error_cases in H
    as [(e & He & -> & _) | (index & _ & [(e & He & ->) | (v & _ & [(e & He & ->) | He])])].
  - left. apply readLocalIndex_raises in He as [(code & ->) | ->];
      [| cbn; auto].
    cbn [error_response]. destruct (String.eqb code "ENOENT"); cbn; auto.
  - apply embedQuery_raises in He
      as [-> | [-> | (message & code & -> & [-> | [-> | (body & parsed & Hnet)]])]];
      cbn [error_response status]; try (left; cbn; auto 6; fail).
    right. left. eauto.
  - apply answer_raises in He
      as [-> | [-> | (message & code & -> & [-> | (messages & body & parsed & Hnet)])]];
      cbn [error_response status]; try (left; cbn; auto 6; fail).
    right. right. eauto.
  - left. unfold answer in He.
    apply and_then_Ok in He as (matches & _ & He).
    apply and_then_Ok in He as (documents & _ & He).
    apply and_then_Ok in He as (context & _ & He).
    apply and_then_Ok in He as (text & _ & He).
    injection He as <-. cbn. auto.
Qed.

(** The handler always comes to an end.  When it answers, the status
    is 200, 400, 405, 500 or 503, or it is the status of a response
    without a success status of the embedding service or of the chat
    service.  It does not answer, and an exception (a [TypeError]) leaves
    it with the cache as it was, exactly when the body of the request is
    [undefined] or [null], or when the method is POST and the question is
    truthy and has no text: the body is taken apart and the question made
    a string before the [try] statement. *)
Theorem handler_status (cfg : ollama_config) (req : request) (w : chat_world)
    (embeddingCache : gmap jsstring json) :
  let no_text :=
    method req = lit "POST"
    /\ exists asked,
         read "question" (body req) = Ok (Some asked)
         /\ truthy asked = true
         /\ ToString (world_engine w) asked = Err TypeError in
  match handler cfg req w embeddingCache with
  | (Replied r, _) =>
      (In (status r) [200; 400; 405; 500; 503]%Z \/ passed_on w (status r))
      /\ body req <> None /\ body req <> Some JNull /\ ~ no_text
  | (Unhandled e, cache') =>
      e = TypeError /\ cache' = embeddingCache
      /\ (body req = None \/ body req = Some JNull \/ no_text)
  end.
Proof.
  intros no_text. subst no_text.
  destruct (handler cfg req w embeddingCache) as [out cache'] eqn:H.
  assert (Hbody : forall asked, read "question" (body req) = Ok asked ->
            body req <> None /\ body req <> Some JNull).
  { intros asked. destruct (body req) as [[| | | | |] |]; cbn;
      try discriminate; intros _; split; discriminate. }
  apply handler_cases in H
    as [(-> & [(-> & Hnone) | [(-> & Hmethod & question & Hq)
                              | [(-> & Hmethod & Hq) | (-> & Hmethod & asked & Hq & Ht & Hs)]]])
       | (asked & history & s & r & Hq & Hh & Hmethod & Ht & Hs & Hanswer & ->)].
  - split; [reflexivity |]. split; [reflexivity |]. tauto.
  - split; [left; cbn; auto 6 |].
    destruct (Hbody _ Hq) as (H1 & H2). split; [exact H1 |]. split; [exact H2 |].
    intros (Hpost & _). contradiction.
  - split; [left; cbn; auto 6 |].
    assert (Hb : body req <> None /\ body req <> Some JNull).
    { destruct Hq as [Hq | (asked & Hq & _)]; exact (Hbody _ Hq). }
    destruct Hb as (H1 & H2). split; [exact H1 |]. split; [exact H2 |].
    intros (_ & asked & Hasked & Ht & _).
    destruct Hq as [Hq | (asked' & Hq & Hf)]; rewrite Hq in Hasked;
      [discriminate |].
    injection Hasked as ->. rewrite Ht in Hf. discriminate.
  - split; [reflexivity |]. split; [reflexivity |]. right; right. eauto.
  - split; [| destruct (Hbody _ Hq) as (H1 & H2); split; [exact H1 |];
               split; [exact H2 |]].
    + apply answer_or_error_status in Hanswer as [Hin | Hpassed]; [| auto].
      left. cbn in Hin |- *. tauto.
    + intros (_ & asked' & Hasked & _ & Hs').
      rewrite Hq in Hasked. injection Hasked as ->.
      rewrite Hs in Hs'. discriminate.
Qed.

(** The cache holds truthy values only, and the handler keeps it so.
    Whatever it answers, and when an exception leaves it, it removes and
    changes no entry.  It adds at most one: for the sanitized question (the
    text of the question, trimmed, line feeds replaced by spaces), which
    has no line feed and had no entry, the truthy value that the embedding
    service sent for it in a response with a success status, as the first
    of [embeddings] or else as [embedding]. *)
Theorem handler_cache_grows (cfg : ollama_config) (req : request) (w : chat_world)
    (embeddingCache : gmap jsstring json) :
  map_Forall (fun _ v => truthy v = true) embeddingCache ->
  let cache' := snd (handler cfg req w embeddingCache) in
  embeddingCache ⊆ cache'
  /\ map_Forall (fun _ v => truthy v = true) cache'
  /\ (cache' = embeddingCache
      \/ exists asked s v code details data,
           read "question" (body req) = Ok (Some asked)
           /\ ToString (world_engine w) asked = Ok s
           /\ ~ In 10%N (sanitize s)
           /\ embeddingCache !! sanitize s = None
           /\ embed_net w (sanitize s) = Answered true code details (Some data)
           /\ query_embedding data = Ok (Some v)
           /\ truthy v = true
           /\ cache' = <[sanitize s := v]> embeddingCache).
Proof.
  intros Hcache cache'. subst cache'.
  destruct (handler cfg req w embeddingCache) as [out cache'] eqn:H.
  cbn [snd].
  assert (Hsame : cache' = embeddingCache ->
            embeddingCache ⊆ cache'
            /\ map_Forall (fun _ v => truthy v = true) cache'
            /\ (cache' = embeddingCache
                \/ exists asked s v code details data,
                     read "question" (body req) = Ok (Some asked)
                     /\ ToString (world_engine w) asked = Ok s
                     /\ ~ In 10%N (sanitize s)
                     /\ embeddingCache !! sanitize s = None
                     /\ embed_net w (sanitize s)
                        = Answered true code details (Some data)
                     /\ query_embedding data = Ok (Some v)
                     /\ truthy v = true
                     /\ cache' = <[sanitize s := v]> embeddingCache)).
  { intros ->. split; [reflexivity |]. split; [exact Hcache | left; reflexivity]. }
  apply handler_cases in H
    as [(Heq & _)
       | (asked & history & s & r & Hq & Hh & Hmethod & Ht & Hs & Hanswer & ->)];
    [exact (Hsame Heq) |].
  apply answer_or_error_cases in Hanswer
    as [(e & _ & _ & Heq) | (index & _ & Hembed)]; [exact (Hsame Heq) |].
  assert (Hleaves : exists r', embedQuery cfg (sanitize s)
                                 (embed_net w (sanitize s)) embeddingCache
                               = (r', cache')).
  { destruct Hembed as [(e & He & _) | (v & Hv & _)]; eauto. }
  destruct Hleaves as (r' & Hleaves).
  apply (embedQuery_leaves _ _ _ _ _ _ Hcache) in Hleaves
    as [Heq | (v & status & body & data & _ & Hv & Hnone & Hnet & Hdata & ->)];
    [exact (Hsame Heq) |].
  split; [apply insert_subseteq; exact Hnone |].
  split; [apply map_Forall_insert_2; assumption |].
  right. exists asked, s, v, status, body, data.
  split; [exact Hq |]. split; [exact Hs |].
  split; [apply sanitize_no_line_feed |]. auto 6.
Qed.

Lemma handler_cache_grows_witness :
  let earlier : gmap jsstring json :=
    {[ lit "what else?" := JArr [JNum 0%float; JNum 1%float] ]} in
  let cache' := snd (handler scenario_config scenario_request scenario_world earlier) in
  earlier ⊆ cache'
  /\ map_Forall (fun _ v => truthy v = true) cache'
  /\ (cache' = earlier
      \/ exists asked s v code details data,
           read "question" (body scenario_request) = Ok (Some asked)
           /\ ToString (world_engine scenario_world) asked = Ok s
           /\ ~ In 10%N (sanitize s)
           /\ earlier !! sanitize s = None
           /\ embed_net scenario_world (sanitize s)
              = Answered true code details (Some data)
           /\ query_embedding data = Ok (Some v)
           /\ truthy v = true
           /\ cache' = <[sanitize s := v]> earlier).
Proof.
  apply (handler_cache_grows scenario_config scenario_request scenario_world
           {[ lit "what else?" := JArr [JNum 0%float; JNum 1%float] ]}).
  apply map_Forall_singleton. reflexivity.
Defined.

(** In the scenario the entry of the question is added to the entry that
    was there. *)
Lemma handler_cache_scenario :
  snd (handler scenario_config scenario_request scenario_world
         {[ lit "what else?" := JArr [JNum 0%float; JNum 1%float] ]})
  = {[ lit "what else?" := JArr [JNum 0%float; JNum 1%float];
       lit "which one?" := scenario_embedding ]}.
Proof. vm_compute. reflexivity. Qed.

Lemma handler_asked (cfg : ollama_config) (req : request) (w : chat_world)
    (cache : gmap jsstring json) (asked : json) (s : jsstring) :
  method req = lit "POST" ->
  read "question" (body req) = Ok (Some asked) -> truthy asked = true ->
  ToString (world_engine w) asked = Ok s ->
  exists history,
    read "history" (body req) = Ok history
    /\ handler cfg req w cache
       = (Replied (fst (answer_or_error cfg w (sanitize s) history cache)),
          snd (answer_or_error cfg w (sanitize s) history cache)).
Proof.
  intros Hmethod Hq Ht Hs. unfold handler, question_and_history.
  rewrite Hq. cbn [and_then].
  destruct (read "history" (body req)) as [history | e] eqn:Hh.
  - exists history. split; [reflexivity |]. cbn [and_then].
    rewrite Hmethod. change (jsstring_eqb (lit "POST") (lit "POST")) with true.
    cbn [negb]. rewrite Ht, Hs.
    destruct (answer_or_error cfg w (sanitize s) history cache). reflexivity.
  - destruct (body req) as [[| | | | |] |]; discriminate.
Qed.

(** A POST with a question that is truthy and has a text, when
    nothing is at the path of the index artifact: if the path can be gone
    through, the answer is the status 400 with the error 'Local index not
    found. Run `npm run ingest` first.'; if the directory of the artifact
    is a regular file, it is the status 500 with the message of the
    system error [ENOTDIR].  Either way the services are not asked and the
    cache is as it was. *)
Theorem handler_without_index (cfg : ollama_config) (req : request) (w : chat_world)
    (embeddingCache : gmap jsstring json) (asked : json) (s : jsstring) :
  method req = lit "POST" ->
  read "question" (body req) = Ok (Some asked) -> truthy asked = true ->
  ToString (world_engine w) asked = Ok s ->
  files (world_files w) !! LOCAL_INDEX_PATH = None ->
  (LOCAL_INDEX_PATH ∉ directories (world_files w)) ->
  let through_a_file :=
    (LOCAL_INDEX_FOLDER ∉ directories (world_files w))
    /\ is_Some (files (world_files w) !! LOCAL_INDEX_FOLDER) in
  (~ through_a_file ->
   handler cfg req w embeddingCache
   = (Replied {| status := 400; payload := ErrorBody index_not_found |},
      embeddingCache))
  /\ (through_a_file ->
      handler cfg req w embeddingCache
      = (Replied {| status := 500;
                    payload := RaisedBody (SystemError "ENOTDIR") |},
         embeddingCache)).
Proof.
  intros Hmethod Hq Ht Hs Hfile Hdir through_a_file.
  destruct (handler_asked cfg req w embeddingCache asked s Hmethod Hq Ht Hs)
    as (history & _ & ->).
  unfold answer_or_error, readLocalIndex. rewrite readFile_artifact.
  rewrite Hfile. subst through_a_file. unfold not_a_directory.
  split; intros Hthrough.
  - destruct (negb (bool_decide (LOCAL_INDEX_FOLDER ∈ directories (world_files w)))
              && bool_decide (is_Some (files (world_files w) !! LOCAL_INDEX_FOLDER)))
      eqn:Hfolder.
    + apply andb_prop in Hfolder as (Hno & Hsome).
      apply negb_true_iff, bool_decide_eq_false in Hno.
      apply bool_decide_eq_true in Hsome. destruct Hthrough. auto.
    + rewrite bool_decide_eq_false_2 by exact Hdir. reflexivity.
  - destruct Hthrough as (Hno & Hsome).
    rewrite (bool_decide_eq_false_2 _ Hno), (bool_decide_eq_true_2 _ Hsome).
    reflexivity.
Qed.

Lemma handler_without_index_witness :
  handler scenario_config scenario_request (world_on empty_fs) ∅
  = (Replied {| status := 400; payload := ErrorBody index_not_found |}, ∅)
  /\ handler scenario_config scenario_request (world_on folder_is_file_fs) ∅
     = (Replied {| status := 500;
                   payload := RaisedBody (SystemError "ENOTDIR") |}, ∅).
Proof.
  split.
  - apply (handler_without_index scenario_config scenario_request
             (world_on empty_fs) ∅
             (JStr (lit " which one? ")) (lit " which one? "));
      try reflexivity.
    + cbn. apply not_elem_of_empty.
    + cbn. intros (_ & Hsome). destruct Hsome as (content & Hcontent).
      rewrite lookup_empty in Hcontent. discriminate.
  - apply (handler_without_index scenario_config scenario_request
             (world_on folder_is_file_fs) ∅
             (JStr (lit " which one? ")) (lit " which one? "));
      try reflexivity.
    + cbn. apply not_elem_of_empty.
    + cbn. split; [apply not_elem_of_empty |].
      exists (Malformed (lit "notes")). reflexivity.
Defined.

Lemma error_response_no_text (e : error) (text : json)
    (documents : list SourceDocument) :
  payload (error_response e) <> ChatBody text documents.
Proof.
  destruct e as [code | | message | message code |]; cbn [error_response];
    try discriminate.
  destruct (String.eqb code "ENOENT"); discriminate.
Qed.

(** An answer with a text is one of the whole [try] block. *)
Lemma handler_text (cfg : ollama_config) (req : request) (w : chat_world)
    (cache cache' : gmap jsstring json) (r : response) (text : json)
    (documents : list SourceDocument) :
  handler cfg req w cache = (Replied r, cache') ->
  payload r = ChatBody text documents ->
  exists asked history s index v,
    method req = lit "POST"
    /\ read "question" (body req) = Ok (Some asked)
    /\ read "history" (body req) = Ok history
    /\ truthy asked = true
    /\ ToString (world_engine w) asked = Ok s
    /\ readLocalIndex (world_files w) = Ok index
    /\ embedQuery cfg (sanitize s) (embed_net w (sanitize s)) cache = (Ok v, cache')
    /\ answer cfg w (sanitize s) history index v = Ok r.
Proof.
  intros H Hpayload.
  apply handler_cases in H
    as [(_ & [(H & _) | [(H & _) | [(H & _) | (H & _)]]])
       | (asked & history & s & r' & Hq & Hh & Hmethod & Ht & Hs & Hanswer & H)];
    try discriminate;
    try (injection H as ->; discriminate).
  injection H as <-.
  apply answer_or_error_cases in Hanswer
    as [(e & _ & -> & _)
       | (index & Hindex & [(e & _ & ->) | (v & Hv & [(e & _ & ->) | Hr])])];
    try (destruct (error_response_no_text _ _ _ Hpayload)).
  exists asked, history, s, index, v. auto 10.
Qed.

(** A question that the handler answered with a text is answered
    again from the cache: with the same files, the same chat service and
    the same engine, the same request on the cache that the first answer
    left gets the same answer and leaves the cache as it is, whatever the
    embedding service would answer now. *)
Theorem handler_answers_again (cfg : ollama_config) (req : request)
    (w w' : chat_world) (embeddingCache cache' : gmap jsstring json)
    (r : response) (text : json) (documents : list SourceDocument) :
  world_files w' = world_files w -> chat_net w' = chat_net w ->
  world_engine w' = world_engine w ->
  handler cfg req w embeddingCache = (Replied r, cache') ->
  payload r = ChatBody text documents ->
  handler cfg req w' cache' = (Replied r, cache').
Proof.
  intros Hfiles Hchat Hengine H Hpayload.
  destruct (handler_text _ _ _ _ _ _ _ _ H Hpayload)
    as (asked & history & s & index & v & Hmethod & Hq & Hh & Ht & Hs
        & Hindex & Hembed & Hanswer).
  rewrite <- Hengine in Hs.
  destruct (handler_asked cfg req w' cache' asked s Hmethod Hq Ht Hs)
    as (history' & Hh' & ->).
  rewrite Hh in Hh'. injection Hh' as <-.
  unfold answer_or_error. rewrite Hfiles, Hindex.
  apply embedQuery_returns in Hembed as (Hv & Hget).
  rewrite (embedQuery_hit cfg (sanitize s) _ cache' v Hget Hv).
  replace (answer cfg w' (sanitize s) history index v)
    with (answer cfg w (sanitize s) history index v)
    by (unfold answer; rewrite Hengine, Hchat; reflexivity).
  rewrite Hanswer. reflexivity.
Qed.

Lemma handler_answers_again_witness :
  handler scenario_config scenario_request embedding_down_world
    {[ lit "which one?" := scenario_embedding ]}
  = (Replied scenario_response, {[ lit "which one?" := scenario_embedding ]})
  /\ fst (handler scenario_config scenario_request embedding_down_world ∅)
     = Replied {| status := 503;
                  payload := ErrorBody
                    (lit "Could not connect to Ollama at http://127.0.0.1:11434. Start Ollama and ensure the URL is correct") |}.
Proof.
  split; [| vm_compute; reflexivity].
  apply (handler_answers_again scenario_config scenario_request
           scenario_world embedding_down_world ∅
           {[ lit "which one?" := scenario_embedding ]}
           scenario_response (JStr (lit "an answer"))
           [ scenario_document "first" 0; scenario_document "third" 2;
             scenario_document "second" 1 ]);
    reflexivity.
Defined.

Lemma map_results_Forall2 {A B : Type} (f : A -> result B) (l : list A)
    (l' : list B) :
  map_results f l = Ok l' -> Forall2 (fun a b => f a = Ok b) l l'.
Proof.
  revert l'. induction l as [| a rest IH]; intros l' H; cbn [map_results] in H.
  - injection H as <-. constructor.
  - apply and_then_Ok in H as (b & Hb & H).
    apply and_then_Ok in H as (bs & Hbs & H). injection H as <-.
    constructor; [exact Hb | apply IH; exact Hbs].
Qed.

Lemma scored_items (E : engine) (q : json) (elements : list json)
    (scored : list (json * float)) :
  map_results (scored_item E q) elements = Ok scored ->
  List.map fst scored = elements.
Proof.
  intros H. apply map_results_Forall2 in H.
  induction H as [| item entry elements scored Hentry _ IH]; [reflexivity |].
  cbn [List.map]. rewrite IH. f_equal.
  unfold scored_item in Hentry.
  apply and_then_Ok in Hentry as (embedding & _ & Hentry).
  apply and_then_Ok in Hentry as (score & _ & Hentry).
  injection Hentry as <-. reflexivity.
Qed.

Lemma sort_scored_perm (E : engine) (scored : list (json * float)) :
  (forall l, Permutation (sort_inconsistent E l) l) ->
  Permutation (sort_scored E scored) scored.
Proof.
  intros HE. unfold sort_scored.
  destruct (comparable scored); [apply js_sort_perm | apply HE].
Qed.

Lemma readLocalIndex_returns (fs : filesystem) (index : json) :
  readLocalIndex fs = Ok index ->
  files fs !! LOCAL_INDEX_PATH = Some (Rendered index).
Proof.
  unfold readLocalIndex, readFile.
  destruct (existsb (not_a_directory fs) (parents LOCAL_INDEX_PATH));
    [discriminate |].
  destruct (files fs !! LOCAL_INDEX_PATH) as [[v | t] |]; cbn [JSON_parse].
  - intros [= <-]. reflexivity.
  - discriminate.
  - destruct (bool_decide (LOCAL_INDEX_PATH ∈ directories fs)); discriminate.
Qed.

(** The handler answers with a text and source documents on the
    whole way only: the method is POST, the question is truthy and has a
    text, the artifact is a JSON text whose value has an array as [items],
    the cache holds a truthy value for the sanitized question afterwards,
    and the status is 200.  There are at most four documents, each made of
    an element of [items] of its own; the context is their [pageContent]s
    joined by blank lines, and the text is what the answer of the chat
    service to the messages with this context holds as
    [message.content], or the empty text.  (That [sort] permutes an array
    is asked of the engine for a comparator that is not consistent.) *)
Theorem handler_answer (cfg : ollama_config) (req : request) (w : chat_world)
    (embeddingCache cache' : gmap jsstring json) (code : Z) (text : json)
    (documents : list SourceDocument) :
  (forall scored,
     Permutation (sort_inconsistent (world_engine w) scored) scored) ->
  handler cfg req w embeddingCache
  = (Replied {| status := code; payload := ChatBody text documents |}, cache') ->
  code = 200%Z /\ method req = lit "POST"
  /\ exists asked history s index items v,
       read "question" (body req) = Ok (Some asked)
       /\ read "history" (body req) = Ok history
       /\ truthy asked = true
       /\ ToString (world_engine w) asked = Ok s
       /\ files (world_files w) !! LOCAL_INDEX_PATH = Some (Rendered index)
       /\ read "items" (Some index) = Ok (Some (JArr items))
       /\ cache' !! sanitize s = Some v /\ truthy v = true
       /\ (length documents <= 4)%nat
       /\ (exists found rest,
             Permutation (found ++ rest) items
             /\ map_results source_document found = Ok documents)
       /\ exists context turns number details data,
            join_values (world_engine w) [10%N; 10%N]
              (List.map pageContent documents) = Ok context
            /\ turns_of (or_else history (JArr [])) = Ok turns
            /\ chat_net w (messages_sent (sanitize s) context turns)
               = Answered true number details (Some data)
            /\ answer_text data = Ok text.
Proof.
  intros HE H.
  destruct (handler_text _ _ _ _ _ _ _ _ H eq_refl)
    as (asked & history & s & index & v & Hmethod & Hq & Hh & Ht & Hs
        & Hindex & Hembed & Hanswer).
  apply embedQuery_returns in Hembed as (Hv & Hget).
  apply readLocalIndex_returns in Hindex.
  unfold answer in Hanswer.
  apply and_then_Ok in Hanswer as (matches & Hmatches & Hanswer).
  apply and_then_Ok in Hanswer as (documents' & Hdocuments & Hanswer).
  apply and_then_Ok in Hanswer as (context & Hcontext & Hanswer).
  apply and_then_Ok in Hanswer as (text' & Htext & Hanswer).
  injection Hanswer as <- <- <-.
  split; [reflexivity |]. split; [exact Hmethod |].
  unfold searchLocalIndex_unchecked in Hmatches.
  apply and_then_Ok in Hmatches as (items & Hitems & Hmatches).
  destruct items as [[| flag | x | t | elements | members] |]; try discriminate.
  apply and_then_Ok in Hmatches as (scored & Hscored & Hmatches).
  injection Hmatches as <-.
  apply scored_items in Hscored.
  pose proof (sort_scored_perm (world_engine w) scored HE) as Hperm.
  rewrite js_slice_prefix in Hdocuments by lia.
  change (Z.to_nat 4) with 4%nat in Hdocuments.
  exists asked, history, s, index, elements, v.
  repeat (split; [assumption |]).
  split.
  { apply map_results_Forall2, Forall2_length in Hdocuments.
    rewrite <- Hdocuments, length_map, length_firstn. lia. }
  split.
  { exists (List.map fst (firstn 4 (sort_scored (world_engine w) scored))),
           (List.map fst (skipn 4 (sort_scored (world_engine w) scored))).
    split; [| exact Hdocuments].
    rewrite <- List.map_app, firstn_skipn, <- Hscored.
    apply Permutation_map. exact Hperm. }
  unfold chatCompletion in Htext.
  apply and_then_Ok in Htext as (turns & Hturns & Htext).
  destruct (chat_net w (messages_sent (sanitize s) context turns))
    as [message | [|] number details [data |]] eqn:Hnet; try discriminate.
  exists context, turns, number, details, data. auto.
Qed.

Lemma handler_answer_witness :
  let documents := [ scenario_document "first" 0; scenario_document "third" 2;
                     scenario_document "second" 1 ] in
  200%Z = 200%Z /\ method scenario_request = lit "POST"
  /\ exists asked history s index items v,
       read "question" (body scenario_request) = Ok (Some asked)
       /\ read "history" (body scenario_request) = Ok history
       /\ truthy asked = true
       /\ ToString (world_engine scenario_world) asked = Ok s
       /\ files (world_files scenario_world) !! LOCAL_INDEX_PATH
          = Some (Rendered index)
       /\ read "items" (Some index) = Ok (Some (JArr items))
       /\ ({[ lit "which one?" := scenario_embedding ]} : gmap jsstring json)
            !! sanitize s = Some v
       /\ truthy v = true
       /\ (length documents <= 4)%nat
       /\ (exists found rest,
             Permutation (found ++ rest) items
             /\ map_results source_document found = Ok documents)
       /\ exists context turns number details data,
            join_values (world_engine scenario_world) [10%N; 10%N]
              (List.map pageContent documents) = Ok context
            /\ turns_of (or_else history (JArr [])) = Ok turns
            /\ chat_net scenario_world (messages_sent (sanitize s) context turns)
               = Answered true number details (Some data)
            /\ answer_text data = Ok (JStr (lit "an answer")).
Proof.
  apply (handler_answer scenario_config scenario_request scenario_world ∅
           {[ lit "which one?" := scenario_embedding ]} 200
           (JStr (lit "an answer"))
           [ scenario_document "first" 0; scenario_document "third" 2;
             scenario_document "second" 1 ]).
  - intros scored. reflexivity.
  - vm_compute. reflexivity.
Defined.

(** ** The search on values of any shape, on an index of the type *)

Lemma magnitude_unchecked_typed (E : engine) (v : vector) :
  magnitude_unchecked E (Some (JArr (List.map JNum v))) = Ok (magnitude v).
Proof.
  unfold magnitude_unchecked, magnitude. cbn [iterable and_then visited].
  assert (H : forall total,
            fold_left (fun total value =>
                         let* sum := total in
                         let* x := ToNumber E (Some value) in
                         Ok (sum + x * x)%float)
                      (List.map JNum v) (Ok total)
            = Ok (fold_left (fun total value => (total + value * value)%float)
                    v total)).
  { induction v as [| x v IH]; intros total; [reflexivity |].
    cbn [List.map fold_left and_then ToNumber]. apply IH. }
  rewrite H. reflexivity.
Qed.

Lemma dotProduct_steps_typed (E : engine) (a b : vector) (n : nat) :
  forall i total,
    (i + n <= Nat.min (length a) (length b))%nat ->
    dotProduct_steps E n i (Elements (List.map JNum a))
      (Elements (List.map JNum b)) total
    = Ok (dotProduct_loop n i a b total).
Proof.
  assert (Hnth : forall (v : vector) i, (i < length v)%nat ->
            nth_error (List.map JNum v) i = Some (JNum (nth i v nan))).
  { intros v i Hi. rewrite nth_error_map.
    rewrite (nth_error_nth' v nan Hi). reflexivity. }
  induction n as [| n IH]; intros i total Hi; [reflexivity |].
  cbn [dotProduct_steps dotProduct_loop at_index].
  rewrite (Hnth a i), (Hnth b i) by lia. cbn [ToNumber and_then].
  apply IH. lia.
Qed.

Lemma cosineSimilarity_unchecked_typed (E : engine) (a b : vector) :
  cosineSimilarity_unchecked E (Some (JArr (List.map JNum a)))
    (Some (JArr (List.map JNum b)))
  = Ok (cosineSimilarity a b).
Proof.
  unfold cosineSimilarity_unchecked, cosineSimilarity.
  rewrite !magnitude_unchecked_typed. cbn [and_then].
  destruct (falsy (magnitude a) || falsy (magnitude b)); [reflexivity |].
  cbn [iterable and_then]. unfold dotProduct_unchecked, dotProduct.
  cbn [seq_length]. rewrite !length_map.
  rewrite dotProduct_steps_typed by lia. reflexivity.
Qed.

(** On an index and an embedding of the types the code names, when
    no comparison of two scores is [NaN], the search on values of any
    shape throws nothing and returns the records that [searchLocalIndex]
    returns, in the same order, whatever the engine. *)
Theorem searchLocalIndex_unchecked_typed (E : engine) (index : LocalIndex)
    (queryEmbedding : vector) (topK : Z) :
  comparable (List.map (fun item => (item_value item, score_of queryEmbedding item))
                (items index)) = true ->
  searchLocalIndex_unchecked E (index_value index)
    (JArr (List.map JNum queryEmbedding)) topK
  = Ok (List.map item_value (searchLocalIndex index queryEmbedding (Some topK))).
Proof.
  intros Hcomparable.
  unfold searchLocalIndex_unchecked, index_value, read.
  cbn [assoc]. eval_keys. cbn [and_then].
  assert (Hscored :
            map_results (scored_item E (JArr (List.map JNum queryEmbedding)))
              (List.map item_value (items index))
            = Ok (List.map (fun item => (item_value item,
                                         score_of queryEmbedding item))
                    (items index))).
  { clear Hcomparable.
    induction (items index) as [| item rest IH]; [reflexivity |].
    cbn [List.map map_results]. rewrite IH.
    unfold scored_item at 1. unfold item_value at 1, read.
    cbn [assoc]. eval_keys. cbn [and_then].
    rewrite cosineSimilarity_unchecked_typed. reflexivity. }
  rewrite Hscored. cbn [and_then]. unfold sort_scored.
  rewrite Hcomparable. unfold searchLocalIndex. f_equal.
  change (fun item => (item_value item, score_of queryEmbedding item))
    with (fun item => (fun p : LocalIndexItem * float => (item_value (fst p), snd p))
                        (item, score_of queryEmbedding item)).
  rewrite <- (List.map_map (fun item => (item, score_of queryEmbedding item))
                (fun p : LocalIndexItem * float => (item_value (fst p), snd p))).
  rewrite js_sort_map.
  change (fun u v : LocalIndexItem * float =>
            by_score (item_value (fst u), snd u) (item_value (fst v), snd v))
    with by_score_desc.
  set (sorted := js_sort by_score_desc _).
  unfold js_slice. rewrite !length_map.
  rewrite skipn_map, firstn_map, !List.map_map. reflexivity.
Qed.

Lemma searchLocalIndex_unchecked_typed_witness :
  searchLocalIndex_unchecked scenario_engine (index_value scenario_index)
    (JArr (List.map JNum [1; 0]%float)) 2
  = Ok (List.map item_value
          (searchLocalIndex scenario_index [1; 0]%float (Some 2%Z))).
Proof.
  apply (searchLocalIndex_unchecked_typed scenario_engine scenario_index
           [1; 0]%float 2).
  vm_compute. reflexivity.
Defined.

(** The messages on a history of the type the code names are those of
    [chat_messages]. *)
Lemma messages_sent_typed (question context : jsstring)
    (history : list (jsstring * jsstring)) :
  let turns :=
    List.map (fun turn => (Some (JStr (fst turn)), Some (JStr (snd turn))))
      history in
  turns_of (JArr (List.map (fun turn => JArr [JStr (fst turn); JStr (snd turn)])
                    history))
  = Ok turns
  /\ messages_sent question context turns
     = List.map (fun m => (fst m, Some (JStr (snd m))))
         (chat_messages question context history).
Proof.
  intros turns. subst turns. split.
  - cbn [turns_of]. induction history as [| turn rest IH]; [reflexivity |].
    cbn [List.map map_results]. rewrite IH. reflexivity.
  - unfold messages_sent, chat_messages. cbn [List.map]. f_equal.
    rewrite List.map_app. cbn [List.map fst snd]. f_equal.
    induction history as [| turn rest IH]; [reflexivity |].
    cbn [List.map flat_map app fst snd]. rewrite IH. reflexivity.
Qed.
